(** * framer.py: the iTerm2 terminal multiplexer agent

    A shallow embedding of [OtherResources/framer.py]: the outbound writer
    [send], the command handlers, the process-tree monitor [procmon_parse],
    the autopoll task and the read pumps, followed by the properties of the
    specification that are stated about them.

    Conventions of the embedding.
    - A Python [str] is a [string]; characters are bytes, and the character
      classes of [re] ([\s], [\d], [\S], [[A-Za-z]]) are the ones of the
      ASCII range.  The text handed to [procmon_parse] is the decoded text.
    - A Python [int] is a [Z]; [bytes] is a [list byte].
    - A [dict] is an association list in insertion order without duplicate
      keys; assigning to an existing key keeps the key's position.
    - Module-level globals are the fields of the record [agent], which is
      threaded through a state-and-exception monad [M].
    - Whatever the operating system decides (the random identifiers, the
      pid of a spawned child, the exit status and output of [ps], the exit
      status of a child) is supplied to each step by a [world] record.
    - The debug log ([log], [LOGFILE], [VERBOSE]) is not modelled, except
      that an argument of [log] that raises is evaluated where the source
      evaluates it.
    - The event loop runs one coroutine at a time.  A step of the model is
      one request handled by [handle], one wake-up of a read pump or one
      wake-up of the autopoll coroutine, run to its end; the code between
      two suspension points of a coroutine never interleaves with other
      code, and the steps are taken in any order and number ([run]).  The
      awaits inside a handler (the creation of a subprocess, [ps], the
      wait for a child or for the cancelled autopoll task) come before or
      after its updates of the globals and are not separate steps. *)

From Stdlib Require Import ZArith List String Ascii Bool Lia Arith.
From Stdlib Require Import Permutation DecimalString.
From Stdlib Require DecimalPos DecimalZ.
From Stdlib.Strings Require Import Byte.
Import ListNotations.
Local Open Scope string_scope.
Local Open Scope Z_scope.

Set Implicit Arguments.

(* ===================================================================== *)
(** ** Python primitives *)
(* ===================================================================== *)

Module Py.

(** [str(n)] for an [int]. *)
Definition str (n : Z) : string := NilZero.string_of_int (Z.to_int n).

(** [sep.join(parts)]. *)
Definition join (sep : string) (parts : list string) : string :=
  String.concat sep parts.

(** [len(s)]. *)
Definition len (s : string) : nat := String.length s.

(** [s.startswith(p)]. *)
Definition startswith (s p : string) : bool := String.prefix p s.

Fixpoint last_char (s : string) : option ascii :=
  match s with
  | EmptyString => None
  | String c EmptyString => Some c
  | String _ rest => last_char rest
  end.

(** [s.endswith(c)] for a one-character [c]. *)
Definition endswith_char (s : string) (c : ascii) : bool :=
  match last_char s with
  | Some d => Ascii.eqb d c
  | None => false
  end.

Definition newline : ascii := "010"%char.

(** [s.split("\n")]: never the empty list; a trailing newline gives a
    final empty piece. *)
Fixpoint split_lines (s : string) : list string :=
  match s with
  | EmptyString => [EmptyString]
  | String c rest =>
      if Ascii.eqb c newline then EmptyString :: split_lines rest
      else match split_lines rest with
           | piece :: pieces => String c piece :: pieces
           | [] => [String c EmptyString]
           end
  end.

(** [s[i:j]] for [0 <= i <= j]. *)
Definition slice (s : string) (i j : nat) : string :=
  string_of_list_ascii (firstn (j - i) (skipn i (list_ascii_of_string s))).

(** [range(0, stop, step)] for a positive [step]. *)
Definition range_step (stop step : nat) : list nat :=
  map (fun k => (k * step)%nat) (seq 0 ((stop + step - 1) / step)).

(** Character classes: [str.isspace] on the ASCII range (which is what
    [\s] and the stripping of [int()] use), [\d], [[A-Za-z]]. *)
Definition isspace (c : ascii) : bool :=
  let n := nat_of_ascii c in
  ((9 <=? n) && (n <=? 13) || (28 <=? n) && (n <=? 32))%nat.

Definition isdigit (c : ascii) : bool :=
  let n := nat_of_ascii c in ((48 <=? n) && (n <=? 57))%nat.

Definition isletter (c : ascii) : bool :=
  let n := nat_of_ascii c in
  ((65 <=? n) && (n <=? 90) || (97 <=? n) && (n <=? 122))%nat.

(** *** [int(s)]

    Surrounding whitespace is stripped; then an optional sign, then
    decimal digits in which single underscores may separate digits. *)

Fixpoint lstrip (s : list ascii) : list ascii :=
  match s with
  | c :: rest => if isspace c then lstrip rest else s
  | [] => []
  end.

Definition strip (s : list ascii) : list ascii :=
  rev (lstrip (rev (lstrip s))).

Definition digit_value (c : ascii) : Z := Z.of_nat (nat_of_ascii c) - 48.

(** [digits acc prev_digit s]: [prev_digit] tells whether the character
    before [s] was a digit (an underscore needs a digit on both sides). *)
Fixpoint digits (acc : Z) (prev_digit : bool) (s : list ascii) : option Z :=
  match s with
  | [] => if prev_digit then Some acc else None
  | c :: rest =>
      if isdigit c then digits (10 * acc + digit_value c) true rest
      else if Ascii.eqb c "_"
           then if prev_digit
                then match rest with
                     | d :: _ => if isdigit d then digits acc false rest else None
                     | [] => None
                     end
                else None
           else None
  end.

Definition int (s : string) : option Z :=
  match strip (list_ascii_of_string s) with
  | "-"%char :: rest => option_map Z.opp (digits 0 false rest)
  | "+"%char :: rest => digits 0 false rest
  | rest => digits 0 false rest
  end.

End Py.

(* ===================================================================== *)
(** ** Insertion-ordered dictionaries with string keys *)
(* ===================================================================== *)

Module Dict.
Section Dict.
Variable V : Type.

Definition t := list (string * V).

Definition empty : t := [].

(** [d.get(k)] as an option; [d[k]] raises [KeyError] on [None]. *)
Fixpoint get (d : t) (k : string) : option V :=
  match d with
  | [] => None
  | (k', v) :: rest => if String.eqb k' k then Some v else get rest k
  end.

(** [k in d]. *)
Definition mem (d : t) (k : string) : bool :=
  match get d k with Some _ => true | None => false end.

(** [d[k] = v]: an existing key keeps its position, a new key goes last. *)
Fixpoint set (d : t) (k : string) (v : V) : t :=
  match d with
  | [] => [(k, v)]
  | (k', v') :: rest =>
      if String.eqb k' k then (k', v) :: rest else (k', v') :: set rest k v
  end.

(** [d.keys()], in iteration order. *)
Definition keys (d : t) : list string := map fst d.

End Dict.
End Dict.

(* ===================================================================== *)
(** ** The regular expression of [procmon_parse] *)
(* ===================================================================== *)

Module Regex.

(** The pattern is a concatenation of greedy repetitions of a character
    class, literal characters and (unnested) capture groups.  [^] is
    implicit: [re.search] without [re.MULTILINE] can only match the
    pattern at position 0. *)
Inductive item :=
| Rep (lo : nat) (cls : ascii -> bool)   (* cls{lo,}, greedy *)
| Lit (c : ascii)
| GroupOpen
| GroupClose.

Fixpoint take_while (p : ascii -> bool) (s : list ascii) : nat :=
  match s with
  | c :: rest => if p c then S (take_while p rest) else O
  | [] => O
  end.

(** Backtracking matcher.  [cur] is the text consumed since the last
    [GroupOpen]; [caps] are the groups closed so far.  A repetition first
    takes as many characters as it can and gives them back one at a time
    while the rest of the pattern fails. *)
Fixpoint exec (items : list item) (s cur : list ascii)
         (caps : list string) : option (list string) :=
  match items with
  | [] => Some caps
  | Lit c :: rest =>
      match s with
      | x :: s' => if Ascii.eqb x c then exec rest s' (cur ++ [x]) caps else None
      | [] => None
      end
  | GroupOpen :: rest => exec rest s [] caps
  | GroupClose :: rest => exec rest s [] (caps ++ [string_of_list_ascii cur])
  | Rep lo cls :: rest =>
      (fix give_back (n : nat) : option (list string) :=
         if (n <? lo)%nat then None
         else match exec rest (skipn n s) (cur ++ firstn n s) caps with
              | Some r => Some r
              | None => match n with
                        | O => None
                        | S n' => give_back n'
                        end
              end) (take_while cls s)
  end.

Definition search (pattern : list item) (line : string) : option (list string) :=
  exec pattern (list_ascii_of_string line) [] [].

End Regex.

(* ===================================================================== *)
(** ** Exceptions *)
(* ===================================================================== *)

(** The exceptions that the modelled code can raise.  All of them are
    subclasses of [Exception]; [SystemExit] and [CancelledError] are not
    and are handled apart (see [outcome]). *)
Inductive exn :=
| IndexError | KeyError | NameError | TypeError
| UnboundLocalError | RecursionError.

(** Result of a pure Python computation that can raise. *)
Inductive pyres (A : Type) :=
| Val (a : A)
| Exc (e : exn).
Arguments Val {A} a.
Arguments Exc {A} e.

Definition pybind {A B : Type} (m : pyres A) (f : A -> pyres B) : pyres B :=
  match m with
  | Val a => f a
  | Exc e => Exc e
  end.

(** A [for] loop whose body can raise, over the state [S]. *)
Fixpoint for_each {A S : Type} (body : A -> S -> pyres S) (l : list A) (s : S)
  : pyres S :=
  match l with
  | [] => Val s
  | a :: rest => pybind (body a s) (for_each body rest)
  end.

(** A comprehension or generator whose element expression can raise. *)
Fixpoint map_exc {A B : Type} (f : A -> pyres B) (l : list A) : pyres (list B) :=
  match l with
  | [] => Val []
  | a :: rest =>
      pybind (f a) (fun b => pybind (map_exc f rest) (fun bs => Val (b :: bs)))
  end.

(* ===================================================================== *)
(** ** Process monitoring: [procmon_parse] *)
(* ===================================================================== *)

Module Monitor.
Import Regex.

(** The tuple [(group(1), ..., group(5))] built by [parse]. *)
Record row := Row {
  r_pid : string;      (* row[0] *)
  r_ppid : string;     (* row[1] *)
  r_stat : string;     (* row[2] *)
  r_lstart : string;   (* row[3] *)
  r_command : string   (* row[4] *)
}.

Definition row_fields (r : row) : list string :=
  [r_pid r; r_ppid r; r_stat r; r_lstart r; r_command r].

(** [a == b] on rows: field by field. *)
Definition row_eqb (a b : row) : bool :=
  String.eqb (r_pid a) (r_pid b) && String.eqb (r_ppid a) (r_ppid b)
  && String.eqb (r_stat a) (r_stat b) && String.eqb (r_lstart a) (r_lstart b)
  && String.eqb (r_command a) (r_command b).

Definition whitespace : item := Rep 1 Py.isspace.                  (* \s+ *)
Definition number : item := Rep 1 Py.isdigit.                      (* \d+ *)
Definition nonspace : item := Rep 1 (fun c => negb (Py.isspace c)). (* \S+ *)
Definition letters : item := Rep 1 Py.isletter.                    (* [A-Za-z]+ *)
Definition anything : item :=                                      (* .* *)
  Rep 0 (fun c => negb (Ascii.eqb c Py.newline)).

Definition pattern : list item :=
  [ Rep 0 Py.isspace;
    GroupOpen; number; GroupClose;          (* pid *)
    whitespace;
    GroupOpen; number; GroupClose;          (* ppid *)
    whitespace;
    GroupOpen; nonspace; GroupClose;        (* stat *)
    whitespace;
    GroupOpen;
    letters;                                (* day of week *)
    whitespace;
    letters;                                (* name of month *)
    whitespace;
    number;                                 (* day of month *)
    whitespace;
    number; Lit ":"; number; Lit ":"; number; (* hh:mm:ss *)
    whitespace;
    number;                                 (* yyyy *)
    GroupClose;
    whitespace;
    GroupOpen; anything; GroupClose ].      (* command *)

Definition parse (line : string) : option row :=
  match search pattern line with
  | Some [g1; g2; g3; g4; g5] => Some (Row g1 g2 g3 g4 g5)
  | _ => None
  end.

(** [row[4].startswith("(") and row[4].endswith(")")]. *)
Definition defunct (r : row) : bool :=
  Py.startswith (r_command r) "(" && Py.endswith_char (r_command r) ")".

(** The three dictionaries filled by the loop over the rows. *)
Record tables := Tables {
  parent : Dict.t string;            (* pid -> ppid *)
  children : Dict.t (list string);   (* ppid -> [pid] *)
  index : Dict.t row                 (* pid -> row *)
}.

Definition no_tables : tables := Tables [] [] [].

(** [children.get(pid, [])]. *)
Definition children_of (ch : Dict.t (list string)) (p : string) : list string :=
  match Dict.get ch p with Some l => l | None => [] end.

(** One iteration of [for row in rows]. *)
Definition record_row (t : tables) (parsed : option row) : tables :=
  match parsed with
  | None => t
  | Some r =>
      if defunct r then t
      else
        let pid := r_pid r in
        let ppid := r_ppid r in
        Tables (Dict.set (parent t) pid ppid)
               (Dict.set (children t) ppid (children_of (children t) ppid ++ [pid])%list)
               (Dict.set (index t) pid r)
  end.

Definition build_tables (output : string) : tables :=
  fold_left record_row (map parse (Py.split_lines output)) no_tables.

(** The nested function [add].  [depth] is the number of stack frames
    still available: a call with none left raises [RecursionError]. *)
Fixpoint add (t : tables) (depth : nat) (pid : string) (results : Dict.t row)
  : pyres (Dict.t row) :=
  match depth with
  | O => Exc RecursionError
  | S depth' =>
      match Dict.get (index t) pid with
      | None => Exc KeyError
      | Some r =>
          for_each (add t depth') (children_of (children t) pid)
                   (Dict.set results pid r)
      end
  end.

(** [for pid in REGISTERED: if str(pid) in index: add(str(pid))]. *)
Definition add_root (t : tables) (depth : nat) (pid : Z) (results : Dict.t row)
  : pyres (Dict.t row) :=
  if Dict.mem (index t) (Py.str pid) then add t depth (Py.str pid) results
  else Val results.

(** The dictionary [results] of one poll. *)
Definition snapshot (depth : nat) (registered : list Z) (output : string)
  : pyres (Dict.t row) :=
  for_each (add_root (build_tables output) depth) registered [].

(** [results[k]]. *)
Definition subscript (d : Dict.t row) (k : string) : pyres row :=
  match Dict.get d k with
  | Some r => Val r
  | None => Exc KeyError
  end.

(** The generator [diff], as the list it is turned into.  [set_iter l]
    is the order in which Python iterates over a set built from the
    elements [l]. *)
Definition diff (set_iter : list string -> list string)
           (results last : Dict.t row) : pyres (list string) :=
  let currentkeys := Dict.keys results in
  let lastkeys := Dict.keys last in
  pybind
    (map_exc (fun addition =>
                pybind (subscript results addition) (fun r =>
                Val ("+" ++ Py.join " " (row_fields r))))
             (set_iter (filter (fun k => negb (Dict.mem last k)) currentkeys)))
    (fun additions =>
       let removals :=
         map (fun removal => "-" ++ removal)
             (set_iter (filter (fun k => negb (Dict.mem results k)) lastkeys)) in
       pybind
         (map_exc (fun pid =>
                     if Dict.mem last pid
                     then pybind (subscript results pid) (fun r =>
                          pybind (subscript last pid) (fun r' =>
                          if negb (row_eqb r r')
                          then Val ["~" ++ Py.join " " (row_fields r)]
                          else Val []))
                     else Val [])
                  (Dict.keys results))
         (fun edits => Val (additions ++ removals ++ List.concat edits)%list)).

End Monitor.

(* ===================================================================== *)
(** ** [base64.b64encode] *)
(* ===================================================================== *)

Module Base64.

Definition alphabet : string :=
  "ABCDEFGHIJKLMNOPQRSTUVWXYZabcdefghijklmnopqrstuvwxyz0123456789+/".

Definition sextet (n : N) : ascii :=
  match String.get (N.to_nat (n mod 64)) alphabet with
  | Some c => c
  | None => "="%char
  end.

(** Three bytes give four characters; one or two trailing bytes are
    padded with [=]. *)
Fixpoint b64encode (data : list byte) : string :=
  match data with
  | [] => EmptyString
  | [a] =>
      let n := (Byte.to_N a * 65536)%N in
      String (sextet (n / 262144)) (String (sextet (n / 4096)) "==")
  | [a; b] =>
      let n := (Byte.to_N a * 65536 + Byte.to_N b * 256)%N in
      String (sextet (n / 262144)) (String (sextet (n / 4096))
        (String (sextet (n / 64)) "="))
  | a :: b :: c :: rest =>
      let n := (Byte.to_N a * 65536 + Byte.to_N b * 256 + Byte.to_N c)%N in
      String (sextet (n / 262144)) (String (sextet (n / 4096))
        (String (sextet (n / 64)) (String (sextet n) (b64encode rest))))
  end.

End Base64.

(* ===================================================================== *)
(** ** The state of the agent *)
(* ===================================================================== *)

Inductive signal := SIGTERM | SIGKILL.

(** An instance of [class Process], as far as the handlers use it. *)
Record Process := mkProcess {
  proc_pid : Z;                       (* self.pid *)
  return_code : option Z;             (* self.__return_code *)
  signals : list signal;              (* what send_signal delivered *)
  written : list (list byte)          (* what write() wrote to the pty *)
}.

(** The coroutine [autopoll(delay)], between two of its suspension points:
    waiting for [ps] at the top of the outer loop, sleeping in the inner
    loop [while not AUTOPOLL], or returned. *)
Inductive task_state := Polling | Disarmed | Finished.

(** A coroutine [read_forever(reader, channel, callback)] with the closure
    of [make_monitor_process(identifier, proc, islogin)] as its callback. *)
Record pump := mkPump {
  pump_identifier : Z;
  pump_pid : Z;
  pump_islogin : bool;
  pump_channel : Z;
  pump_running : bool
}.

(** The module-level globals, the lines printed on stdout, and the
    coroutines that [asyncio.create_task] has handed to the event loop. *)
Record agent := mkAgent {
  PROCESSES : list (Z * Process);     (* pid -> Process *)
  COMPLETED : list Z;
  QUITTING : bool;
  REGISTERED : list Z;
  LASTPS : Dict.t Monitor.row;
  AUTOPOLL : bool;                    (* 0 or 1 in the source *)
  AUTOPOLL_TASK : option nat;         (* a handle into [tasks] *)
  stdout : list string;               (* one entry per [print] *)
  tasks : list task_state;            (* autopoll coroutines, by creation *)
  pumps : list pump                   (* read_forever coroutines *)
}.

Definition initial : agent :=
  mkAgent [] [] false [] [] false None [] [] [].

Definition with_PROCESSES (v : list (Z * Process)) (s : agent) : agent :=
  mkAgent v (COMPLETED s) (QUITTING s) (REGISTERED s) (LASTPS s) (AUTOPOLL s)
          (AUTOPOLL_TASK s) (stdout s) (tasks s) (pumps s).
Definition with_COMPLETED (v : list Z) (s : agent) : agent :=
  mkAgent (PROCESSES s) v (QUITTING s) (REGISTERED s) (LASTPS s) (AUTOPOLL s)
          (AUTOPOLL_TASK s) (stdout s) (tasks s) (pumps s).
Definition with_QUITTING (v : bool) (s : agent) : agent :=
  mkAgent (PROCESSES s) (COMPLETED s) v (REGISTERED s) (LASTPS s) (AUTOPOLL s)
          (AUTOPOLL_TASK s) (stdout s) (tasks s) (pumps s).
Definition with_REGISTERED (v : list Z) (s : agent) : agent :=
  mkAgent (PROCESSES s) (COMPLETED s) (QUITTING s) v (LASTPS s) (AUTOPOLL s)
          (AUTOPOLL_TASK s) (stdout s) (tasks s) (pumps s).
Definition with_LASTPS (v : Dict.t Monitor.row) (s : agent) : agent :=
  mkAgent (PROCESSES s) (COMPLETED s) (QUITTING s) (REGISTERED s) v (AUTOPOLL s)
          (AUTOPOLL_TASK s) (stdout s) (tasks s) (pumps s).
Definition with_AUTOPOLL (v : bool) (s : agent) : agent :=
  mkAgent (PROCESSES s) (COMPLETED s) (QUITTING s) (REGISTERED s) (LASTPS s) v
          (AUTOPOLL_TASK s) (stdout s) (tasks s) (pumps s).
Definition with_AUTOPOLL_TASK (v : option nat) (s : agent) : agent :=
  mkAgent (PROCESSES s) (COMPLETED s) (QUITTING s) (REGISTERED s) (LASTPS s)
          (AUTOPOLL s) v (stdout s) (tasks s) (pumps s).
Definition with_stdout (v : list string) (s : agent) : agent :=
  mkAgent (PROCESSES s) (COMPLETED s) (QUITTING s) (REGISTERED s) (LASTPS s)
          (AUTOPOLL s) (AUTOPOLL_TASK s) v (tasks s) (pumps s).
Definition with_tasks (v : list task_state) (s : agent) : agent :=
  mkAgent (PROCESSES s) (COMPLETED s) (QUITTING s) (REGISTERED s) (LASTPS s)
          (AUTOPOLL s) (AUTOPOLL_TASK s) (stdout s) v (pumps s).
Definition with_pumps (v : list pump) (s : agent) : agent :=
  mkAgent (PROCESSES s) (COMPLETED s) (QUITTING s) (REGISTERED s) (LASTPS s)
          (AUTOPOLL s) (AUTOPOLL_TASK s) (stdout s) (tasks s) v.

(** What the operating system and the library calls outside the agent
    answer during one step. *)
Record world := mkWorld {
  randint : Z;                        (* random.randint(0, 10**19) *)
  spawned : option Z;                 (* pid of the subprocess created, or
                                         [None] when its creation raises *)
  ps_returncode : Z;                  (* proc.returncode of [ps] *)
  ps_output : string;                 (* its decoded standard output *)
  decoded : option (list byte);       (* base64.b64decode(args[1]), or
                                         [None] when it raises *)
  exit_status : Z -> Z;               (* what proc.wait() returns, by pid *)
  set_iter : list string -> list string; (* iteration order of a set *)
  depth : nat                         (* stack frames left for [add] *)
}.

(** *** The [PROCESSES] dictionary (integer keys) *)

Fixpoint procs_get (d : list (Z * Process)) (k : Z) : option Process :=
  match d with
  | [] => None
  | (k', v) :: rest => if Z.eqb k' k then Some v else procs_get rest k
  end.

Fixpoint procs_set (d : list (Z * Process)) (k : Z) (v : Process)
  : list (Z * Process) :=
  match d with
  | [] => [(k, v)]
  | (k', v') :: rest =>
      if Z.eqb k' k then (k', v) :: rest else (k', v') :: procs_set rest k v
  end.

Fixpoint procs_del (d : list (Z * Process)) (k : Z) : list (Z * Process) :=
  match d with
  | [] => []
  | (k', v') :: rest =>
      if Z.eqb k' k then rest else (k', v') :: procs_del rest k
  end.

Definition procs_mem (d : list (Z * Process)) (k : Z) : bool :=
  match procs_get d k with Some _ => true | None => false end.

(** [pid in REGISTERED] and [REGISTERED.remove(pid)] on a list of ints. *)
Definition list_mem (l : list Z) (k : Z) : bool := existsb (Z.eqb k) l.

Fixpoint list_remove (l : list Z) (k : Z) : list Z :=
  match l with
  | [] => []
  | x :: rest => if Z.eqb x k then rest else x :: list_remove rest k
  end.

(** [l[i] = f(l[i])] on a list, for an index in range. *)
Fixpoint list_adjust {A : Type} (f : A -> A) (l : list A) (i : nat) : list A :=
  match l, i with
  | [], _ => []
  | x :: rest, O => f x :: rest
  | x :: rest, S i' => x :: list_adjust f rest i'
  end.

(** [l[i] = v] on a list, for an index in range. *)
Fixpoint list_update {A : Type} (l : list A) (i : nat) (v : A) : list A :=
  match l, i with
  | [], _ => []
  | _ :: rest, O => v :: rest
  | x :: rest, S i' => x :: list_update rest i' v
  end.

(* ===================================================================== *)
(** ** The monad of the agent's code *)
(* ===================================================================== *)

(** A piece of code returns a value, raises an [Exception], or raises
    [SystemExit] through [sys.exit] (which [except Exception] lets pass). *)
Inductive outcome (A : Type) :=
| Return (a : A)
| Raise (e : exn)
| SystemExit (code : Z).
Arguments Return {A} a.
Arguments Raise {A} e.
Arguments SystemExit {A} code.

Definition M (A : Type) : Type := agent -> outcome A * agent.

Definition ret {A : Type} (a : A) : M A := fun s => (Return a, s).

Definition bind {A B : Type} (m : M A) (f : A -> M B) : M B :=
  fun s =>
    match m s with
    | (Return a, s') => f a s'
    | (Raise e, s') => (Raise e, s')
    | (SystemExit c, s') => (SystemExit c, s')
    end.

Declare Scope agent_scope.
Delimit Scope agent_scope with agent.
Notation "x <- m ;; k" := (bind m (fun x => k))
  (at level 61, m at next level, right associativity) : agent_scope.
Notation "m ;; k" := (bind m (fun _ => k))
  (at level 61, right associativity) : agent_scope.
Local Open Scope agent_scope.

Definition raise {A : Type} (e : exn) : M A := fun s => (Raise e, s).
Definition sys_exit {A : Type} (code : Z) : M A := fun s => (SystemExit code, s).
Definition gets {A : Type} (f : agent -> A) : M A := fun s => (Return (f s), s).
Definition modify (f : agent -> agent) : M unit := fun s => (Return tt, f s).

Definition lift {A : Type} (r : pyres A) : M A :=
  match r with
  | Val a => ret a
  | Exc e => raise e
  end.

(** [try: m  except Exception as e: h e]. *)
Definition try_except {A : Type} (m : M A) (h : exn -> M A) : M A :=
  fun s =>
    match m s with
    | (Raise e, s') => h e s'
    | other => other
    end.

(** A [for] loop over [l] in the monad. *)
Fixpoint for_ {A : Type} (l : list A) (body : A -> M unit) : M unit :=
  match l with
  | [] => ret tt
  | a :: rest => body a ;; for_ rest body
  end.

(* ===================================================================== *)
(** ** Infra: [send], [begin], [end], [fail] *)
(* ===================================================================== *)

(** [send(text)]: the only place that prints on stdout. *)
Definition send (text : string) : M unit :=
  fun s =>
    if QUITTING s then (Return tt, s)
    else (Return tt, with_stdout (stdout s ++ [text]) s).

Definition begin (identifier : Z) : M unit :=
  send ("begin " ++ Py.str identifier).

(** [end(identifier, status)]. *)
Definition end_ (identifier status : Z) : M unit :=
  send ("end " ++ Py.str identifier ++ " " ++ Py.str status).

(** [fail(reason)]: never returns. *)
Definition fail {A : Type} (reason : string) : M A :=
  send ("abort " ++ reason) ;; sys_exit (-1).

(* ===================================================================== *)
(** ** Child output: [print_output], [cleanup], the read pump *)
(* ===================================================================== *)

Definition print_output (identifier pid channel : Z) (islogin : bool)
           (data : list byte) : M unit :=
  (if islogin
   then send ("%output " ++ Py.str identifier ++ " " ++ Py.str pid ++ " -1")
   else send ("%output " ++ Py.str identifier ++ " " ++ Py.str pid ++ " "
              ++ Py.str channel)) ;;
  let encoded := Base64.b64encode data in
  let n := 128%nat in
  for_ (Py.range_step (Py.len encoded) n)
       (fun i => let part := Py.slice encoded i (i + n) in send part) ;;
  send ("%end " ++ Py.str identifier).

(** [Process.cleanup]: [return_code] is unset, so the child is sent
    [SIGKILL] and waited for. *)
Definition Process_cleanup (w : world) (proc : Process) : Process :=
  match return_code proc with
  | None =>
      mkProcess (proc_pid proc) (Some (exit_status w (proc_pid proc)))
                (signals proc ++ [SIGKILL]) (written proc)
  | Some _ => proc
  end.

(** [str(proc.return_code)]. *)
Definition str_return_code (proc : Process) : string :=
  match return_code proc with
  | Some rc => Py.str rc
  | None => "None"
  end.

Definition cleanup (w : world) : M unit :=
  completed <- gets COMPLETED ;;
  modify (with_COMPLETED []) ;;
  for_ completed (fun pid =>
    procs <- gets PROCESSES ;;
    match procs_get procs pid with
    | None => ret tt
    | Some proc =>
        modify (with_PROCESSES (procs_del procs pid)) ;;
        let proc' := Process_cleanup w proc in
        send ("%terminate " ++ Py.str (proc_pid proc') ++ " "
              ++ str_return_code proc')
    end).

(** The closure returned by [make_monitor_process(identifier, proc,
    islogin)], applied to [(channel, value)]; the coroutine it returns for
    an empty [value] is awaited by [read_forever] at once. *)
Definition monitor_process (w : world) (identifier pid : Z) (islogin : bool)
           (channel : Z) (value : list byte) : M unit :=
  if (List.length value =? 0)%nat
  then modify (fun s => with_COMPLETED (COMPLETED s ++ [pid]) s) ;; cleanup w
  else print_output identifier pid channel islogin value.

(** [Process.handle_read(callback)]: one pump on the pty, channel 1
    ([stderr_reader] is always [None]). *)
Definition handle_read (identifier pid : Z) (islogin : bool) : M unit :=
  modify (fun s => with_pumps (pumps s ++ [mkPump identifier pid islogin 1 true]) s).

(* ===================================================================== *)
(** ** Process monitoring in the agent: [register], [deregister], [poll] *)
(* ===================================================================== *)

Definition register (pid : Z) : M unit :=
  registered <- gets REGISTERED ;;
  if list_mem registered pid then ret tt
  else modify (with_REGISTERED (registered ++ [pid])).

Definition deregister (pid : Z) : M unit :=
  registered <- gets REGISTERED ;;
  if list_mem registered pid
  then modify (with_REGISTERED (list_remove registered pid))
  else ret tt.

Definition procmon_parse (w : world) (output : string) : M (list string) :=
  registered <- gets REGISTERED ;;
  results <- lift (Monitor.snapshot (depth w) registered output) ;;
  last <- gets LASTPS ;;
  modify (with_LASTPS results) ;;
  lift (Monitor.diff (set_iter w) results last).

(** [poll()]: [None] when [ps] fails. *)
Definition poll (w : world) : M (option (list string)) :=
  if ps_returncode w =? 0
  then final <- procmon_parse w (ps_output w) ;; ret (Some final)
  else ret None.

(* ===================================================================== *)
(** ** Commands *)
(* ===================================================================== *)

(** A handler's result is what [handle] tests with [if should_quit]:
    [True], or [False] and [None] alike. *)

Definition new_process (pid : Z) : Process := mkProcess pid None [] [].

(** [handle_login] and [handle_run] differ in where [args[0]] is read
    (outside and inside the [try]) and in [islogin].  When the creation of
    the subprocess raises, the exception is logged and [proc] is unbound
    at [proc.pid]. *)
Definition handle_login (w : world) (identifier : Z) (args : list string)
  : M bool :=
  match args with
  | [] => raise IndexError
  | _ :: _ =>
      match spawned w with
      | None => raise UnboundLocalError
      | Some pid =>
          modify (fun s => with_PROCESSES
                             (procs_set (PROCESSES s) pid (new_process pid)) s) ;;
          begin identifier ;;
          send (Py.str pid) ;;
          end_ identifier 0 ;;
          handle_read identifier pid true ;;
          ret false
      end
  end.

Definition handle_run (w : world) (identifier : Z) (args : list string)
  : M bool :=
  match args, spawned w with
  | _ :: _, Some pid =>
      modify (fun s => with_PROCESSES
                         (procs_set (PROCESSES s) pid (new_process pid)) s) ;;
      begin identifier ;;
      send (Py.str pid) ;;
      end_ identifier 0 ;;
      handle_read identifier pid false ;;
      ret false
  | _, _ => raise UnboundLocalError
  end.

Definition handle_reset (identifier : Z) (args : list string) : M bool :=
  modify (with_REGISTERED []) ;;
  modify (with_LASTPS []) ;;
  modify (with_AUTOPOLL false) ;;
  begin identifier ;;
  end_ identifier 0 ;;
  ret false.

Definition handle_register (identifier : Z) (args : list string) : M bool :=
  match args with
  | [] => fail "not enough arguments"
  | a :: _ =>
      match Py.int a with
      | None => fail "exception decoding argument"
      | Some pid =>
          begin identifier ;;
          end_ identifier 0 ;;
          register pid ;;
          ret false
      end
  end.

Definition handle_deregister (identifier : Z) (args : list string) : M bool :=
  match args with
  | [] => fail "not enough arguments"
  | a :: _ =>
      match Py.int a with
      | None => fail "exception decoding argument"
      | Some pid =>
          begin identifier ;;
          end_ identifier 0 ;;
          deregister pid ;;
          ret false
      end
  end.

Definition handle_autopoll (identifier : Z) (args : list string) : M bool :=
  begin identifier ;;
  end_ identifier 0 ;;
  armed <- gets AUTOPOLL ;;
  if armed then ret false
  else
    modify (with_AUTOPOLL true) ;;
    task <- gets AUTOPOLL_TASK ;;
    match task with
    | Some _ => ret false
    | None =>
        (* AUTOPOLL_TASK = asyncio.create_task(autopoll(1.0)) *)
        modify (fun s => with_AUTOPOLL_TASK (Some (List.length (tasks s)))
                           (with_tasks (tasks s ++ [Polling]) s)) ;;
        ret false
    end.

Definition handle_poll (w : world) (identifier : Z) (args : list string)
  : M bool :=
  output <- poll w ;;
  (* log(f'... read {len(output)} bytes of output') *)
  match output with
  | None => raise TypeError
  | Some _ => ret tt
  end ;;
  begin identifier ;;
  match output with
  | Some lines =>
      for_ lines send ;;
      end_ identifier 0
  | None =>
      end_ identifier 1
  end ;;
  ret false.

Definition handle_send (w : world) (identifier : Z) (args : list string)
  : M bool :=
  match args with
  | a0 :: _ :: _ =>
      match Py.int a0, decoded w with
      | Some pid, Some data =>
          procs <- gets PROCESSES ;;
          match procs_get procs pid with
          | None =>
              begin identifier ;;
              end_ identifier 1 ;;
              ret false
          | Some proc =>
              modify (with_PROCESSES
                        (procs_set procs pid
                           (mkProcess (proc_pid proc) (return_code proc)
                                      (signals proc) (written proc ++ [data])))) ;;
              begin identifier ;;
              end_ identifier 0 ;;
              ret false
          end
      | _, _ => fail "exception decoding argument"
      end
  | _ => fail "not enough arguments"
  end.

(** [error] is not defined anywhere in the module: calling it raises
    [NameError]. *)
Definition error (identifier status : Z) : M unit := raise NameError.

Definition handle_kill (identifier : Z) (args : list string) : M bool :=
  match option_map Py.int (hd_error args) with
  | Some (Some pid) =>
      procs <- gets PROCESSES ;;
      match procs_get procs pid with
      | None =>
          begin identifier ;;
          error identifier 1 ;;
          ret false
      | Some proc =>
          modify (with_PROCESSES
                    (procs_set procs pid
                       (mkProcess (proc_pid proc) (return_code proc)
                                  (signals proc ++ [SIGTERM]) (written proc)))) ;;
          begin identifier ;;
          end_ identifier 0 ;;
          ret false
      end
  | _ => fail "pid not an int"
  end.

(** [task.cancel()] followed by [await task]. *)
Definition cancel (t : nat) : M unit :=
  modify (fun s => with_tasks (list_update (tasks s) t Finished) s).

Definition handle_quit (identifier : Z) (args : list string) : M bool :=
  begin identifier ;;
  end_ identifier 0 ;;
  task <- gets AUTOPOLL_TASK ;;
  match task with
  | Some t => cancel t ;; modify (with_AUTOPOLL_TASK None)
  | None => ret tt
  end ;;
  ret true.

(** The dictionary [HANDLERS]. *)
Definition HANDLERS (w : world) (cmd : string)
  : option (Z -> list string -> M bool) :=
  if String.eqb cmd "run" then Some (handle_run w)
  else if String.eqb cmd "login" then Some (handle_login w)
  else if String.eqb cmd "send" then Some (handle_send w)
  else if String.eqb cmd "kill" then Some handle_kill
  else if String.eqb cmd "quit" then Some handle_quit
  else if String.eqb cmd "register" then Some handle_register
  else if String.eqb cmd "deregister" then Some handle_deregister
  else if String.eqb cmd "poll" then Some (handle_poll w)
  else if String.eqb cmd "reset" then Some handle_reset
  else if String.eqb cmd "autopoll" then Some handle_autopoll
  else None.

(** [handle(args)]: dispatch, then [cleanup()].  (The read-pump handles in
    [TASKS] that it awaits afterwards change nothing modelled here.) *)
Definition handle (w : world) (args : list string) : M bool :=
  match args with
  | [] => ret false
  | cmd :: args' =>
      let identifier := randint w in
      match HANDLERS w cmd with
      | None => fail "unrecognized command"
      | Some f =>
          should_quit <-
            try_except
              (q <- f identifier args' ;;
               (if q : bool then modify (with_QUITTING true) else ret tt) ;;
               ret q)
              (fun _ => ret false) ;;
          cleanup w ;;
          ret should_quit
      end
  end.

(* ===================================================================== *)
(** ** Background coroutines and the main loop *)
(* ===================================================================== *)

(** The body of [autopoll(delay)] from the moment [ps] has answered to the
    next suspension point; the result is where the coroutine waits next.
    [len(output)] raises [TypeError] when [poll()] returned [None]. *)
Definition autopoll_body (w : world) : M task_state :=
  output <- poll w ;;
  match output with
  | None => raise TypeError
  | Some [] => ret Polling
  | Some lines =>
      let identifier := randint w in
      send ("%autopoll " ++ Py.str identifier) ;;
      for_ lines send ;;
      send ("%end " ++ Py.str identifier) ;;
      modify (with_AUTOPOLL false) ;;
      ret Disarmed
  end.

(** The coroutine [autopoll] of handle [t] is resumed.  [except Exception]
    logs and lets the coroutine return. *)
Definition autopoll_resume (w : world) (t : nat) : M unit :=
  ts <- gets tasks ;;
  match nth_error ts t with
  | Some Polling =>
      next <- try_except (autopoll_body w) (fun _ => ret Finished) ;;
      modify (fun s => with_tasks (list_update (tasks s) t next) s)
  | Some Disarmed =>
      armed <- gets AUTOPOLL ;;
      if armed
      then modify (fun s => with_tasks (list_update (tasks s) t Polling) s)
      else ret tt
  | Some Finished => ret tt
  | None => ret tt
  end.

(** The coroutine [read_forever] returns. *)
Definition pump_stopped (p : pump) : pump :=
  mkPump (pump_identifier p) (pump_pid p) (pump_islogin p) (pump_channel p) false.

(** The coroutine [read_forever] of pump [k] has read [value]: it calls
    the callback and returns after an empty read. *)
Definition pump_resume (w : world) (k : nat) (value : list byte) : M unit :=
  ps <- gets pumps ;;
  match nth_error ps k with
  | Some p =>
      if pump_running p
      then
        monitor_process w (pump_identifier p) (pump_pid p) (pump_islogin p)
                        (pump_channel p) value ;;
        (if (List.length value =? 0)%nat
         then modify (fun s => with_pumps (list_adjust pump_stopped (pumps s) k) s)
         else ret tt)
      else ret tt
  | None => ret tt
  end.

(** What the event loop runs next: a request assembled by [mainloop] and
    passed to [handle], a read pump, or an autopoll coroutine. *)
Inductive event :=
| Request (args : list string)
| PumpRead (k : nat) (value : list byte)
| AutopollResume (t : nat).

(** The operating-system process of the agent: the globals and, once it
    has terminated, its exit code. *)
Record machine := mkMachine {
  globals : agent;
  exited : option Z
}.

Definition boot : machine := mkMachine initial None.

(** One event on a live agent.  [mainloop] returns 0 when [handle] returns
    a true value; [SystemExit] ends the process with its code. *)
Definition live_step (s : agent) (e : event) (w : world) : machine :=
  match e with
  | Request args =>
      match handle w args s with
      | (Return true, s') => mkMachine s' (Some 0)
      | (Return false, s') => mkMachine s' None
      | (Raise _, s') => mkMachine s' (Some 1)
      | (SystemExit c, s') => mkMachine s' (Some c)
      end
  | PumpRead k value =>
      match pump_resume w k value s with
      | (SystemExit c, s') => mkMachine s' (Some c)
      | (_, s') => mkMachine s' None
      end
  | AutopollResume t =>
      match autopoll_resume w t s with
      | (SystemExit c, s') => mkMachine s' (Some c)
      | (_, s') => mkMachine s' None
      end
  end.

Definition step (m : machine) (ew : event * world) : machine :=
  match exited m with
  | Some _ => m
  | None => live_step (globals m) (fst ew) (snd ew)
  end.

Definition run (m : machine) (trace : list (event * world)) : machine :=
  fold_left step trace m.

(** [mainloop]: the lines of stdin are gathered into [args] until an
    empty line, which passes them to [handle].  A line that follows an
    argument ending in a backslash replaces the backslash.  [input] is
    what [read_line] gives at each turn ([None] when it raises, else the
    line without its newline), with the world met by the [handle] of that
    turn; the result is the value [mainloop] returns, or [None] while it
    is waiting for the next line.  The read pumps and the autopoll
    coroutine that run between two reads are the events of [run]. *)
Definition backslash : ascii := "092"%char.

Definition append_line (args : list string) (line : string) : list string :=
  if (0 <? List.length args)%nat
     && Py.endswith_char (last args EmptyString) backslash
  then
    let previous := last args EmptyString in
    (removelast args
     ++ [(Py.slice previous 0 (Py.len previous - 1) ++ line)%string])%list
  else (args ++ [line])%list.

Fixpoint mainloop (input : list (option string * world)) (args : list string)
  : M (option Z) :=
  match input with
  | [] => ret None
  | (None, _) :: _ => fail "exception during read_line"
  | (Some line, w) :: rest =>
      if (0 <? Py.len line)%nat
      then mainloop rest (append_line args line)
      else
        quit <- handle w args ;;
        if quit : bool then ret (Some 0) else mainloop rest []
  end.

(* ===================================================================== *)
(** ** Vocabulary of the specification *)
(* ===================================================================== *)

Import Monitor.

(** *** Snapshots and diffs *)

(** A dictionary holds every key once. *)
Definition is_dict {V : Type} (d : Dict.t V) : Prop := NoDup (Dict.keys d).

(** [pid] is present in the snapshot [d]. *)
Definition in_snapshot (d : Dict.t row) (pid : string) : Prop :=
  Dict.get d pid <> None.

(** The line [<marker>pid ppid stat lstart command] for the row that the
    snapshot [d] holds for [pid]. *)
Definition row_line (marker : string) (d : Dict.t row) (pid : string) : string :=
  match Dict.get d pid with
  | Some r => marker ++ Py.join " " (row_fields r)
  | None => marker
  end.

(** [lines] is: one line per pid that is in [current] and not in
    [previous], then one per pid that is in [previous] and not in
    [current], then one per pid that is in both with different rows; each
    line starts with the marker of its kind. *)
Definition diff_shape (plus minus tilde : string)
           (current previous : Dict.t row) (lines : list string) : Prop :=
  exists added removed edited : list string,
    lines = (map (row_line plus current) added
             ++ map (fun pid => (minus ++ pid)%string) removed
             ++ map (row_line tilde current) edited)%list
    /\ NoDup added
    /\ (forall pid, In pid added <->
                    in_snapshot current pid /\ ~ in_snapshot previous pid)
    /\ NoDup removed
    /\ (forall pid, In pid removed <->
                    in_snapshot previous pid /\ ~ in_snapshot current pid)
    /\ NoDup edited
    /\ (forall pid, In pid edited <->
                    exists r r', Dict.get current pid = Some r
                                 /\ Dict.get previous pid = Some r'
                                 /\ r <> r').

(** *** Rows of a [ps] output *)

(** The rows of the lines that match the regular expression and whose
    command is not wrapped in parentheses, in the order of the lines. *)
Definition valid_rows (output : string) : list row :=
  flat_map (fun line => match parse line with
                        | Some r => if defunct r then [] else [r]
                        | None => []
                        end)
           (Py.split_lines output).

(** The tables that the loop of [procmon_parse] builds from [rows]. *)
Definition tables_of (rows : list row) : tables :=
  fold_left record_row (map Some rows) no_tables.

(** [r] is the last of [rows] with the pid [pid]. *)
Definition last_with_pid (rows : list row) (pid : string) (r : row) : Prop :=
  exists before after,
    rows = (before ++ r :: after)%list /\ r_pid r = pid
    /\ Forall (fun r' => r_pid r' <> pid) after.

(** [pid] is [root] or a transitive child of it, where a row makes its
    pid a child of its ppid. *)
Inductive descendant (rows : list row) (root : string) : string -> Prop :=
| descendant_self : descendant rows root root
| descendant_child : forall r pid,
    descendant rows root pid -> In r rows -> r_ppid r = pid ->
    descendant rows root (r_pid r).

(** [pid] is a registered pid that has a row, or descends from one. *)
Definition tracked (rows : list row) (registered : list Z) (pid : string) : Prop :=
  exists root, In root registered
               /\ (exists r, In r rows /\ r_pid r = Py.str root)
               /\ descendant rows (Py.str root) pid.

(** *** Lines on stdout *)

(** [text] is not the header of an autopoll frame. *)
Definition not_autopoll_header (text : string) : bool :=
  negb (String.prefix "%autopoll " text).

(** [c] is not the percent sign. *)
Definition not_percent (c : ascii) : bool := negb (Ascii.eqb c "%").

(** The payload of an [%output] frame: [parts] put end to end are
    [encoded]; every part but the last has exactly 128 characters and the
    last has between 1 and 128. *)
Definition wrapped_at_128 (encoded : string) (parts : list string) : Prop :=
  String.concat "" parts = encoded
  /\ Forall (fun part => String.length part = 128%nat) (removelast parts)
  /\ (1 <= String.length (last parts "") <= 128)%nat.

(** *** Autopoll tasks *)

(** The autopoll coroutine of handle [t] exists: it was created and has
    not returned. *)
Definition live_task (s : agent) (t : nat) : Prop :=
  exists st, nth_error (tasks s) t = Some st /\ st <> Finished.

(** Every autopoll coroutine that exists is the one [AUTOPOLL_TASK] holds. *)
Definition one_task (s : agent) : Prop :=
  forall t, live_task s t -> AUTOPOLL_TASK s = Some t.

(** Every autopoll coroutine ever created has returned. *)
Definition all_finished (s : agent) : Prop :=
  Forall (fun st => st = Finished) (tasks s).

(** The lines printed since stdout was [before] hold no autopoll header. *)
Definition no_autopoll_since (before : list string) (s : agent) : Prop :=
  exists added, stdout s = (before ++ added)%list
                /\ forallb not_autopoll_header added = true.

(** *** Hoare triples over the monad *)

Definition hoare {A : Type} (P : agent -> Prop) (m : M A)
           (Q : outcome A -> agent -> Prop) : Prop :=
  forall s, P s -> Q (fst (m s)) (snd (m s)).

(** [m] keeps [I], whatever its outcome. *)
Definition preserves {A : Type} (I : agent -> Prop) (m : M A) : Prop :=
  hoare I m (fun _ => I).

(** [I] is kept by every update of the globals that the handlers make
    outside the autopoll task, and by [send] of a line that is not an
    autopoll header. *)
Record framed (I : agent -> Prop) : Prop := mkFramed {
  fr_send : forall text, not_autopoll_header text = true ->
                         preserves I (send text);
  fr_PROCESSES : forall v s, I s -> I (with_PROCESSES v s);
  fr_COMPLETED : forall v s, I s -> I (with_COMPLETED v s);
  fr_REGISTERED : forall v s, I s -> I (with_REGISTERED v s);
  fr_LASTPS : forall v s, I s -> I (with_LASTPS v s);
  fr_AUTOPOLL : forall v s, I s -> I (with_AUTOPOLL v s);
  fr_QUITTING : forall s, I s -> I (with_QUITTING true s);
  fr_new_pump : forall identifier pid islogin s,
      I s -> I (with_pumps (pumps s ++ [mkPump identifier pid islogin 1 true]) s);
  fr_pump_stop : forall k s,
      I s -> I (with_pumps (list_adjust pump_stopped (pumps s) k) s)
}.

(** [I] is moreover kept by [send] of any line. *)
Record framed_any (I : agent -> Prop) : Prop := mkFramedAny {
  any_framed : framed I;
  any_send : forall text, preserves I (send text)
}.

(** [I] is moreover kept by every update of the autopoll task list and
    handle. *)
Record framed_bg (I : agent -> Prop) : Prop := mkFramedBg {
  bg_any : framed_any I;
  bg_tasks : forall v s, I s -> I (with_tasks v s);
  bg_AUTOPOLL_TASK : forall v s, I s -> I (with_AUTOPOLL_TASK v s)
}.

(** The autopoll task list and handle are [ts] and [task]. *)
Definition same_tasks (ts : list task_state) (task : option nat) (s : agent)
  : Prop :=
  tasks s = ts /\ AUTOPOLL_TASK s = task.

(** The invariant of a machine: [J] always, and [I] while it runs. *)
Definition machine_inv (I J : agent -> Prop) (m : machine) : Prop :=
  J (globals m) /\ (exited m = None -> I (globals m)).

(** [QUITTING] is set and stdout is [out]. *)
Definition quiet (out : list string) (s : agent) : Prop :=
  QUITTING s = true /\ stdout s = out.

(** Every read pump reads channel 1. *)
Definition pumps_on_channel_1 (s : agent) : Prop :=
  Forall (fun p => pump_channel p = 1) (pumps s).

(** The autopoll task has returned for good: every coroutine created is
    finished, and the handle is still set. *)
Definition autopoll_dead (before : list string) (s : agent) : Prop :=
  all_finished s /\ no_autopoll_since before s /\ AUTOPOLL_TASK s <> None.

Definition autopoll_dead_quit (before : list string) (s : agent) : Prop :=
  all_finished s /\ no_autopoll_since before s.

(** *** Further invariants *)

(** No pid is registered twice. *)
Definition registered_unique (s : agent) : Prop := NoDup (REGISTERED s).

(** A process table holds every key once, under the pid of its process,
    and no process of it has been waited for. *)
Definition well_keyed (procs : list (Z * Process)) : Prop :=
  NoDup (map fst procs)
  /\ Forall (fun kv => proc_pid (snd kv) = fst kv
                       /\ return_code (snd kv) = None) procs.

Definition well_keyed_processes (s : agent) : Prop := well_keyed (PROCESSES s).

(** [COMPLETED] is empty. *)
Definition completed_empty (s : agent) : Prop := COMPLETED s = [].

(** *** Requests on stdin *)

(** The lines that carry one argument broken into [pieces] and [final]:
    every piece is followed by a backslash and a newline. *)
Definition continued (pieces : list string) (final : string) : list string :=
  (map (fun piece => (piece ++ String backslash EmptyString)%string) pieces
   ++ [final])%list.

(** The argument carried by [continued pieces final]. *)
Definition joined (pieces : list string) (final : string) : string :=
  (String.concat "" pieces ++ final)%string.

(** [a] can end an argument: it is not empty and ends in no backslash. *)
Definition unbroken (a : string) : Prop :=
  a <> EmptyString /\ Py.endswith_char a backslash = false.

(** [args] does not await the rest of a broken line. *)
Definition complete (args : list string) : Prop :=
  (0 <? List.length args)%nat
  && Py.endswith_char (last args EmptyString) backslash = false.

(** *** Exit codes *)

(** Whenever [m] ends the process, the exit code satisfies [ok]. *)
Definition exits_with {A : Type} (ok : Z -> Prop) (m : M A) : Prop :=
  forall s c, fst (m s) = SystemExit c -> ok c.

(** No exception leaves [m]. *)
Definition catches_all {A : Type} (m : M A) : Prop :=
  forall s e, fst (m s) <> Raise e.

(** [m] never returns [True]. *)
Definition never_true (m : M bool) : Prop :=
  forall s, fst (m s) <> Return true.

(** The agent has quit: [QUITTING] is set, [AUTOPOLL_TASK] is [None] and
    no autopoll coroutine is left. *)
Definition has_quit (s : agent) : Prop :=
  QUITTING s = true /\ AUTOPOLL_TASK s = None /\ all_finished s.

(** *** What the regular expression accepts *)

(** [accepts items s cur caps out]: the matcher can go through [items] on
    the text [s] and end with the groups [out]; a repetition takes a run
    [x] of its class, and when the next character is of the class too,
    the rest of the pattern fails after it. *)
Fixpoint accepts (items : list Regex.item) (s cur : list ascii)
         (caps out : list string) : Prop :=
  match items with
  | [] => out = caps
  | Regex.Lit c :: rest =>
      exists s', s = c :: s' /\ accepts rest s' (cur ++ [c]) caps out
  | Regex.GroupOpen :: rest => accepts rest s [] caps out
  | Regex.GroupClose :: rest =>
      accepts rest s [] (caps ++ [string_of_list_ascii cur]) out
  | Regex.Rep lo cls :: rest =>
      exists x y : list ascii,
        s = (x ++ y)%list
        /\ (lo <= List.length x)%nat
        /\ forallb cls x = true
        /\ (forall c y', y = c :: y' -> cls c = true ->
                         Regex.exec rest y' (cur ++ x ++ [c]) caps = None)
        /\ accepts rest y (cur ++ x) caps out
  end.

(** [s] is a non-empty run of characters of the class [cls]. *)
Definition run_of (cls : ascii -> bool) (s : string) : Prop :=
  s <> EmptyString /\ forallb cls (list_ascii_of_string s) = true.

(** [s] is a run, maybe empty, of characters of the class [cls]. *)
Definition all_of (cls : ascii -> bool) (s : string) : Prop :=
  forallb cls (list_ascii_of_string s) = true.

(** The text of the fourth group: day of week, month, day of month,
    [hh:mm:ss] and year, with whitespace between them. *)
Definition timestamp (t : string) : Prop :=
  exists dow g1 mon g2 day g3 hh mm ss g4 year : string,
    t = (dow ++ g1 ++ mon ++ g2 ++ day ++ g3
         ++ hh ++ ":" ++ mm ++ ":" ++ ss ++ g4 ++ year)%string
    /\ run_of Py.isletter dow /\ run_of Py.isspace g1
    /\ run_of Py.isletter mon /\ run_of Py.isspace g2
    /\ run_of Py.isdigit day /\ run_of Py.isspace g3
    /\ run_of Py.isdigit hh /\ run_of Py.isdigit mm /\ run_of Py.isdigit ss
    /\ run_of Py.isspace g4 /\ run_of Py.isdigit year.

(** The text of the fifth group: no newline, and no whitespace first. *)
Definition command_text (c : string) : Prop :=
  all_of (fun x => negb (Ascii.eqb x Py.newline)) c
  /\ match c with
     | EmptyString => True
     | String x _ => Py.isspace x = false
     end.

(** The shape of a row that [parse] returns. *)
Definition well_formed (r : row) : Prop :=
  run_of Py.isdigit (r_pid r)
  /\ run_of Py.isdigit (r_ppid r)
  /\ run_of (fun c => negb (Py.isspace c)) (r_stat r)
  /\ timestamp (r_lstart r)
  /\ command_text (r_command r).

(** The text [y] does not go on with a character of the class [cls]. *)
Definition stops (cls : ascii -> bool) (y : list ascii) : Prop :=
  match y with
  | [] => True
  | c :: _ => cls c = false
  end.

(** *** Answers to requests *)

(** [text] cannot be taken for a line that opens or closes an answer, nor
    for a line of a frame that the agent sends on its own. *)
Definition payload_line (text : string) : bool :=
  negb (String.prefix "begin " text) && negb (String.prefix "end " text)
  && negb (String.prefix "abort " text) && negb (String.prefix "%" text).

(** What a handler called with [identifier] for the command [cmd] has
    printed, with its outcome: nothing, and an exception; one [abort]
    line, and the exit code -1; [begin], payload lines and [end] with the
    status 0 or 1; or, for [kill], an unclosed [begin] and an exception. *)
Definition answer (identifier : Z) (cmd : string) (r : outcome bool)
           (added : list string) : Prop :=
  (added = [] /\ exists e, r = Raise e)
  \/ (exists reason, added = [("abort " ++ reason)%string]
                     /\ r = SystemExit (-1))
  \/ (exists payload status q,
        added = (("begin " ++ Py.str identifier)%string :: payload
                 ++ [("end " ++ Py.str identifier ++ " " ++ Py.str status)%string])%list
        /\ (status = 0 \/ status = 1)
        /\ forallb payload_line payload = true
        /\ r = Return q)
  \/ (added = [("begin " ++ Py.str identifier)%string]
      /\ cmd = "kill" /\ r = Raise NameError).

(** The same for [handle], where the exception of a handler is caught. *)
Definition handled (identifier : Z) (cmd : string) (r : outcome bool)
           (added : list string) : Prop :=
  (added = [] /\ r = Return false)
  \/ (exists reason, added = [("abort " ++ reason)%string]
                     /\ r = SystemExit (-1))
  \/ (exists payload status q,
        added = (("begin " ++ Py.str identifier)%string :: payload
                 ++ [("end " ++ Py.str identifier ++ " " ++ Py.str status)%string])%list
        /\ (status = 0 \/ status = 1)
        /\ forallb payload_line payload = true
        /\ r = Return q)
  \/ (added = [("begin " ++ Py.str identifier)%string]
      /\ cmd = "kill" /\ r = Return false).

(** What a handler leaves: the lines [added] on stdout, [QUITTING] and
    [COMPLETED] as they were. *)
Definition leaves (s : agent) (added : list string) (s' : agent) : Prop :=
  stdout s' = (stdout s ++ added)%list
  /\ QUITTING s' = QUITTING s
  /\ COMPLETED s' = COMPLETED s.

(** *** Autopoll frames and requests *)

(** The number of autopoll headers among the lines [out]. *)
Definition autopoll_headers (out : list string) : nat :=
  List.length (filter (fun text => negb (not_autopoll_header text)) out).

(** [ew] is an [autopoll] request. *)
Definition is_autopoll_request (ew : event * world) : bool :=
  match fst ew with
  | Request (cmd :: _) => String.eqb cmd "autopoll"
  | _ => false
  end.

(** The number of [autopoll] requests in [trace]. *)
Definition autopoll_requests (trace : list (event * world)) : nat :=
  List.length (filter is_autopoll_request trace).

(** Whether the autopoll task may still print a frame without a new
    [autopoll] request: it is polling, or it waits and [AUTOPOLL] is
    set. *)
Definition pending (s : agent) : nat :=
  match AUTOPOLL_TASK s with
  | Some t =>
      match nth_error (tasks s) t with
      | Some Polling => 1
      | Some Disarmed => if AUTOPOLL s then 1 else 0
      | _ => 0
      end
  | None => 0
  end.

(** stdout holds [h] autopoll headers. *)
Definition headers_are (h : nat) (s : agent) : Prop :=
  autopoll_headers (stdout s) = h.

(** At most [k] frames are pending. *)
Definition pending_le (k : nat) (s : agent) : Prop := (pending s <= k)%nat.

(** *** The main loop and the machine *)

(** The lines that carry the request [args]: one argument a line, then
    an empty line; [w] is the world met by its [handle]. *)
Definition request_lines (rw : list string * world)
  : list (option string * world) :=
  (map (fun a => (Some a, snd rw)) (fst rw) ++ [(Some EmptyString, snd rw)])%list.

(** [mainloop] has come to the result [r] and the machine to [m]: the
    same globals; [mainloop] waits for a line and the machine runs, or
    [mainloop] has returned or exited and the machine has ended with that
    code. *)
Definition agrees (r : outcome (option Z) * agent) (m : machine) : Prop :=
  snd r = globals m
  /\ match fst r with
     | Return None => exited m = None
     | Return (Some c) => exited m = Some c
     | SystemExit c => exited m = Some c
     | Raise _ => False
     end.

(** *** Data sent to a child *)

(** The bytes that a [send] request met by the world [w] writes. *)
Definition sent_data (pw : string * world) : list byte :=
  match decoded (snd pw) with
  | Some data => data
  | None => []
  end.

(** The [send] request for [pid] with the payload [fst pw]. *)
Definition send_request (pid : Z) (pw : string * world) : event * world :=
  (Request ["send"; Py.str pid; fst pw], snd pw).

(** [line] is: [indent], the pid, the ppid, the stat, the lstart and the
    command of [r] separated by the gaps [g1] ... [g4], and [tail]. *)
Definition laid_out (line : string) (r : row)
           (indent g1 g2 g3 g4 tail : string) : Prop :=
  line = (indent ++ r_pid r ++ g1 ++ r_ppid r ++ g2 ++ r_stat r ++ g3
          ++ r_lstart r ++ g4 ++ r_command r ++ tail)%string
  /\ all_of Py.isspace indent
  /\ run_of Py.isspace g1 /\ run_of Py.isspace g2
  /\ run_of Py.isspace g3 /\ run_of Py.isspace g4
  /\ match tail with
     | EmptyString => True
     | String c _ => c = Py.newline
     end.

(* ===================================================================== *)
(** * Properties *)
(* ===================================================================== *)

(** ** Record updates *)

Lemma with_stdout_same : forall s, with_stdout (stdout s) s = s.
Proof. now destruct s. Qed.

Lemma with_COMPLETED_same : forall s, with_COMPLETED (COMPLETED s) s = s.
Proof. now destruct s. Qed.

Lemma with_REGISTERED_twice :
  forall a b s, with_REGISTERED a (with_REGISTERED b s) = with_REGISTERED a s.
Proof. now destruct s. Qed.

Lemma with_REGISTERED_same : forall s, with_REGISTERED (REGISTERED s) s = s.
Proof. now destruct s. Qed.

(** ** The registered list *)

Lemma list_mem_app : forall l1 l2 k,
  list_mem (l1 ++ l2) k = list_mem l1 k || list_mem l2 k.
Proof. intros; unfold list_mem; apply existsb_app. Qed.

Lemma list_mem_self : forall k, list_mem [k] k = true.
Proof. intros; unfold list_mem; simpl. now rewrite Z.eqb_refl. Qed.

Lemma list_remove_last : forall l k,
  list_mem l k = false -> list_remove (l ++ [k]) k = l.
Proof.
  induction l as [|x l IH]; intros k H; simpl.
  - now rewrite Z.eqb_refl.
  - unfold list_mem in H; simpl in H.
    apply orb_false_iff in H as [Hx Hl].
    rewrite Z.eqb_sym, Hx. f_equal. now apply IH.
Qed.

(** C4, as amended: for a pid that is not registered yet, [register]
    followed by [deregister] gives back the registered list it started
    from (and changes nothing else). *)
Theorem register_deregister_fresh : forall (p : Z) (s : agent),
  list_mem (REGISTERED s) p = false ->
  (register p ;; deregister p) s = (Return tt, s).
Proof.
  intros p s H.
  unfold register, deregister, bind, gets, modify, ret; simpl.
  rewrite H; simpl.
  rewrite list_mem_app, list_mem_self, orb_true_r.
  rewrite list_remove_last by exact H.
  now rewrite with_REGISTERED_twice, with_REGISTERED_same.
Qed.

Lemma register_deregister_fresh_witness :
  (register 7 ;; deregister 7) (with_REGISTERED [5] initial)
  = (Return tt, with_REGISTERED [5] initial).
Proof. apply register_deregister_fresh. reflexivity. Defined.

(** C4 as stated fails: on a pid that is already registered, [register]
    does nothing and [deregister] removes it. *)
Lemma register_deregister_registered :
  REGISTERED (snd ((register 5 ;; deregister 5) (with_REGISTERED [5] initial)))
  <> REGISTERED (with_REGISTERED [5] initial).
Proof. simpl. discriminate. Qed.

(** ** Kill and poll on their failure paths *)

Lemma for_returns : forall (A : Type) (l : list A) (body : A -> M unit),
  (forall a s, fst (body a s) = Return tt) ->
  forall s, fst (for_ l body s) = Return tt.
Proof.
  induction l as [|a l IH]; intros body Hb s; simpl; [reflexivity|].
  unfold bind. pose proof (Hb a s) as Ha.
  destruct (body a s) as [[u|e|c] s1]; simpl in Ha; try discriminate.
  cbv beta. now apply IH.
Qed.

Lemma send_returns : forall text s, fst (send text s) = Return tt.
Proof. intros. unfold send. destruct (QUITTING s); reflexivity. Qed.

Lemma cleanup_returns : forall w s, fst (cleanup w s) = Return tt.
Proof.
  intros. unfold cleanup, bind, gets, modify. simpl.
  apply for_returns. intros pid s1.
  destruct (procs_get (PROCESSES s1) pid); simpl; [|reflexivity].
  apply send_returns.
Qed.


(** C1: a kill request whose pid parses and is not in [PROCESSES] prints
    [begin <id>] and then raises [NameError] at the call of the undefined
    [error]: no [end <id> 1] is printed.  No signal is delivered and
    [PROCESSES] stays as it was (only stdout changes), and the agent goes
    on running: [handle] catches the exception and the main loop does not
    exit. *)
Theorem kill_unknown_pid_prints_begin_only :
  forall (w : world) (identifier pid : Z) (a : string) (rest : list string)
         (s : agent),
  Py.int a = Some pid ->
  procs_mem (PROCESSES s) pid = false ->
  QUITTING s = false ->
  handle_kill identifier (a :: rest) s
  = (Raise NameError,
     with_stdout (stdout s ++ ["begin " ++ Py.str identifier]) s)
  /\ exited (live_step s (Request ("kill" :: a :: rest)) w) = None.
Proof.
  intros w identifier pid a rest s Hint Hmem Hq.
  unfold procs_mem in Hmem.
  assert (E : forall i,
            handle_kill i (a :: rest) s
            = (Raise NameError, with_stdout (stdout s ++ ["begin " ++ Py.str i]) s)).
  { intros i. unfold handle_kill; simpl. rewrite Hint.
    unfold bind, gets; simpl.
    destruct (procs_get (PROCESSES s) pid); [discriminate|].
    unfold begin, send, error, raise; simpl. now rewrite Hq. }
  split; [apply E|].
  unfold live_step, handle.
  change (HANDLERS w "kill") with (Some handle_kill).
  unfold bind, try_except. rewrite E. unfold ret.
  match goal with
  | |- context [cleanup w ?s1] =>
      pose proof (cleanup_returns w s1) as Hc;
      destruct (cleanup w s1) as [[u|e|c] s2]; simpl in Hc; try discriminate
  end.
  reflexivity.
Qed.

Lemma kill_unknown_pid_witness :
  handle_kill 77 ["5"] initial
  = (Raise NameError, with_stdout ["begin 77"] initial)
  /\ exited (live_step initial (Request ["kill"; "5"])
                       (mkWorld 77 None 0 "" None (fun _ => 0) (fun l => l) 100))
     = None.
Proof.
  apply (@kill_unknown_pid_prints_begin_only
           (mkWorld 77 None 0 "" None (fun _ => 0) (fun l => l) 100)
           77 5 "5" [] initial);
    reflexivity.
Defined.

(** C2: when [ps] exits with a non-zero status, [handle_poll] raises
    [TypeError] at [len(output)] before [begin]: nothing is printed.  The
    state, [LASTPS] included, is unchanged. *)
Theorem poll_ps_failure_prints_nothing :
  forall (w : world) (identifier : Z) (args : list string) (s : agent),
  ps_returncode w <> 0 ->
  handle_poll w identifier args s = (Raise TypeError, s).
Proof.
  intros w identifier args s H.
  unfold handle_poll, poll, bind.
  apply Z.eqb_neq in H. now rewrite H.
Qed.

Lemma poll_ps_failure_witness :
  handle_poll (mkWorld 77 None 1 "" None (fun _ => 0) (fun l => l) 100)
              77 [] initial
  = (Raise TypeError, initial).
Proof. apply poll_ps_failure_prints_nothing. simpl. discriminate. Defined.

(** C3: a whole run in which a [begin] is never closed.  The agent
    handles [kill 5] with no process 5, then [quit], and exits with status
    0: [begin 77] was printed and no [end 77 ...] line ever is. *)
Theorem begin_without_end :
  let w1 := mkWorld 77 None 0 "" None (fun _ => 0) (fun l => l) 100 in
  let w2 := mkWorld 78 None 0 "" None (fun _ => 0) (fun l => l) 100 in
  let m := run boot [(Request ["kill"; "5"], w1); (Request ["quit"], w2)] in
  exited m = Some 0
  /\ stdout (globals m) = ["begin 77"; "begin 78"; "end 78 0"]
  /\ forall status, ~ In ("end 77 " ++ status) (stdout (globals m)).
Proof.
  cbv zeta. split; [reflexivity|]. split; [reflexivity|].
  intros status H. simpl in H.
  destruct H as [H|[H|[H|[]]]]; discriminate H.
Qed.

(* ===================================================================== *)
(** ** Rules for Hoare triples *)
(* ===================================================================== *)

Lemma hoare_bind : forall (A B : Type) (P : agent -> Prop) (m : M A)
    (f : A -> M B) (Q1 : outcome A -> agent -> Prop)
    (Q : outcome B -> agent -> Prop),
  hoare P m Q1 ->
  (forall a, hoare (Q1 (Return a)) (f a) Q) ->
  (forall e s, Q1 (Raise e) s -> Q (Raise e) s) ->
  (forall c s, Q1 (SystemExit c) s -> Q (SystemExit c) s) ->
  hoare P (bind m f) Q.
Proof.
  intros A B P m f Q1 Q Hm Hf He Hc s HP.
  specialize (Hm s HP). unfold bind.
  destruct (m s) as [[a|e|c] s']; simpl in *; auto.
  now apply Hf.
Qed.

Lemma hoare_weaken : forall (A : Type) (P P' : agent -> Prop) (m : M A)
    (Q Q' : outcome A -> agent -> Prop),
  hoare P' m Q' ->
  (forall s, P s -> P' s) ->
  (forall r s, Q' r s -> Q r s) ->
  hoare P m Q.
Proof. intros A P P' m Q Q' H HP HQ s Hs. apply HQ, H, HP, Hs. Qed.

Lemma preserves_bind : forall (A B : Type) (I : agent -> Prop) (m : M A)
    (f : A -> M B),
  preserves I m -> (forall a, preserves I (f a)) -> preserves I (bind m f).
Proof.
  intros A B I m f Hm Hf.
  apply hoare_bind with (Q1 := fun _ => I); auto.
Qed.

Lemma preserves_ret : forall (A : Type) (I : agent -> Prop) (a : A),
  preserves I (ret a).
Proof. intros A I a s H; exact H. Qed.

Lemma preserves_raise : forall (A : Type) (I : agent -> Prop) (e : exn),
  preserves I (@raise A e).
Proof. intros A I e s H; exact H. Qed.

Lemma preserves_sys_exit : forall (A : Type) (I : agent -> Prop) (c : Z),
  preserves I (@sys_exit A c).
Proof. intros A I c s H; exact H. Qed.

Lemma preserves_gets : forall (A : Type) (I : agent -> Prop) (f : agent -> A),
  preserves I (gets f).
Proof. intros A I f s H; exact H. Qed.

Lemma preserves_lift : forall (A : Type) (I : agent -> Prop) (r : pyres A),
  preserves I (lift r).
Proof. intros A I [a|e] s H; exact H. Qed.

Lemma preserves_modify : forall (I : agent -> Prop) (f : agent -> agent),
  (forall s, I s -> I (f s)) -> preserves I (modify f).
Proof. intros I f Hf s H. now apply Hf. Qed.

Lemma preserves_try_except : forall (A : Type) (I : agent -> Prop) (m : M A)
    (h : exn -> M A),
  preserves I m -> (forall e, preserves I (h e)) ->
  preserves I (try_except m h).
Proof.
  intros A I m h Hm Hh s H. specialize (Hm s H). unfold try_except.
  destruct (m s) as [[a|e|c] s']; simpl in *; auto.
  now apply Hh.
Qed.

Lemma preserves_for : forall (A : Type) (I : agent -> Prop) (l : list A)
    (body : A -> M unit),
  (forall a, In a l -> preserves I (body a)) -> preserves I (for_ l body).
Proof.
  induction l as [|a l IH]; intros body Hb; simpl.
  - apply preserves_ret.
  - apply preserves_bind.
    + apply Hb; now left.
    + intros _. apply IH. intros b Hin. apply Hb; now right.
Qed.

Lemma preserves_and : forall (A : Type) (I1 I2 : agent -> Prop) (m : M A),
  preserves I1 m -> preserves I2 m ->
  preserves (fun s => I1 s /\ I2 s) m.
Proof. intros A I1 I2 m H1 H2 s [Ha Hb]. split; [now apply H1 | now apply H2]. Qed.

(* ===================================================================== *)
(** ** Lines that are not autopoll headers *)
(* ===================================================================== *)

Lemma str_not_autopoll_header : forall z, not_autopoll_header (Py.str z) = true.
Proof.
  intros [|p|p]; unfold Py.str, Z.to_int; simpl; try reflexivity;
    destruct (Pos.to_uint p); reflexivity.
Qed.

Lemma get_in_string : forall (s : string) (k : nat) (c : ascii),
  String.get k s = Some c -> In c (list_ascii_of_string s).
Proof.
  induction s as [|a s IH]; intros k c H; simpl in *.
  - discriminate.
  - destruct k as [|k].
    + injection H as ->. now left.
    + right. eapply IH, H.
Qed.

Lemma sextet_not_percent : forall n, not_percent (Base64.sextet n) = true.
Proof.
  intros n. unfold Base64.sextet.
  destruct (String.get (N.to_nat (n mod 64)) Base64.alphabet) as [c|] eqn:E;
    [|reflexivity].
  apply get_in_string in E.
  assert (H : forallb not_percent (list_ascii_of_string Base64.alphabet) = true)
    by reflexivity.
  rewrite forallb_forall in H. now apply H.
Qed.

Lemma b64encode_not_percent : forall data,
  forallb not_percent (list_ascii_of_string (Base64.b64encode data)) = true.
Proof.
  intros data.
  assert (H : forall n d, (List.length d <= n)%nat ->
            forallb not_percent (list_ascii_of_string (Base64.b64encode d)) = true).
  { induction n as [|n IH]; intros d Hd.
    - destruct d; [reflexivity | simpl in Hd; lia].
    - destruct d as [|a [|b [|c rest]]]; try reflexivity.
      + cbn [Base64.b64encode list_ascii_of_string forallb].
        now rewrite !sextet_not_percent.
      + cbn [Base64.b64encode list_ascii_of_string forallb].
        now rewrite !sextet_not_percent.
      + cbn [Base64.b64encode list_ascii_of_string forallb].
        rewrite !sextet_not_percent. simpl.
        apply IH. simpl in Hd. lia. }
  now apply (H (List.length data)).
Qed.

Lemma forallb_firstn : forall (A : Type) (p : A -> bool) (n : nat) (l : list A),
  forallb p l = true -> forallb p (firstn n l) = true.
Proof.
  induction n as [|n IH]; intros [|a l] H; simpl in *; auto.
  apply andb_true_iff in H as [Ha Hl]. rewrite Ha. now apply IH.
Qed.

Lemma forallb_skipn : forall (A : Type) (p : A -> bool) (n : nat) (l : list A),
  forallb p l = true -> forallb p (skipn n l) = true.
Proof.
  induction n as [|n IH]; intros [|a l] H; simpl in *; auto.
  apply andb_true_iff in H as [Ha Hl]. now apply IH.
Qed.

Lemma no_percent_not_autopoll_header : forall l,
  forallb not_percent l = true ->
  not_autopoll_header (string_of_list_ascii l) = true.
Proof.
  intros [|c l] H; [reflexivity|].
  simpl in H. apply andb_true_iff in H as [Hc _].
  unfold not_autopoll_header.
  change (string_of_list_ascii (c :: l)) with (String c (string_of_list_ascii l)).
  cbn [String.prefix].
  destruct (ascii_dec "%" c) as [<-|]; [discriminate Hc | reflexivity].
Qed.

Lemma slice_b64_not_autopoll_header : forall data i j,
  not_autopoll_header (Py.slice (Base64.b64encode data) i j) = true.
Proof.
  intros. unfold Py.slice.
  apply no_percent_not_autopoll_header, forallb_firstn, forallb_skipn,
        b64encode_not_percent.
Qed.

Lemma map_exc_forall : forall (A B : Type) (P : B -> Prop) (f : A -> pyres B)
    (l : list A) (bs : list B),
  (forall a b, In a l -> f a = Val b -> P b) ->
  map_exc f l = Val bs -> Forall P bs.
Proof.
  induction l as [|a l IH]; intros bs Hf H; simpl in H.
  - injection H as <-. constructor.
  - destruct (f a) as [b|e] eqn:Ea; simpl in H; [|discriminate].
    destruct (map_exc f l) as [bs'|e] eqn:El; simpl in H; [|discriminate].
    injection H as <-. constructor.
    + eapply Hf; [now left | exact Ea].
    + apply IH; auto. intros a' b' Hin. apply Hf. now right.
Qed.

Lemma forallb_concat : forall (A : Type) (p : A -> bool) (ll : list (list A)),
  Forall (fun l => forallb p l = true) ll -> forallb p (List.concat ll) = true.
Proof.
  induction 1 as [|l ll Hl _ IH]; simpl; [reflexivity|].
  rewrite forallb_app, Hl, IH. reflexivity.
Qed.

Lemma diff_not_autopoll_header : forall set_iter results last lines,
  Monitor.diff set_iter results last = Val lines ->
  forallb not_autopoll_header lines = true.
Proof.
  intros set_iter results last lines H. unfold Monitor.diff in H.
  match type of H with
  | pybind (map_exc ?f ?l) _ = _ =>
      destruct (map_exc f l) as [additions|e] eqn:Ea; simpl in H; [|discriminate]
  end.
  match type of H with
  | pybind (map_exc ?f ?l) _ = _ =>
      destruct (map_exc f l) as [edits|e] eqn:Ee; simpl in H; [|discriminate]
  end.
  injection H as <-.
  rewrite !forallb_app. repeat (apply andb_true_iff; split).
  - apply forallb_forall. apply Forall_forall.
    eapply map_exc_forall; [|exact Ea].
    intros a b _ Hb. simpl in Hb.
    destruct (subscript results a); simpl in Hb; [|discriminate].
    injection Hb as <-. reflexivity.
  - apply forallb_forall. intros x Hx. apply in_map_iff in Hx as [k [<- _]].
    reflexivity.
  - apply forallb_concat. eapply map_exc_forall; [|exact Ee].
    intros a b _ Hb. simpl in Hb.
    destruct (Dict.mem last a); [|injection Hb as <-; reflexivity].
    destruct (subscript results a); simpl in Hb; [|discriminate].
    destruct (subscript last a); simpl in Hb; [|discriminate].
    destruct (negb (row_eqb a0 a1)); injection Hb as <-; reflexivity.
Qed.

(* ===================================================================== *)
(** ** What every handler keeps *)
(* ===================================================================== *)

Lemma hoare_pure : forall (A : Type) (I : agent -> Prop) (C : Prop) (m : M A),
  (C -> preserves I m) -> hoare (fun s => I s /\ C) m (fun _ => I).
Proof. intros A I C m H s [HI HC]. now apply H. Qed.

Section Frame.
Variable I : agent -> Prop.
Hypothesis HI : framed I.

Lemma begin_keeps : forall identifier, preserves I (begin identifier).
Proof. intros. apply (fr_send HI). reflexivity. Qed.

Lemma end_keeps : forall identifier status, preserves I (end_ identifier status).
Proof. intros. apply (fr_send HI). reflexivity. Qed.

Lemma send_str_keeps : forall z, preserves I (send (Py.str z)).
Proof. intros. apply (fr_send HI), str_not_autopoll_header. Qed.

Lemma fail_keeps : forall (A : Type) (reason : string),
  preserves I (@fail A reason).
Proof.
  intros. unfold fail. apply preserves_bind.
  - apply (fr_send HI). reflexivity.
  - intros _. apply preserves_sys_exit.
Qed.

Lemma cleanup_keeps : forall w, preserves I (cleanup w).
Proof.
  intros w. unfold cleanup.
  apply preserves_bind; [apply preserves_gets | intros completed].
  apply preserves_bind;
    [apply preserves_modify; intros; now apply (fr_COMPLETED HI) | intros _].
  apply preserves_for. intros pid _.
  apply preserves_bind; [apply preserves_gets | intros procs].
  destruct (procs_get procs pid) as [proc|]; [|apply preserves_ret].
  apply preserves_bind;
    [apply preserves_modify; intros; now apply (fr_PROCESSES HI) | intros _].
  apply (fr_send HI). reflexivity.
Qed.

Lemma print_output_keeps : forall identifier pid channel islogin data,
  preserves I (print_output identifier pid channel islogin data).
Proof.
  intros. unfold print_output.
  apply preserves_bind.
  { destruct islogin; apply (fr_send HI); reflexivity. }
  intros _. cbv zeta. apply preserves_bind.
  { apply preserves_for. intros i _.
    apply (fr_send HI), slice_b64_not_autopoll_header. }
  intros _. apply (fr_send HI). reflexivity.
Qed.

Lemma monitor_process_keeps : forall w identifier pid islogin channel value,
  preserves I (monitor_process w identifier pid islogin channel value).
Proof.
  intros. unfold monitor_process.
  destruct (List.length value =? 0)%nat.
  - apply preserves_bind; [|intros _; apply cleanup_keeps].
    apply preserves_modify. intros. now apply (fr_COMPLETED HI).
  - apply print_output_keeps.
Qed.

Lemma handle_read_keeps : forall identifier pid islogin,
  preserves I (handle_read identifier pid islogin).
Proof.
  intros. unfold handle_read. apply preserves_modify.
  intros. now apply (fr_new_pump HI).
Qed.

Lemma pump_resume_keeps : forall w k value, preserves I (pump_resume w k value).
Proof.
  intros. unfold pump_resume.
  apply preserves_bind; [apply preserves_gets | intros ps].
  destruct (nth_error ps k) as [p|]; [|apply preserves_ret].
  destruct (pump_running p); [|apply preserves_ret].
  apply preserves_bind; [apply monitor_process_keeps | intros _].
  destruct (List.length value =? 0)%nat; [|apply preserves_ret].
  apply preserves_modify. intros. now apply (fr_pump_stop HI).
Qed.

Lemma register_keeps : forall pid, preserves I (register pid).
Proof.
  intros. unfold register.
  apply preserves_bind; [apply preserves_gets | intros registered].
  destruct (list_mem registered pid); [apply preserves_ret|].
  apply preserves_modify. intros. now apply (fr_REGISTERED HI).
Qed.

Lemma deregister_keeps : forall pid, preserves I (deregister pid).
Proof.
  intros. unfold deregister.
  apply preserves_bind; [apply preserves_gets | intros registered].
  destruct (list_mem registered pid); [|apply preserves_ret].
  apply preserves_modify. intros. now apply (fr_REGISTERED HI).
Qed.

End Frame.

Section Handlers.
Variable I : agent -> Prop.
Hypothesis HI : framed I.

(** [procmon_parse] keeps the invariant and returns lines of a diff. *)
Lemma procmon_parse_keeps : forall w output,
  hoare I (procmon_parse w output)
        (fun r s => I s /\ forall lines, r = Return lines ->
                               forallb not_autopoll_header lines = true).
Proof.
  intros w output s Hs. unfold procmon_parse, bind, gets, modify; simpl.
  destruct (snapshot (depth w) (REGISTERED s) output) as [results|e]; simpl.
  2:{ split; [exact Hs | discriminate]. }
  destruct (diff (set_iter w) results (LASTPS s)) as [lines|e] eqn:Ed; simpl.
  - split; [now apply (fr_LASTPS HI)|].
    intros lines' [= <-]. eapply diff_not_autopoll_header, Ed.
  - split; [now apply (fr_LASTPS HI) | discriminate].
Qed.

Lemma poll_keeps : forall w,
  hoare I (poll w)
        (fun r s => I s /\ forall lines, r = Return (Some lines) ->
                               forallb not_autopoll_header lines = true).
Proof.
  intros w. unfold poll. destruct (ps_returncode w =? 0).
  - eapply hoare_bind; [apply procmon_parse_keeps | | |].
    + intros final s [Hs Hl]. split; [exact Hs|].
      intros lines [= <-]. now apply Hl.
    + intros e s [Hs _]. split; [exact Hs | discriminate].
    + intros c s [Hs _]. split; [exact Hs | discriminate].
  - intros s Hs. split; [exact Hs | discriminate].
Qed.

Lemma send_lines_keeps : forall lines,
  forallb not_autopoll_header lines = true -> preserves I (for_ lines send).
Proof.
  intros lines H. apply preserves_for. intros line Hin.
  apply (fr_send HI). rewrite forallb_forall in H. now apply H.
Qed.

Lemma handle_poll_keeps : forall w identifier args,
  preserves I (handle_poll w identifier args).
Proof.
  intros. unfold handle_poll.
  eapply hoare_bind; [apply poll_keeps | | |].
  - intros [lines|].
    + eapply hoare_weaken with
        (P' := fun s => I s /\ forallb not_autopoll_header lines = true)
        (Q' := fun _ => I).
      * apply hoare_pure. intros Hl.
        apply preserves_bind; [apply preserves_ret | intros _].
        apply preserves_bind; [apply (begin_keeps HI) | intros _].
        apply preserves_bind; [| intros _; apply preserves_ret].
        apply preserves_bind; [now apply send_lines_keeps | intros _].
        apply (end_keeps HI).
      * intros s [Hs Hl]. split; [exact Hs | now apply Hl].
      * auto.
    + intros s [Hs _]. exact Hs.
  - intros e s [Hs _]. exact Hs.
  - intros c s [Hs _]. exact Hs.
Qed.

Lemma handle_login_keeps : forall w identifier args,
  preserves I (handle_login w identifier args).
Proof.
  intros. unfold handle_login.
  destruct args; [apply preserves_raise|].
  destruct (spawned w) as [pid|]; [|apply preserves_raise].
  apply preserves_bind;
    [apply preserves_modify; intros; now apply (fr_PROCESSES HI) | intros _].
  apply preserves_bind; [apply (begin_keeps HI) | intros _].
  apply preserves_bind; [apply (send_str_keeps HI) | intros _].
  apply preserves_bind; [apply (end_keeps HI) | intros _].
  apply preserves_bind; [apply (handle_read_keeps HI) | intros _].
  apply preserves_ret.
Qed.

Lemma handle_run_keeps : forall w identifier args,
  preserves I (handle_run w identifier args).
Proof.
  intros. unfold handle_run.
  destruct args; [apply preserves_raise|].
  destruct (spawned w) as [pid|]; [|apply preserves_raise].
  apply preserves_bind;
    [apply preserves_modify; intros; now apply (fr_PROCESSES HI) | intros _].
  apply preserves_bind; [apply (begin_keeps HI) | intros _].
  apply preserves_bind; [apply (send_str_keeps HI) | intros _].
  apply preserves_bind; [apply (end_keeps HI) | intros _].
  apply preserves_bind; [apply (handle_read_keeps HI) | intros _].
  apply preserves_ret.
Qed.

Lemma handle_reset_keeps : forall identifier args,
  preserves I (handle_reset identifier args).
Proof.
  intros. unfold handle_reset.
  apply preserves_bind;
    [apply preserves_modify; intros; now apply (fr_REGISTERED HI) | intros _].
  apply preserves_bind;
    [apply preserves_modify; intros; now apply (fr_LASTPS HI) | intros _].
  apply preserves_bind;
    [apply preserves_modify; intros; now apply (fr_AUTOPOLL HI) | intros _].
  apply preserves_bind; [apply (begin_keeps HI) | intros _].
  apply preserves_bind; [apply (end_keeps HI) | intros _].
  apply preserves_ret.
Qed.

Lemma handle_register_keeps : forall identifier args,
  preserves I (handle_register identifier args).
Proof.
  intros. unfold handle_register.
  destruct args as [|a args]; [apply (fail_keeps HI)|].
  destruct (Py.int a) as [pid|]; [|apply (fail_keeps HI)].
  apply preserves_bind; [apply (begin_keeps HI) | intros _].
  apply preserves_bind; [apply (end_keeps HI) | intros _].
  apply preserves_bind; [apply (register_keeps HI) | intros _].
  apply preserves_ret.
Qed.

Lemma handle_deregister_keeps : forall identifier args,
  preserves I (handle_deregister identifier args).
Proof.
  intros. unfold handle_deregister.
  destruct args as [|a args]; [apply (fail_keeps HI)|].
  destruct (Py.int a) as [pid|]; [|apply (fail_keeps HI)].
  apply preserves_bind; [apply (begin_keeps HI) | intros _].
  apply preserves_bind; [apply (end_keeps HI) | intros _].
  apply preserves_bind; [apply (deregister_keeps HI) | intros _].
  apply preserves_ret.
Qed.

Lemma handle_send_keeps : forall w identifier args,
  preserves I (handle_send w identifier args).
Proof.
  intros. unfold handle_send.
  destruct args as [|a0 [|a1 args]]; try apply (fail_keeps HI).
  destruct (Py.int a0) as [pid|]; [|apply (fail_keeps HI)].
  destruct (decoded w) as [data|]; [|apply (fail_keeps HI)].
  apply preserves_bind; [apply preserves_gets | intros procs].
  destruct (procs_get procs pid) as [proc|].
  - apply preserves_bind;
      [apply preserves_modify; intros; now apply (fr_PROCESSES HI) | intros _].
    apply preserves_bind; [apply (begin_keeps HI) | intros _].
    apply preserves_bind; [apply (end_keeps HI) | intros _].
    apply preserves_ret.
  - apply preserves_bind; [apply (begin_keeps HI) | intros _].
    apply preserves_bind; [apply (end_keeps HI) | intros _].
    apply preserves_ret.
Qed.

Lemma handle_kill_keeps : forall identifier args,
  preserves I (handle_kill identifier args).
Proof.
  intros. unfold handle_kill.
  destruct (option_map Py.int (hd_error args)) as [[pid|]|];
    try apply (fail_keeps HI).
  apply preserves_bind; [apply preserves_gets | intros procs].
  destruct (procs_get procs pid) as [proc|].
  - apply preserves_bind;
      [apply preserves_modify; intros; now apply (fr_PROCESSES HI) | intros _].
    apply preserves_bind; [apply (begin_keeps HI) | intros _].
    apply preserves_bind; [apply (end_keeps HI) | intros _].
    apply preserves_ret.
  - apply preserves_bind; [apply (begin_keeps HI) | intros _].
    apply preserves_bind; [apply preserves_raise | intros _].
    apply preserves_ret.
Qed.

End Handlers.

(* ===================================================================== *)
(** ** From the handlers to whole runs *)
(* ===================================================================== *)

Lemma handle_quit_returns_true : forall identifier args s,
  fst (handle_quit identifier args s) = Return true.
Proof.
  intros. unfold handle_quit, begin, end_, send, bind, gets, cancel, modify, ret.
  destruct s as [procs completed quitting registered lastps armed task out ts ps].
  simpl. destruct quitting; simpl; destruct task; reflexivity.
Qed.

Section Dispatch.
Variables I J : agent -> Prop.
Hypothesis HI : framed I.
Hypothesis HJ : framed J.
Hypothesis IJ : forall s, I s -> J s.
Hypothesis autopoll_keeps : forall identifier args,
  preserves I (handle_autopoll identifier args).
Hypothesis quit_gives : forall identifier args,
  hoare I (handle_quit identifier args) (fun _ => J).
Hypothesis resume_keeps : forall w t, preserves I (autopoll_resume w t).

Lemma handler_gives : forall w cmd f identifier args,
  HANDLERS w cmd = Some f ->
  hoare I (f identifier args)
        (fun r s => J s /\ (r <> Return true -> I s)).
Proof.
  intros w cmd f identifier args H.
  assert (K : forall g : Z -> list string -> M bool,
             preserves I (g identifier args) ->
             hoare I (g identifier args)
                   (fun r s => J s /\ (r <> Return true -> I s))).
  { intros g Hg s Hs. specialize (Hg s Hs). simpl in Hg. split; auto. }
  unfold HANDLERS in H.
  repeat match type of H with
         | (if ?b then _ else _) = _ => destruct b
         end;
    try discriminate; injection H as <-.
  - apply K, (handle_run_keeps HI).
  - apply K, (handle_login_keeps HI).
  - apply K, (handle_send_keeps HI).
  - apply K, (handle_kill_keeps HI).
  - intros s Hs. pose proof (quit_gives identifier args Hs) as Hq.
    split; [exact Hq|].
    intros Hr. exfalso. apply Hr. apply handle_quit_returns_true.
  - apply K, (handle_register_keeps HI).
  - apply K, (handle_deregister_keeps HI).
  - apply K, (handle_poll_keeps HI).
  - apply K, (handle_reset_keeps HI).
  - apply K, autopoll_keeps.
Qed.

Lemma handle_gives : forall w args,
  hoare I (handle w args) (fun r s => J s /\ (r <> Return true -> I s)).
Proof.
  intros w [|cmd args] s Hs; simpl.
  - split; auto.
  - destruct (HANDLERS w cmd) as [f|] eqn:Hf.
    + pose proof (@handler_gives w cmd f (randint w) args Hf s Hs) as Hh.
      unfold bind, try_except.
      destruct (f (randint w) args s) as [[[|]|e|c] s1]; simpl in *.
      * destruct Hh as [Hj _].
        pose proof (@cleanup_keeps J HJ w _ (@fr_QUITTING J HJ s1 Hj)) as Hc.
        unfold modify. simpl.
        pose proof (cleanup_returns w (with_QUITTING true s1)) as Hr.
        destruct (cleanup w (with_QUITTING true s1)) as [[u|e|c] s2];
          simpl in *; try discriminate.
        split; auto. intros Hn. exfalso. apply Hn. reflexivity.
      * destruct Hh as [_ Hi]. assert (Hs1 : I s1) by (apply Hi; discriminate).
        pose proof (@cleanup_keeps I HI w s1 Hs1) as Hc.
        unfold ret. simpl.
        destruct (cleanup w s1) as [[u|e|c] s2]; simpl in *; split; auto.
      * destruct Hh as [_ Hi]. assert (Hs1 : I s1) by (apply Hi; discriminate).
        pose proof (@cleanup_keeps I HI w s1 Hs1) as Hc.
        unfold ret. simpl.
        destruct (cleanup w s1) as [[u|e'|c] s2]; simpl in *; split; auto.
      * destruct Hh as [Hj Hi]. split; auto.
    + pose proof (@fail_keeps I HI bool "unrecognized command" s Hs) as Hf'.
      simpl in Hf'. split; auto.
Qed.

Lemma live_step_keeps : forall s e w,
  I s -> machine_inv I J (live_step s e w).
Proof.
  intros s e w Hs. unfold machine_inv. destruct e as [args|k value|t]; simpl.
  - pose proof (@handle_gives w args s Hs) as Hh.
    destruct (handle w args s) as [[[|]|e|c] s1]; simpl in *;
      destruct Hh as [Hj Hi]; split; auto; try discriminate.
    intros _. apply Hi. discriminate.
  - pose proof (@pump_resume_keeps I HI w k value s Hs) as Hp.
    destruct (pump_resume w k value s) as [[u|e|c] s1]; simpl in *;
      split; auto; discriminate.
  - pose proof (@resume_keeps w t s Hs) as Hp.
    destruct (autopoll_resume w t s) as [[u|e|c] s1]; simpl in *;
      split; auto; discriminate.
Qed.

Lemma step_keeps : forall m ew,
  machine_inv I J m -> machine_inv I J (step m ew).
Proof.
  intros m ew [Hj Hi]. unfold step.
  destruct (exited m) as [c|] eqn:E.
  - split; [exact Hj|]. rewrite E. discriminate.
  - apply live_step_keeps. now apply Hi.
Qed.

Lemma run_keeps : forall trace m,
  machine_inv I J m -> machine_inv I J (run m trace).
Proof.
  induction trace as [|ew trace IH]; intros m H; simpl; auto.
  apply IH, step_keeps, H.
Qed.

End Dispatch.

(* ===================================================================== *)
(** ** The autopoll task under an invariant *)
(* ===================================================================== *)

Section Background.
Variable I : agent -> Prop.
Hypothesis HA : framed_any I.

Lemma autopoll_body_keeps : forall w, preserves I (autopoll_body w).
Proof.
  intros w. unfold autopoll_body.
  eapply hoare_bind; [apply (poll_keeps (any_framed HA)) | | |].
  - intros output.
    eapply hoare_weaken with (P' := I) (Q' := fun _ => I);
      [| intros s [Hs _]; exact Hs | auto].
    destruct output as [[|line lines]|];
      [apply preserves_ret | | apply preserves_raise].
    cbv zeta.
    apply preserves_bind; [apply (any_send HA) | intros _].
    apply preserves_bind.
    { apply preserves_for. intros l _. apply (any_send HA). }
    intros _.
    apply preserves_bind; [apply (any_send HA) | intros _].
    apply preserves_bind; [|intros _; apply preserves_ret].
    apply preserves_modify. intros. now apply (fr_AUTOPOLL (any_framed HA)).
  - intros e s [Hs _]. exact Hs.
  - intros c s [Hs _]. exact Hs.
Qed.

Hypothesis I_tasks : forall v s, I s -> I (with_tasks v s).
Hypothesis I_AUTOPOLL_TASK : forall v s, I s -> I (with_AUTOPOLL_TASK v s).

Lemma handle_autopoll_keeps : forall identifier args,
  preserves I (handle_autopoll identifier args).
Proof.
  intros. unfold handle_autopoll.
  apply preserves_bind; [apply (any_send HA) | intros _].
  apply preserves_bind; [apply (any_send HA) | intros _].
  apply preserves_bind; [apply preserves_gets | intros armed].
  destruct armed; [apply preserves_ret|].
  apply preserves_bind;
    [apply preserves_modify; intros; now apply (fr_AUTOPOLL (any_framed HA))
    | intros _].
  apply preserves_bind; [apply preserves_gets | intros task].
  destruct task; [apply preserves_ret|].
  apply preserves_bind; [|intros _; apply preserves_ret].
  apply preserves_modify. intros. now apply I_AUTOPOLL_TASK, I_tasks.
Qed.

Lemma handle_quit_keeps : forall identifier args,
  preserves I (handle_quit identifier args).
Proof.
  intros. unfold handle_quit.
  apply preserves_bind; [apply (any_send HA) | intros _].
  apply preserves_bind; [apply (any_send HA) | intros _].
  apply preserves_bind; [apply preserves_gets | intros task].
  apply preserves_bind; [|intros _; apply preserves_ret].
  destruct task; [|apply preserves_ret].
  apply preserves_bind; [|intros _].
  - unfold cancel. apply preserves_modify. intros. now apply I_tasks.
  - apply preserves_modify. intros. now apply I_AUTOPOLL_TASK.
Qed.

Lemma autopoll_resume_keeps : forall w t, preserves I (autopoll_resume w t).
Proof.
  intros. unfold autopoll_resume.
  apply preserves_bind; [apply preserves_gets | intros ts].
  destruct (nth_error ts t) as [[| |]|]; try apply preserves_ret.
  - apply preserves_bind.
    + apply preserves_try_except; [apply autopoll_body_keeps|].
      intros e. apply preserves_ret.
    + intros next. apply preserves_modify. intros. now apply I_tasks.
  - apply preserves_bind; [apply preserves_gets | intros armed].
    destruct armed; [|apply preserves_ret].
    apply preserves_modify. intros. now apply I_tasks.
Qed.

End Background.

(* ===================================================================== *)
(** ** Invariants *)
(* ===================================================================== *)

Lemma send_keeps_stdout_free : forall (I : agent -> Prop),
  (forall v s, I s -> I (with_stdout v s)) ->
  forall text, preserves I (send text).
Proof.
  intros I H text s Hs. unfold send.
  destruct (QUITTING s); simpl; [exact Hs | now apply H].
Qed.

(** *** Nothing is printed once [QUITTING] is set *)

Lemma send_keeps_quiet : forall out text, preserves (quiet out) (send text).
Proof.
  intros out text s [Hq Ho]. unfold send. rewrite Hq. simpl. now split.
Qed.

Lemma quiet_framed_bg : forall out, framed_bg (quiet out).
Proof.
  intros out. split; [split; [split|] | |];
    try (intros; apply send_keeps_quiet);
    intros;
    match goal with
    | H : quiet _ ?s |- _ =>
        destruct H as [Hq Ho]; destruct s; simpl in *; split; auto
    end.
Qed.

Lemma quiet_live_step : forall out s e w,
  quiet out s -> machine_inv (quiet out) (quiet out) (live_step s e w).
Proof.
  intros out s e w H.
  pose proof (quiet_framed_bg out) as HB.
  apply live_step_keeps; auto.
  - apply (any_framed (bg_any HB)).
  - apply (any_framed (bg_any HB)).
  - intros. apply (handle_autopoll_keeps (bg_any HB));
      [apply (bg_tasks HB) | apply (bg_AUTOPOLL_TASK HB)].
  - intros. apply (handle_quit_keeps (bg_any HB));
      [apply (bg_tasks HB) | apply (bg_AUTOPOLL_TASK HB)].
  - intros. apply (autopoll_resume_keeps (bg_any HB)). apply (bg_tasks HB).
Qed.

Lemma quiet_run : forall out trace m,
  quiet out (globals m) -> quiet out (globals (run m trace)).
Proof.
  intros out. induction trace as [|[e w] trace IH]; intros m H; simpl; auto.
  apply IH. unfold step. destruct (exited m); [exact H|].
  simpl. now destruct (@quiet_live_step out (globals m) e w H).
Qed.

(** C8: in a state where [QUITTING] is true, [send] prints nothing, and
    neither does anything the agent runs afterwards: a request handled by
    [handle] (its [begin], [end], payload and [abort] lines, and the
    [%terminate] lines of its [cleanup]), a read pump ([%output] frames,
    [%terminate]) or the autopoll task ([%autopoll] frames); [QUITTING]
    stays true, so this holds along every sequence of such steps. *)
Theorem quitting_silences_stdout : forall (s : agent),
  QUITTING s = true ->
  (forall text, send text s = (Return tt, s))
  /\ (forall e w, stdout (globals (live_step s e w)) = stdout s
                  /\ QUITTING (globals (live_step s e w)) = true)
  /\ (forall code trace,
        stdout (globals (run (mkMachine s code) trace)) = stdout s
        /\ QUITTING (globals (run (mkMachine s code) trace)) = true).
Proof.
  intros s Hq. split; [|split].
  - intros text. unfold send. now rewrite Hq.
  - intros e w.
    assert (H : quiet (stdout s) s) by now split.
    destruct (quiet_live_step e w H) as [[Hq' Ho] _]. now split.
  - intros code trace.
    assert (H : quiet (stdout s) (globals (mkMachine s code))) by now split.
    destruct (quiet_run trace (mkMachine s code) H) as [Hq' Ho]. now split.
Qed.

Lemma quitting_silences_stdout_witness :
  stdout (globals (live_step (with_QUITTING true initial) (Request ["reset"])
                             (mkWorld 77 None 0 "" None (fun _ => 0)
                                      (fun l => l) 100)))
  = stdout (with_QUITTING true initial).
Proof.
  exact (proj1 (proj1 (proj2 (@quitting_silences_stdout
                                (with_QUITTING true initial) eq_refl))
                      (Request ["reset"])
                      (mkWorld 77 None 0 "" None (fun _ => 0) (fun l => l) 100))).
Defined.

(** *** At most one autopoll task *)

Lemma nth_error_list_update_neq : forall (A : Type) (l : list A) i j v,
  i <> j -> nth_error (list_update l i v) j = nth_error l j.
Proof.
  induction l as [|x l IH]; intros [|i] [|j] v H; simpl; auto; try congruence.
Qed.

Lemma nth_error_list_update_eq : forall (A : Type) (l : list A) i v x,
  nth_error (list_update l i v) i = Some x -> x = v.
Proof.
  induction l as [|y l IH]; intros [|i] v x H; simpl in H; try discriminate.
  - now injection H as <-.
  - eapply IH, H.
Qed.

Lemma one_task_depends : forall s s',
  tasks s' = tasks s -> AUTOPOLL_TASK s' = AUTOPOLL_TASK s ->
  one_task s -> one_task s'.
Proof.
  intros s s' Ht Ha H t [st [Hn Hl]]. rewrite Ha. apply H.
  exists st. rewrite <- Ht. now split.
Qed.

Lemma one_task_framed : framed one_task.
Proof.
  split;
    try (intros; apply send_keeps_stdout_free; clear; intros);
    intros;
    match goal with
    | H : one_task ?s |- _ =>
        revert H; apply one_task_depends; destruct s; reflexivity
    end.
Qed.

Lemma one_task_update : forall s t st next,
  one_task s -> nth_error (tasks s) t = Some st -> st <> Finished ->
  one_task (with_tasks (list_update (tasks s) t next) s).
Proof.
  intros s t st next H Hn Hl t' [st' [Hn' Hl']].
  assert (Ht : AUTOPOLL_TASK s = Some t) by (apply H; now exists st).
  destruct s; simpl in *. rewrite Ht. f_equal.
  destruct (Nat.eq_dec t t') as [|Hne]; [assumption|].
  rewrite nth_error_list_update_neq in Hn' by assumption.
  assert (Ht' : Some t = Some t').
  { rewrite <- Ht. apply H. now exists st'. }
  now injection Ht'.
Qed.

Lemma same_tasks_framed_any : forall ts task, framed_any (same_tasks ts task).
Proof.
  intros ts task. split; [split|];
    try (intros; apply send_keeps_stdout_free; clear; intros);
    intros;
    match goal with
    | H : same_tasks _ _ ?s |- _ =>
        destruct H; destruct s; simpl in *; split; assumption
    end.
Qed.

Lemma autopoll_resume_keeps_one_task : forall w t,
  preserves one_task (autopoll_resume w t).
Proof.
  intros w t s Hs. unfold autopoll_resume, bind at 1, gets at 1.
  destruct (nth_error (tasks s) t) as [[| |]|] eqn:Hn; try exact Hs.
  - unfold bind, modify.
    pose proof (@preserves_try_except _ _ (autopoll_body w)
                  (fun _ => ret Finished)
                  (autopoll_body_keeps
                     (same_tasks_framed_any (tasks s) (AUTOPOLL_TASK s)) w)
                  (fun e => @preserves_ret _ _ Finished) s
                  (conj eq_refl eq_refl)) as [Ht Ha].
    destruct (try_except (autopoll_body w) (fun _ => ret Finished) s)
      as [[next|e|c] s1]; simpl in *.
    + apply one_task_update with (st := Polling); try discriminate.
      * eapply one_task_depends; [| |exact Hs]; assumption.
      * now rewrite Ht.
    + eapply one_task_depends; [| |exact Hs]; assumption.
    + eapply one_task_depends; [| |exact Hs]; assumption.
  - unfold bind, gets, modify. destruct (AUTOPOLL s); simpl; [|exact Hs].
    apply one_task_update with (st := Disarmed); auto. discriminate.
Qed.

Lemma handle_autopoll_keeps_one_task : forall identifier args,
  preserves one_task (handle_autopoll identifier args).
Proof.
  intros identifier args s Hs.
  destruct s as [procs completed quitting registered lastps armed task out ts ps].
  unfold one_task, live_task in *.
  unfold handle_autopoll, begin, end_, send, bind, gets, modify, ret.
  destruct quitting, armed, task as [t0|]; simpl in *; auto;
    intros t [st [Hn Hl]]; f_equal.
  all: destruct (Nat.lt_ge_cases t (List.length ts)) as [Hlt|Hge].
  all: try (rewrite nth_error_app1 in Hn by assumption;
            assert (Hc : @None nat = Some t) by (apply Hs; now exists st);
            discriminate Hc).
  all: destruct (Nat.eq_dec t (List.length ts)) as [->|Hne]; [reflexivity|].
  all: assert (Hnone : nth_error (ts ++ [Polling]) t = None)
         by (apply nth_error_None; rewrite length_app; simpl; lia).
  all: rewrite Hnone in Hn; discriminate.
Qed.

Lemma handle_quit_keeps_one_task : forall identifier args,
  preserves one_task (handle_quit identifier args).
Proof.
  intros identifier args s Hs.
  destruct s as [procs completed quitting registered lastps armed task out ts ps].
  unfold one_task, live_task in *.
  unfold handle_quit, begin, end_, send, bind, gets, cancel, modify, ret.
  destruct quitting, task as [t0|]; simpl in *; auto;
    intros t [st [Hn Hl]]; exfalso.
  all: destruct (Nat.eq_dec t0 t) as [->|Hne];
         [apply nth_error_list_update_eq in Hn; contradiction|].
  all: rewrite nth_error_list_update_neq in Hn by assumption.
  all: assert (Hc : Some t0 = Some t) by (apply Hs; now exists st).
  all: injection Hc as Hc; contradiction.
Qed.

Lemma reachable_one_task : forall trace, one_task (globals (run boot trace)).
Proof.
  intros trace.
  assert (H : machine_inv one_task one_task (run boot trace)).
  { apply run_keeps.
    - apply one_task_framed.
    - apply one_task_framed.
    - auto.
    - apply handle_autopoll_keeps_one_task.
    - apply handle_quit_keeps_one_task.
    - apply autopoll_resume_keeps_one_task.
    - split; intros; intros t [st [Hn _]]; destruct t; discriminate Hn. }
  exact (proj1 H).
Qed.

Lemma handle_autopoll_with_task : forall s identifier args t,
  AUTOPOLL_TASK s = Some t ->
  exists lines,
    handle_autopoll identifier args s
    = (Return false, with_AUTOPOLL true (with_stdout (stdout s ++ lines) s))
    /\ forallb not_autopoll_header lines = true.
Proof.
  intros s identifier args t Ht.
  destruct s as [procs completed quitting registered lastps armed task out ts ps].
  simpl in Ht. subst task.
  unfold handle_autopoll, begin, end_, send, bind, gets, modify, ret.
  destruct quitting.
  - exists []. destruct armed; simpl; rewrite app_nil_r; split; reflexivity.
  - exists ["begin " ++ Py.str identifier;
            "end " ++ Py.str identifier ++ " " ++ Py.str 0].
    destruct armed; simpl; rewrite <- app_assoc; split; reflexivity.
Qed.

(** C9: along every sequence of requests, pump reads and autopoll wake-ups
    from the start of the agent, two autopoll coroutines that exist (were
    created and have not returned) are the same one; and [handle_autopoll]
    in a state where [AUTOPOLL_TASK] is set returns without touching the
    task list or the handle: apart from the lines it prints it only sets
    [AUTOPOLL] to true. *)
Theorem at_most_one_autopoll_task :
  (forall trace t1 t2,
     live_task (globals (run boot trace)) t1 ->
     live_task (globals (run boot trace)) t2 -> t1 = t2)
  /\ (forall s identifier args t,
        AUTOPOLL_TASK s = Some t ->
        exists out,
          handle_autopoll identifier args s
          = (Return false, with_AUTOPOLL true (with_stdout out s))).
Proof.
  split.
  - intros trace t1 t2 H1 H2.
    pose proof (reachable_one_task trace) as H.
    pose proof (H t1 H1) as E1. pose proof (H t2 H2) as E2.
    rewrite E1 in E2. now injection E2.
  - intros s identifier args t Ht.
    destruct (@handle_autopoll_with_task s identifier args t Ht) as [lines [E _]].
    now exists (stdout s ++ lines)%list.
Qed.

Lemma at_most_one_autopoll_task_witness :
  exists out,
    handle_autopoll 78 []
      (globals (run boot [(Request ["autopoll"],
                           mkWorld 77 None 0 "" None (fun _ => 0)
                                   (fun l => l) 100)]))
    = (Return false,
       with_AUTOPOLL true
         (with_stdout out
            (globals (run boot [(Request ["autopoll"],
                                 mkWorld 77 None 0 "" None (fun _ => 0)
                                         (fun l => l) 100)])))).
Proof.
  exact (proj2 at_most_one_autopoll_task
           (globals (run boot [(Request ["autopoll"],
                                mkWorld 77 None 0 "" None (fun _ => 0)
                                        (fun l => l) 100)]))
           78 [] 0%nat eq_refl).
Defined.

(** *** An autopoll task that has died *)

Lemma dead_quit_depends : forall before s s',
  tasks s' = tasks s -> stdout s' = stdout s ->
  autopoll_dead_quit before s -> autopoll_dead_quit before s'.
Proof.
  intros before s s' Ht Ho [Hf Hn]. split.
  - unfold all_finished. now rewrite Ht.
  - unfold no_autopoll_since. now rewrite Ho.
Qed.

Lemma dead_depends : forall before s s',
  tasks s' = tasks s -> stdout s' = stdout s ->
  AUTOPOLL_TASK s' = AUTOPOLL_TASK s ->
  autopoll_dead before s -> autopoll_dead before s'.
Proof.
  intros before s s' Ht Ho Ha [Hf [Hn Hk]].
  destruct (@dead_quit_depends before s s' Ht Ho (conj Hf Hn)) as [Hf' Hn'].
  repeat split; auto. now rewrite Ha.
Qed.

Lemma no_autopoll_since_print : forall before s lines,
  forallb not_autopoll_header lines = true ->
  no_autopoll_since before s ->
  no_autopoll_since before (with_stdout (stdout s ++ lines) s).
Proof.
  intros before s lines Hl [added [Ho Ha]].
  exists (added ++ lines)%list. destruct s; simpl in *. subst.
  split; [now rewrite app_assoc | now rewrite forallb_app, Ha, Hl].
Qed.

Lemma send_keeps_dead_quit : forall before text,
  not_autopoll_header text = true ->
  preserves (autopoll_dead_quit before) (send text).
Proof.
  intros before text Ht s [Hf Hn]. unfold send.
  destruct (QUITTING s); simpl; [now split|]. split.
  - destruct s; exact Hf.
  - apply no_autopoll_since_print; auto. simpl. now rewrite Ht.
Qed.

Lemma send_keeps_dead : forall before text,
  not_autopoll_header text = true ->
  preserves (autopoll_dead before) (send text).
Proof.
  intros before text Ht s [Hf [Hn Hk]].
  destruct (@send_keeps_dead_quit before text Ht s (conj Hf Hn)) as [Hf' Hn'].
  repeat split; auto.
  unfold send. destruct (QUITTING s); simpl; auto.
Qed.

Lemma dead_quit_framed : forall before, framed (autopoll_dead_quit before).
Proof.
  intros before. split;
    try (intros; now apply send_keeps_dead_quit);
    intros;
    match goal with
    | H : autopoll_dead_quit _ ?s |- _ =>
        revert H; apply dead_quit_depends; destruct s; reflexivity
    end.
Qed.

Lemma dead_framed : forall before, framed (autopoll_dead before).
Proof.
  intros before. split;
    try (intros; now apply send_keeps_dead);
    intros;
    match goal with
    | H : autopoll_dead _ ?s |- _ =>
        revert H; apply dead_depends; destruct s; reflexivity
    end.
Qed.

Lemma Forall_list_update : forall (A : Type) (P : A -> Prop) (l : list A) i v,
  Forall P l -> P v -> Forall P (list_update l i v).
Proof.
  induction l as [|x l IH]; intros [|i] v H Hv; simpl; auto;
    inversion H; subst; constructor; auto.
Qed.

Lemma handle_autopoll_keeps_dead : forall before identifier args,
  preserves (autopoll_dead before) (handle_autopoll identifier args).
Proof.
  intros before identifier args s [Hf [Hn Hk]].
  destruct (AUTOPOLL_TASK s) as [t|] eqn:Ht; [|contradiction].
  destruct (@handle_autopoll_with_task s identifier args t Ht)
    as [lines [E Hl]].
  rewrite E. simpl. repeat split.
  - destruct s; exact Hf.
  - pose proof (@no_autopoll_since_print before s lines Hl Hn) as H.
    destruct s; exact H.
  - destruct s; simpl in *. now rewrite Ht.
Qed.

Lemma handle_quit_gives_dead_quit : forall before identifier args,
  hoare (autopoll_dead before) (handle_quit identifier args)
        (fun _ => autopoll_dead_quit before).
Proof.
  intros before identifier args s [Hf [Hn Hk]].
  assert (Hp : forall lines, forallb not_autopoll_header lines = true ->
               no_autopoll_since before (with_stdout (stdout s ++ lines) s))
    by (intros; now apply no_autopoll_since_print).
  destruct s as [procs completed quitting registered lastps armed task out ts ps].
  unfold autopoll_dead_quit, all_finished, no_autopoll_since in *.
  unfold handle_quit, begin, end_, send, bind, gets, cancel, modify, ret.
  destruct quitting, task as [t0|]; simpl in *; try contradiction; split;
    try (now apply Forall_list_update); auto.
  specialize (Hp ["begin " ++ Py.str identifier;
                  "end " ++ Py.str identifier ++ " " ++ Py.str 0] eq_refl).
  now rewrite <- app_assoc.
Qed.

Lemma autopoll_resume_finished : forall w t s,
  all_finished s -> autopoll_resume w t s = (Return tt, s).
Proof.
  intros w t s Hf. unfold autopoll_resume, bind, gets.
  destruct (nth_error (tasks s) t) as [st|] eqn:Hn; [|reflexivity].
  apply nth_error_In in Hn. unfold all_finished in Hf.
  rewrite Forall_forall in Hf. now rewrite (Hf st Hn).
Qed.

Lemma dead_run : forall before trace m,
  machine_inv (autopoll_dead before) (autopoll_dead_quit before) m ->
  machine_inv (autopoll_dead before) (autopoll_dead_quit before) (run m trace).
Proof.
  intros before trace m H. apply run_keeps; auto.
  - apply dead_framed.
  - apply dead_quit_framed.
  - intros s [Hf [Hn _]]. now split.
  - apply handle_autopoll_keeps_dead.
  - apply handle_quit_gives_dead_quit.
  - intros w t s Hs. rewrite autopoll_resume_finished; [exact Hs | apply Hs].
Qed.

(** The poll of the autopoll task fails: the task returns. *)
Lemma autopoll_resume_ps_failure : forall w t s,
  nth_error (tasks s) t = Some Polling ->
  ps_returncode w <> 0 ->
  autopoll_resume w t s
  = (Return tt, with_tasks (list_update (tasks s) t Finished) s).
Proof.
  intros w t s Hn Hps. apply Z.eqb_neq in Hps.
  unfold autopoll_resume, bind, gets. rewrite Hn.
  unfold try_except, autopoll_body, poll, bind. rewrite Hps. reflexivity.
Qed.

Lemma one_task_finished_after : forall s t,
  one_task s -> AUTOPOLL_TASK s = Some t ->
  Forall (fun st => st = Finished) (list_update (tasks s) t Finished).
Proof.
  intros s t H Ht. apply Forall_forall. intros st Hin.
  apply In_nth_error in Hin as [n Hn].
  destruct (Nat.eq_dec t n) as [->|Hne].
  - eapply nth_error_list_update_eq, Hn.
  - rewrite nth_error_list_update_neq in Hn by assumption.
    destruct st; try reflexivity; exfalso.
    + assert (E : AUTOPOLL_TASK s = Some n)
        by (apply H; exists Polling; split; [assumption | discriminate]).
      rewrite Ht in E. injection E as E. contradiction.
    + assert (E : AUTOPOLL_TASK s = Some n)
        by (apply H; exists Disarmed; split; [assumption | discriminate]).
      rewrite Ht in E. injection E as E. contradiction.
Qed.

(** C10: the agent has run for a while and still runs; its autopoll task
    [t] is polling and [ps] exits with a non-zero status.  Then the task
    returns (nothing is printed, only its state changes), and after every
    further sequence of requests, pump reads and wake-ups every autopoll
    coroutine ever created is finished (none is created again, whatever
    autopoll requests arrive) and no autopoll header has been printed
    since. *)
Theorem autopoll_never_recovers :
  forall (trace0 : list (event * world)) (t : nat) (w : world)
         (trace : list (event * world)),
  exited (run boot trace0) = None ->
  nth_error (tasks (globals (run boot trace0))) t = Some Polling ->
  ps_returncode w <> 0 ->
  let m0 := run boot trace0 in
  let m1 := step m0 (AutopollResume t, w) in
  let m := run m1 trace in
  globals m1
  = with_tasks (list_update (tasks (globals m0)) t Finished) (globals m0)
  /\ all_finished (globals m)
  /\ no_autopoll_since (stdout (globals m0)) (globals m).
Proof.
  intros trace0 t w trace Hrun Hn Hps m0 m1 m.
  pose proof (reachable_one_task trace0) as Hone. fold m0 in Hone, Hrun, Hn.
  assert (Ht : AUTOPOLL_TASK (globals m0) = Some t).
  { apply Hone. exists Polling. split; [assumption | discriminate]. }
  assert (E1 : m1 = mkMachine (with_tasks (list_update (tasks (globals m0)) t
                                             Finished) (globals m0)) None).
  { unfold m1, step. rewrite Hrun. simpl.
    now rewrite autopoll_resume_ps_failure. }
  split; [now rewrite E1|].
  assert (Hdead : machine_inv (autopoll_dead (stdout (globals m0)))
                              (autopoll_dead_quit (stdout (globals m0))) m1).
  { assert (D : autopoll_dead (stdout (globals m0)) (globals m1)).
    { rewrite E1. simpl. repeat split.
      - unfold all_finished. simpl. now apply one_task_finished_after.
      - exists []. split; [|reflexivity]. simpl. now rewrite app_nil_r.
      - simpl. now rewrite Ht. }
    split; [|intros _; exact D].
    destruct D as [Hf [Hno _]]. now split. }
  destruct (@dead_run _ trace m1 Hdead) as [[Hf Hno] _].
  now split.
Qed.

Lemma autopoll_never_recovers_witness :
  all_finished
    (globals
       (run (step (run boot [(Request ["autopoll"],
                              mkWorld 77 None 0 "" None (fun _ => 0)
                                      (fun l => l) 100)])
                  (AutopollResume 0,
                   mkWorld 78 None 1 "" None (fun _ => 0) (fun l => l) 100))
            [(Request ["autopoll"],
              mkWorld 79 None 0 "" None (fun _ => 0) (fun l => l) 100)])).
Proof.
  refine (proj1 (proj2 (@autopoll_never_recovers
            [(Request ["autopoll"],
              mkWorld 77 None 0 "" None (fun _ => 0) (fun l => l) 100)]
            0%nat
            (mkWorld 78 None 1 "" None (fun _ => 0) (fun l => l) 100)
            [(Request ["autopoll"],
              mkWorld 79 None 0 "" None (fun _ => 0) (fun l => l) 100)]
            eq_refl eq_refl _))).
  simpl. discriminate.
Defined.

(* ===================================================================== *)
(** ** Child output frames *)
(* ===================================================================== *)

Lemma string_of_list_app : forall a b,
  string_of_list_ascii (a ++ b)
  = (string_of_list_ascii a ++ string_of_list_ascii b)%string.
Proof. induction a as [|c a IH]; intros b; simpl; [reflexivity | now rewrite IH]. Qed.

Lemma string_of_list_length : forall l,
  String.length (string_of_list_ascii l) = List.length l.
Proof. induction l as [|c l IH]; simpl; [reflexivity | now rewrite IH]. Qed.

Lemma concat_strings_of_lists : forall cs,
  String.concat "" (map string_of_list_ascii cs)
  = string_of_list_ascii (List.concat cs).
Proof.
  induction cs as [|c cs IH]; [reflexivity|].
  simpl List.concat. rewrite string_of_list_app, <- IH.
  destruct cs as [|c' cs]; simpl.
  - clear. induction (string_of_list_ascii c) as [|x s IHs]; simpl;
      [reflexivity | now rewrite <- IHs].
  - reflexivity.
Qed.

(** The slices [l[0:128], l[128:256], ...], as many as [range] yields. *)
Lemma slices_cover : forall (m : nat) (l : list ascii),
  ((List.length l + 128 - 1) / 128 = m)%nat ->
  let cs := map (fun k => firstn 128 (skipn (k * 128) l)) (seq 0 m) in
  List.concat cs = l
  /\ Forall (fun c => List.length c = 128%nat) (removelast cs)
  /\ (l <> [] -> (1 <= List.length (last cs []) <= 128)%nat).
Proof.
  induction m as [|m IH]; intros l Hm cs.
  - assert (Hl : List.length l = 0%nat).
    { pose proof (Nat.div_mod_eq (List.length l + 128 - 1) 128).
      pose proof (Nat.mod_upper_bound (List.length l + 128 - 1) 128). lia. }
    apply length_zero_iff_nil in Hl. subst l. simpl.
    split; [reflexivity|]. split; [constructor|].
    intros Hne; now contradiction Hne.
  - assert (Hrest : ((List.length (skipn 128 l) + 128 - 1) / 128 = m)%nat).
    { rewrite length_skipn.
      pose proof (Nat.div_mod_eq (List.length l + 128 - 1) 128).
      pose proof (Nat.mod_upper_bound (List.length l + 128 - 1) 128).
      pose proof (Nat.div_mod_eq (List.length l - 128 + 128 - 1) 128).
      pose proof (Nat.mod_upper_bound (List.length l - 128 + 128 - 1) 128).
      lia. }
    specialize (IH (skipn 128 l) Hrest). cbv zeta in IH.
    assert (Ecs : cs = firstn 128 l
                       :: map (fun k => firstn 128 (skipn (k * 128) (skipn 128 l)))
                              (seq 0 m)).
    { unfold cs. simpl seq. rewrite <- seq_shift. cbn [map].
      rewrite map_map. f_equal. apply map_ext. intros k. rewrite skipn_skipn.
      do 2 f_equal. lia. }
    rewrite Ecs. clear Ecs cs.
    set (cs' := map (fun k => firstn 128 (skipn (k * 128) (skipn 128 l)))
                    (seq 0 m)) in *.
    destruct IH as [Hc [Hf Hlast]].
    assert (Hlen : (1 <= List.length l)%nat).
    { pose proof (Nat.div_mod_eq (List.length l + 128 - 1) 128).
      pose proof (Nat.mod_upper_bound (List.length l + 128 - 1) 128). lia. }
    split; [|split].
    + change (List.concat (firstn 128 l :: cs'))
        with (firstn 128 l ++ List.concat cs')%list.
      rewrite Hc. apply firstn_skipn.
    + destruct cs' as [|c cs''] eqn:Ecs'; [constructor|].
      change (removelast (firstn 128 l :: c :: cs''))
        with (firstn 128 l :: removelast (c :: cs'')).
      constructor; [|exact Hf].
      rewrite length_firstn.
      assert (m <> 0%nat).
      { intros ->. unfold cs' in Ecs'. discriminate Ecs'. }
      pose proof (Nat.div_mod_eq (List.length l + 128 - 1) 128).
      pose proof (Nat.mod_upper_bound (List.length l + 128 - 1) 128). lia.
    + intros _. destruct cs' as [|c cs''] eqn:Ecs'.
      * change (last [firstn 128 l] []) with (firstn 128 l).
        rewrite length_firstn.
        assert (m = 0%nat).
        { destruct m; [reflexivity|]. unfold cs' in Ecs'. discriminate Ecs'. }
        pose proof (Nat.div_mod_eq (List.length l + 128 - 1) 128).
        pose proof (Nat.mod_upper_bound (List.length l + 128 - 1) 128). lia.
      * change (last (firstn 128 l :: c :: cs'') [])
          with (last (c :: cs'') []).
        apply Hlast. intros E. rewrite E in Hc.
        destruct m; [unfold cs' in Ecs'; discriminate Ecs'|].
        rewrite E in Hrest. simpl in Hrest. discriminate Hrest.
Qed.

Lemma b64encode_nonempty : forall data,
  data <> [] -> list_ascii_of_string (Base64.b64encode data) <> [].
Proof.
  intros [|a [|b [|c rest]]] H; simpl; try discriminate. now contradiction H.
Qed.

Lemma removelast_map : forall (A B : Type) (f : A -> B) (l : list A),
  removelast (map f l) = map f (removelast l).
Proof.
  induction l as [|a l IH]; [reflexivity|].
  destruct l as [|b l]; [reflexivity|].
  change (f a :: removelast (map f (b :: l)) = f a :: map f (removelast (b :: l))).
  now rewrite IH.
Qed.

Lemma last_map : forall (A B : Type) (f : A -> B) (l : list A) (d : A),
  last (map f l) (f d) = f (last l d).
Proof.
  induction l as [|a l IH]; intros d; [reflexivity|].
  destruct l as [|b l]; [reflexivity|].
  change (last (map f (b :: l)) (f d) = f (last (b :: l) d)). apply IH.
Qed.

(** The payload lines that [print_output] sends for [data]. *)
Lemma print_output_parts : forall data,
  data <> [] ->
  wrapped_at_128 (Base64.b64encode data)
    (map (fun i => Py.slice (Base64.b64encode data) i (i + 128))
         (Py.range_step (Py.len (Base64.b64encode data)) 128)).
Proof.
  intros data Hd. set (encoded := Base64.b64encode data).
  set (l := list_ascii_of_string encoded).
  assert (Hm : ((List.length l + 128 - 1) / 128
                = (Py.len encoded + 128 - 1) / 128)%nat).
  { unfold l, Py.len. now rewrite <- string_of_list_length,
                                   string_of_list_ascii_of_string. }
  destruct (@slices_cover _ l Hm) as [Hc [Hf Hlast]].
  assert (E : map (fun i => Py.slice encoded i (i + 128))
                  (Py.range_step (Py.len encoded) 128)
              = map string_of_list_ascii
                    (map (fun k => firstn 128 (skipn (k * 128) l))
                         (seq 0 ((Py.len encoded + 128 - 1) / 128)))).
  { unfold Py.range_step. rewrite !map_map. apply map_ext. intros k.
    unfold Py.slice. fold l. do 2 f_equal. lia. }
  rewrite E. unfold wrapped_at_128. split; [|split].
  - rewrite concat_strings_of_lists, Hc. apply string_of_list_ascii_of_string.
  - rewrite removelast_map. apply Forall_map.
    eapply Forall_impl; [|exact Hf].
    intros c Hlen. now rewrite string_of_list_length.
  - change "" with (string_of_list_ascii []). rewrite last_map.
    rewrite string_of_list_length. apply Hlast.
    now apply b64encode_nonempty.
Qed.

Lemma with_stdout_twice : forall a b s,
  with_stdout a (with_stdout b s) = with_stdout a s.
Proof. now destruct s. Qed.

Lemma send_loud : forall text s,
  QUITTING s = false ->
  send text s = (Return tt, with_stdout (stdout s ++ [text]) s).
Proof. intros text s H. unfold send. now rewrite H. Qed.

Lemma send_each_loud : forall (A : Type) (f : A -> string) (l : list A) s,
  QUITTING s = false ->
  for_ l (fun a => send (f a)) s
  = (Return tt, with_stdout (stdout s ++ map f l) s).
Proof.
  induction l as [|a l IH]; intros s H; simpl.
  - unfold ret. now rewrite app_nil_r, with_stdout_same.
  - unfold bind. rewrite send_loud by assumption.
    rewrite IH by (now destruct s).
    rewrite with_stdout_twice. do 2 f_equal.
    destruct s; simpl. now rewrite <- app_assoc.
Qed.

Lemma print_output_loud : forall identifier pid channel islogin data s,
  QUITTING s = false ->
  print_output identifier pid channel islogin data s
  = (Return tt,
     with_stdout
       (stdout s
        ++ ["%output " ++ Py.str identifier ++ " " ++ Py.str pid ++ " "
            ++ (if islogin then "-1" else Py.str channel)]
        ++ map (fun i => Py.slice (Base64.b64encode data) i (i + 128))
               (Py.range_step (Py.len (Base64.b64encode data)) 128)
        ++ ["%end " ++ Py.str identifier])
       s).
Proof.
  intros identifier pid channel islogin data s H.
  unfold print_output. cbv zeta. unfold bind.
  assert (E : (if islogin
               then send ("%output " ++ Py.str identifier ++ " " ++ Py.str pid
                          ++ " -1")
               else send ("%output " ++ Py.str identifier ++ " " ++ Py.str pid
                          ++ " " ++ Py.str channel)) s
              = (Return tt,
                 with_stdout
                   (stdout s
                    ++ ["%output " ++ Py.str identifier ++ " " ++ Py.str pid
                        ++ " " ++ (if islogin then "-1" else Py.str channel)])
                   s)).
  { destruct islogin; now rewrite send_loud. }
  rewrite E. clear E.
  rewrite send_each_loud by (now destruct s).
  rewrite send_loud by (now destruct s).
  rewrite !with_stdout_twice. do 2 f_equal.
  destruct s; simpl. now rewrite <- !app_assoc.
Qed.

Lemma Forall_list_adjust : forall (A : Type) (P : A -> Prop) (f : A -> A)
    (l : list A) (k : nat),
  (forall x, P x -> P (f x)) -> Forall P l -> Forall P (list_adjust f l k).
Proof.
  induction l as [|x l IH]; intros [|k] Hf H; simpl; auto;
    inversion H; subst; constructor; auto.
Qed.

Lemma channel_1_depends : forall s s',
  pumps s' = pumps s -> pumps_on_channel_1 s -> pumps_on_channel_1 s'.
Proof. intros s s' E H. unfold pumps_on_channel_1. now rewrite E. Qed.

Lemma channel_1_framed_bg : framed_bg pumps_on_channel_1.
Proof.
  split; [split; [split|] | |];
    try (intros; apply send_keeps_stdout_free; clear; intros);
    intros;
    try match goal with
        | H : pumps_on_channel_1 ?s |- pumps_on_channel_1 (with_pumps _ ?s) =>
            fail 1
        | H : pumps_on_channel_1 ?s |- _ =>
            revert H; apply channel_1_depends; destruct s; reflexivity
        end.
  - unfold pumps_on_channel_1 in *. destruct s; simpl in *.
    apply Forall_app. split; [assumption|]. now constructor.
  - unfold pumps_on_channel_1 in *. destruct s; simpl in *.
    apply Forall_list_adjust; auto.
Qed.

Lemma reachable_channel_1 : forall trace,
  pumps_on_channel_1 (globals (run boot trace)).
Proof.
  intros trace.
  pose proof channel_1_framed_bg as HB.
  assert (H : machine_inv pumps_on_channel_1 pumps_on_channel_1
                          (run boot trace)).
  { apply run_keeps; auto.
    - apply (any_framed (bg_any HB)).
    - apply (any_framed (bg_any HB)).
    - intros. apply (handle_autopoll_keeps (bg_any HB));
        [apply (bg_tasks HB) | apply (bg_AUTOPOLL_TASK HB)].
    - intros. apply (handle_quit_keeps (bg_any HB));
        [apply (bg_tasks HB) | apply (bg_AUTOPOLL_TASK HB)].
    - intros. apply (autopoll_resume_keeps (bg_any HB)). apply (bg_tasks HB).
    - split; intros; constructor. }
  exact (proj1 H).
Qed.

(** The frame that a read pump prints for a non-empty read. *)
Lemma pump_resume_frame : forall w k p value s,
  nth_error (pumps s) k = Some p ->
  pump_running p = true ->
  pump_channel p = 1 ->
  value <> [] ->
  QUITTING s = false ->
  pump_resume w k value s
  = (Return tt,
     with_stdout
       (stdout s
        ++ ["%output " ++ Py.str (pump_identifier p) ++ " "
            ++ Py.str (pump_pid p) ++ " "
            ++ (if pump_islogin p then "-1" else "1")]
        ++ map (fun i => Py.slice (Base64.b64encode value) i (i + 128))
               (Py.range_step (Py.len (Base64.b64encode value)) 128)
        ++ ["%end " ++ Py.str (pump_identifier p)])
       s).
Proof.
  intros w k p value s Hk Hr Hc Hv Hq.
  unfold pump_resume, bind at 1, gets at 1. rewrite Hk, Hr.
  unfold bind, monitor_process.
  destruct value as [|b value]; [now contradiction Hv|].
  cbn [List.length Nat.eqb].
  rewrite print_output_loud by assumption. rewrite Hc. reflexivity.
Qed.

(** C7: [handle_login] starts its read pump with [islogin] true and
    [handle_run] with [islogin] false, both on channel 1; and in every
    state the agent can reach, a running read pump that reads a non-empty
    chunk while [QUITTING] is false prints exactly: the header
    [%output <identifier> <pid> <channel>] with channel [-1] for a login
    pump and [1] otherwise, the base64 text of the chunk cut into lines of
    exactly 128 characters except for a last line of 1 to 128, and
    [%end <identifier>]. *)
Theorem output_frame_format :
  (forall w identifier a rest pid s,
     spawned w = Some pid ->
     pumps (snd (handle_login w identifier (a :: rest) s))
     = (pumps s ++ [mkPump identifier pid true 1 true])%list)
  /\ (forall w identifier a rest pid s,
        spawned w = Some pid ->
        pumps (snd (handle_run w identifier (a :: rest) s))
        = (pumps s ++ [mkPump identifier pid false 1 true])%list)
  /\ (forall trace k p w value,
        nth_error (pumps (globals (run boot trace))) k = Some p ->
        pump_running p = true ->
        value <> [] ->
        QUITTING (globals (run boot trace)) = false ->
        exists parts,
          pump_resume w k value (globals (run boot trace))
          = (Return tt,
             with_stdout
               (stdout (globals (run boot trace))
                ++ ["%output " ++ Py.str (pump_identifier p) ++ " "
                    ++ Py.str (pump_pid p) ++ " "
                    ++ (if pump_islogin p then "-1" else "1")]
                ++ parts
                ++ ["%end " ++ Py.str (pump_identifier p)])
               (globals (run boot trace)))
          /\ wrapped_at_128 (Base64.b64encode value) parts).
Proof.
  split; [|split].
  - intros w identifier a rest pid s Hs.
    unfold handle_login. rewrite Hs.
    unfold begin, end_, send, handle_read, bind, modify, ret.
    destruct s as [procs completed quitting registered lastps armed task out ts ps].
    destruct quitting; reflexivity.
  - intros w identifier a rest pid s Hs.
    unfold handle_run. rewrite Hs.
    unfold begin, end_, send, handle_read, bind, modify, ret.
    destruct s as [procs completed quitting registered lastps armed task out ts ps].
    destruct quitting; reflexivity.
  - intros trace k p w value Hk Hr Hv Hq.
    exists (map (fun i => Py.slice (Base64.b64encode value) i (i + 128))
                (Py.range_step (Py.len (Base64.b64encode value)) 128)).
    split.
    + apply pump_resume_frame; auto.
      pose proof (reachable_channel_1 trace) as H.
      unfold pumps_on_channel_1 in H. rewrite Forall_forall in H.
      apply H. eapply nth_error_In, Hk.
    + now apply print_output_parts.
Qed.

Lemma output_frame_format_witness :
  exists parts,
    pump_resume (mkWorld 78 None 0 "" None (fun _ => 0) (fun l => l) 100)
                0 [Byte.x68; Byte.x69; Byte.x0a]
                (globals (run boot [(Request ["run"; "cat"],
                                     mkWorld 77 (Some 500) 0 "" None
                                             (fun _ => 0) (fun l => l) 100)]))
    = (Return tt,
       with_stdout
         (stdout (globals (run boot [(Request ["run"; "cat"],
                                      mkWorld 77 (Some 500) 0 "" None
                                              (fun _ => 0) (fun l => l) 100)]))
          ++ ["%output 77 500 1"] ++ parts ++ ["%end 77"])
         (globals (run boot [(Request ["run"; "cat"],
                              mkWorld 77 (Some 500) 0 "" None
                                      (fun _ => 0) (fun l => l) 100)])))
    /\ wrapped_at_128 (Base64.b64encode [Byte.x68; Byte.x69; Byte.x0a]) parts.
Proof.
  refine (proj2 (proj2 output_frame_format)
            [(Request ["run"; "cat"],
              mkWorld 77 (Some 500) 0 "" None (fun _ => 0) (fun l => l) 100)]
            0%nat (mkPump 77 500 false 1 true)
            (mkWorld 78 None 0 "" None (fun _ => 0) (fun l => l) 100)
            [Byte.x68; Byte.x69; Byte.x0a] eq_refl eq_refl _ eq_refl).
  discriminate.
Defined.

(* ===================================================================== *)
(** ** Dictionaries *)
(* ===================================================================== *)

Lemma get_set_same : forall (V : Type) (d : Dict.t V) k v,
  Dict.get (Dict.set d k v) k = Some v.
Proof.
  induction d as [|[k' v'] d IH]; intros k v; simpl.
  - now rewrite String.eqb_refl.
  - destruct (String.eqb k' k) eqn:E; simpl; rewrite E; auto.
Qed.

Lemma get_set_other : forall (V : Type) (d : Dict.t V) k k' v,
  k <> k' -> Dict.get (Dict.set d k v) k' = Dict.get d k'.
Proof.
  induction d as [|[k0 v0] d IH]; intros k k' v H; simpl.
  - apply String.eqb_neq in H. now rewrite H.
  - destruct (String.eqb k0 k) eqn:E; simpl.
    + apply String.eqb_eq in E. subst k0.
      apply String.eqb_neq in H. now rewrite H.
    + destruct (String.eqb k0 k'); auto.
Qed.

Lemma keys_set : forall (V : Type) (d : Dict.t V) k v,
  Dict.keys (Dict.set d k v)
  = if Dict.mem d k then Dict.keys d else (Dict.keys d ++ [k])%list.
Proof.
  unfold Dict.mem.
  induction d as [|[k' v'] d IH]; intros k v; simpl; [reflexivity|].
  destruct (String.eqb k' k) eqn:E; simpl; [reflexivity|].
  rewrite IH. now destruct (Dict.get d k).
Qed.

Lemma in_keys_get : forall (V : Type) (d : Dict.t V) k,
  In k (Dict.keys d) <-> Dict.get d k <> None.
Proof.
  induction d as [|[k' v'] d IH]; intros k; simpl.
  - split; [intros [] | intros H; now contradiction H].
  - destruct (String.eqb k' k) eqn:E.
    + apply String.eqb_eq in E. split; [discriminate | now left].
    + apply String.eqb_neq in E. rewrite <- IH.
      split; [intros [H|H]; [contradiction | exact H] | now right].
Qed.

Lemma mem_false_iff : forall (V : Type) (d : Dict.t V) k,
  Dict.mem d k = false <-> Dict.get d k = None.
Proof.
  intros V d k. unfold Dict.mem.
  destruct (Dict.get d k); split; intros H; congruence.
Qed.

Lemma set_is_dict : forall (V : Type) (d : Dict.t V) k v,
  is_dict d -> is_dict (Dict.set d k v).
Proof.
  intros V d k v H. unfold is_dict in *. rewrite keys_set.
  destruct (Dict.mem d k) eqn:E; [assumption|].
  apply NoDup_app; [assumption | repeat constructor; intros [] |].
  intros x Hx [<-|[]]. apply in_keys_get in Hx.
  apply mem_false_iff in E. contradiction.
Qed.

(* ===================================================================== *)
(** ** The diff of two snapshots *)
(* ===================================================================== *)

Lemma row_eqb_eq : forall a b, row_eqb a b = true <-> a = b.
Proof.
  intros [a1 a2 a3 a4 a5] [b1 b2 b3 b4 b5]. unfold row_eqb; simpl.
  rewrite !andb_true_iff, !String.eqb_eq. split.
  - intros [[[[-> ->] ->] ->] ->]. reflexivity.
  - intros [= -> -> -> -> ->]. repeat split.
Qed.

Lemma map_exc_total : forall (A B : Type) (f : A -> pyres B) (g : A -> B)
    (l : list A),
  (forall a, In a l -> f a = Val (g a)) -> map_exc f l = Val (map g l).
Proof.
  induction l as [|a l IH]; intros H; simpl; [reflexivity|].
  rewrite H by now left. simpl. rewrite IH; [reflexivity|].
  intros b Hb. apply H. now right.
Qed.

Lemma concat_map_if : forall (A B : Type) (p : A -> bool) (g : A -> B)
    (l : list A),
  List.concat (map (fun a => if p a then [g a] else []) l)
  = map g (filter p l).
Proof.
  induction l as [|a l IH]; simpl; [reflexivity|].
  destruct (p a); simpl; now rewrite IH.
Qed.

(** C5, as amended: for two snapshots (dictionaries), and whatever order
    Python iterates sets in, [diff] returns: one line [+pid ppid stat
    lstart command] per pid that is in the current snapshot and not in
    the previous one, then one line [-pid] per pid that is in the
    previous and not in the current, then one line [~pid ppid stat lstart
    command] per pid that is in both with different rows.  The marker is
    followed by the pid at once, with no space in between. *)
Theorem diff_additions_removals_edits :
  forall (set_iter : list string -> list string) (results last : Dict.t row),
  (forall l, Permutation (set_iter l) l) ->
  is_dict results -> is_dict last ->
  exists lines,
    Monitor.diff set_iter results last = Val lines
    /\ diff_shape "+" "-" "~" results last lines.
Proof.
  intros set_iter results last Hperm Hres Hlast.
  set (added := set_iter (filter (fun k => negb (Dict.mem last k))
                                 (Dict.keys results))).
  set (removed := set_iter (filter (fun k => negb (Dict.mem results k))
                                   (Dict.keys last))).
  set (is_edit := fun pid =>
         match Dict.get results pid, Dict.get last pid with
         | Some r, Some r' => negb (row_eqb r r')
         | _, _ => false
         end).
  set (edited := filter is_edit (Dict.keys results)).
  exists (map (row_line "+" results) added
          ++ map (fun pid => ("-" ++ pid)%string) removed
          ++ map (row_line "~" results) edited)%list.
  assert (Hadd_in : forall pid, In pid added <->
            in_snapshot results pid /\ ~ in_snapshot last pid).
  { intros pid. unfold added, in_snapshot. split.
    - intros H. apply (Permutation_in _ (Hperm _)) in H.
      apply filter_In in H as [Hk Hm]. apply in_keys_get in Hk.
      apply negb_true_iff, mem_false_iff in Hm. split; auto.
    - intros [Hk Hm]. apply (Permutation_in _ (Permutation_sym (Hperm _))).
      apply filter_In. split; [now apply in_keys_get|].
      apply negb_true_iff, mem_false_iff.
      destruct (Dict.get last pid); [exfalso; apply Hm; discriminate | auto]. }
  assert (Hrem_in : forall pid, In pid removed <->
            in_snapshot last pid /\ ~ in_snapshot results pid).
  { intros pid. unfold removed, in_snapshot. split.
    - intros H. apply (Permutation_in _ (Hperm _)) in H.
      apply filter_In in H as [Hk Hm]. apply in_keys_get in Hk.
      apply negb_true_iff, mem_false_iff in Hm. split; auto.
    - intros [Hk Hm]. apply (Permutation_in _ (Permutation_sym (Hperm _))).
      apply filter_In. split; [now apply in_keys_get|].
      apply negb_true_iff, mem_false_iff.
      destruct (Dict.get results pid); [exfalso; apply Hm; discriminate | auto]. }
  split.
  - unfold Monitor.diff.
    rewrite map_exc_total with (g := row_line "+" results).
    2:{ intros pid Hin. fold added in Hin. apply Hadd_in in Hin as [Hk _].
        unfold in_snapshot in Hk. unfold subscript, row_line.
        destruct (Dict.get results pid); [reflexivity | now contradiction Hk]. }
    cbn [pybind].
    rewrite map_exc_total
      with (g := fun pid => if is_edit pid then [row_line "~" results pid]
                            else []).
    2:{ intros pid Hin. apply in_keys_get in Hin.
        unfold is_edit, subscript, row_line, Dict.mem.
        destruct (Dict.get results pid) as [r|]; [|now contradiction Hin].
        destruct (Dict.get last pid) as [r'|]; [|reflexivity].
        simpl. destruct (negb (row_eqb r r')); reflexivity. }
    cbn [pybind]. rewrite concat_map_if. reflexivity.
  - exists added, removed, edited. split; [reflexivity|].
    split; [|split; [exact Hadd_in|]].
    { eapply Permutation_NoDup; [apply Permutation_sym, Hperm|].
      now apply NoDup_filter. }
    split; [|split; [exact Hrem_in|]].
    { eapply Permutation_NoDup; [apply Permutation_sym, Hperm|].
      now apply NoDup_filter. }
    split; [now apply NoDup_filter|].
    intros pid. unfold edited. rewrite filter_In, in_keys_get. unfold is_edit.
    split.
    + intros [_ H].
      destruct (Dict.get results pid) as [r|]; [|discriminate].
      destruct (Dict.get last pid) as [r'|]; [|discriminate].
      exists r, r'. repeat split.
      intros E. apply row_eqb_eq in E. rewrite E in H. discriminate.
    + intros [r [r' [Hr [Hl Hne]]]]. rewrite Hr, Hl. split; [discriminate|].
      apply negb_true_iff. destruct (row_eqb r r') eqn:E; [|reflexivity].
      apply row_eqb_eq in E. contradiction.
Qed.

Lemma diff_additions_removals_edits_witness :
  exists lines,
    Monitor.diff (fun l => l)
                 [("1", Row "1" "0" "S" "Mon Jan  1 00:00:00 2024" "init")] []
    = Val lines
    /\ diff_shape "+" "-" "~"
                  [("1", Row "1" "0" "S" "Mon Jan  1 00:00:00 2024" "init")] []
                  lines.
Proof.
  apply diff_additions_removals_edits.
  - intros l. apply Permutation_refl.
  - unfold is_dict. simpl. constructor; [intros [] | constructor].
  - unfold is_dict. simpl. constructor.
Defined.

(** C5 as stated fails: the line of an addition is [+1 0 S ...], not
    [+ 1 0 S ...]: the list that [diff] returns has not the shape in which
    a space follows the marker. *)
Lemma diff_lines_have_no_space :
  Monitor.diff (fun l => l)
               [("1", Row "1" "0" "S" "Mon Jan  1 00:00:00 2024" "init")] []
  = Val ["+1 0 S Mon Jan  1 00:00:00 2024 init"]
  /\ ~ diff_shape "+ " "- " "~ "
                  [("1", Row "1" "0" "S" "Mon Jan  1 00:00:00 2024" "init")] []
                  ["+1 0 S Mon Jan  1 00:00:00 2024 init"].
Proof.
  split; [reflexivity|].
  intros [added [removed [edited [E [_ [_ [_ [Hr [_ He]]]]]]]]].
  assert (removed = []) as ->.
  { destruct removed as [|x removed]; [reflexivity|].
    destruct (proj1 (Hr x) (or_introl eq_refl)) as [H _].
    now contradiction H. }
  assert (edited = []) as ->.
  { destruct edited as [|x edited]; [reflexivity|].
    destruct (proj1 (He x) (or_introl eq_refl)) as [r [r' [_ [H _]]]].
    discriminate H. }
  destruct added as [|a [|b added]]; simpl in E; try discriminate E.
  injection E as E. unfold row_line in E.
  destruct (Dict.get _ a); simpl in E; discriminate E.
Qed.

(* ===================================================================== *)
(** ** The snapshot of a poll *)
(* ===================================================================== *)

Lemma valid_rows_not_defunct : forall output,
  Forall (fun r => defunct r = false) (valid_rows output).
Proof.
  intros output. unfold valid_rows. apply Forall_forall. intros r H.
  apply in_flat_map in H as [line [_ H]].
  destruct (parse line) as [r'|]; [|destruct H].
  destruct (defunct r') eqn:E; [destruct H|].
  destruct H as [<-|[]]. exact E.
Qed.

Lemma valid_rows_parsed : forall output r,
  In r (valid_rows output) <->
  exists line, In line (Py.split_lines output)
               /\ parse line = Some r /\ defunct r = false.
Proof.
  intros output r. unfold valid_rows. rewrite in_flat_map. split.
  - intros [line [Hl H]]. exists line.
    destruct (parse line) as [r'|]; [|destruct H].
    destruct (defunct r') eqn:E; [destruct H|].
    destruct H as [<-|[]]. auto.
  - intros [line [Hl [Hp Hd]]]. exists line. rewrite Hp, Hd.
    split; [assumption | now left].
Qed.

Lemma record_row_as_fold : forall (t : tables) (parsed : option row),
  record_row t parsed
  = fold_left record_row
      (map Some match parsed with
                | Some r => if defunct r then [] else [r]
                | None => []
                end) t.
Proof.
  intros t [r|]; [|reflexivity].
  unfold record_row.
  destruct (defunct r) eqn:E; cbn [map fold_left]; [reflexivity|].
  now rewrite E.
Qed.

(** Stated for any parser, so that no proof step has to look inside the
    regular expression. *)
Lemma fold_rows_of_lines :
  forall (prs : string -> option row) (lines : list string) (t : tables),
  fold_left record_row (map prs lines) t
  = fold_left record_row
      (map Some
         (flat_map (fun line => match prs line with
                                | Some r => if defunct r then [] else [r]
                                | None => []
                                end) lines)) t.
Proof.
  intros prs. induction lines as [|line lines IH]; intros t; [reflexivity|].
  cbn [map fold_left flat_map].
  rewrite map_app, fold_left_app, IH. now rewrite <- record_row_as_fold.
Qed.

Lemma build_tables_valid_rows : forall output,
  build_tables output = tables_of (valid_rows output).
Proof. intros output. exact (fold_rows_of_lines parse _ _). Qed.

Lemma tables_of_snoc : forall rows r,
  defunct r = false ->
  tables_of (rows ++ [r])
  = Tables (Dict.set (parent (tables_of rows)) (r_pid r) (r_ppid r))
           (Dict.set (children (tables_of rows)) (r_ppid r)
                     (children_of (children (tables_of rows)) (r_ppid r)
                      ++ [r_pid r])%list)
           (Dict.set (index (tables_of rows)) (r_pid r) r).
Proof.
  intros rows r H. unfold tables_of.
  rewrite map_app, fold_left_app. cbn [map fold_left record_row].
  now rewrite H.
Qed.

Lemma nil_or_snoc : forall (A : Type) (l : list A),
  l = [] \/ exists l' a, l = (l' ++ [a])%list.
Proof.
  intros A l. destruct l as [|x l] using rev_ind; [now left|].
  right. now exists l, x.
Qed.

(** The index holds, for each pid, the last row with that pid. *)
Lemma index_last_with_pid : forall rows pid r,
  Forall (fun r => defunct r = false) rows ->
  Dict.get (index (tables_of rows)) pid = Some r <-> last_with_pid rows pid r.
Proof.
  induction rows as [|x rows IH] using rev_ind; intros pid r Hd.
  - simpl. split; [discriminate|].
    intros [before [after [E _]]]. destruct before; discriminate E.
  - apply Forall_app in Hd as [Hd Hx]. inversion Hx as [|? ? Hxd _]; subst.
    rewrite tables_of_snoc by assumption. cbn [index].
    destruct (String.eqb (r_pid x) pid) eqn:E.
    + apply String.eqb_eq in E. subst pid. rewrite get_set_same. split.
      * intros [= <-]. exists rows, []. repeat split. constructor.
      * intros [before [after [Eq [Hp Ha]]]].
        destruct (nil_or_snoc after) as [->|[after' [y ->]]].
        -- apply app_inj_tail in Eq as [_ ->]. reflexivity.
        -- exfalso. rewrite app_comm_cons, app_assoc in Eq.
           apply app_inj_tail in Eq as [_ <-].
           apply Forall_app in Ha as [_ Hy]. inversion Hy; subst. auto.
    + apply String.eqb_neq in E. rewrite get_set_other by assumption.
      rewrite IH by assumption. split.
      * intros [before [after [Eq [Hp Ha]]]].
        exists before, (after ++ [x])%list. subst rows.
        rewrite <- app_assoc. repeat split; auto.
        apply Forall_app. split; [assumption|]. now constructor.
      * intros [before [after [Eq [Hp Ha]]]].
        destruct (nil_or_snoc after) as [->|[after' [y ->]]].
        -- apply app_inj_tail in Eq as [_ ->]. contradiction.
        -- rewrite app_comm_cons, app_assoc in Eq.
           apply app_inj_tail in Eq as [-> <-].
           apply Forall_app in Ha as [Ha _].
           exists before, after'. auto.
Qed.

(** The child index holds, for each ppid, the pids of its rows. *)
Lemma children_of_rows : forall rows p c,
  Forall (fun r => defunct r = false) rows ->
  In c (children_of (children (tables_of rows)) p) <->
  exists r, In r rows /\ r_pid r = c /\ r_ppid r = p.
Proof.
  induction rows as [|x rows IH] using rev_ind; intros p c Hd.
  - simpl. split; [intros [] | intros [r [[] _]]].
  - apply Forall_app in Hd as [Hd Hx]. inversion Hx as [|? ? Hxd _]; subst.
    rewrite tables_of_snoc by assumption. cbn [children].
    unfold children_of at 1.
    destruct (String.eqb (r_ppid x) p) eqn:E.
    + apply String.eqb_eq in E. subst p. rewrite get_set_same.
      rewrite in_app_iff, IH by assumption. split.
      * intros [[r [Hr Hp]]|[<-|[]]].
        -- exists r. split; [apply in_or_app; now left | exact Hp].
        -- exists x. split; [apply in_or_app; right; now left | auto].
      * intros [r [Hr [Hc Hp]]]. apply in_app_or in Hr as [Hr|[<-|[]]].
        -- left. now exists r.
        -- right. now left.
    + apply String.eqb_neq in E. rewrite get_set_other by assumption.
      fold (children_of (children (tables_of rows)) p).
      rewrite IH by assumption. split.
      * intros [r [Hr Hp]]. exists r.
        split; [apply in_or_app; now left | exact Hp].
      * intros [r [Hr [Hc Hp]]]. apply in_app_or in Hr as [Hr|[<-|[]]].
        -- now exists r.
        -- contradiction.
Qed.

Lemma indexed_rows : forall rows pid,
  Forall (fun r => defunct r = false) rows ->
  Dict.get (index (tables_of rows)) pid <> None <->
  exists r, In r rows /\ r_pid r = pid.
Proof.
  induction rows as [|x rows IH] using rev_ind; intros pid Hd.
  - simpl. split; [intros H; now contradiction H | intros [r [[] _]]].
  - apply Forall_app in Hd as [Hd Hx]. inversion Hx as [|? ? Hxd _]; subst.
    rewrite tables_of_snoc by assumption. cbn [index].
    destruct (String.eqb (r_pid x) pid) eqn:E.
    + apply String.eqb_eq in E. subst pid. rewrite get_set_same.
      split; [|discriminate]. intros _. exists x.
      split; [apply in_or_app; right; now left | reflexivity].
    + apply String.eqb_neq in E. rewrite get_set_other by assumption.
      rewrite IH by assumption. split.
      * intros [r [Hr Hp]]. exists r.
        split; [apply in_or_app; now left | exact Hp].
      * intros [r [Hr Hp]]. apply in_app_or in Hr as [Hr|[<-|[]]].
        -- now exists r.
        -- contradiction.
Qed.

Lemma tables_of_is_dict : forall rows,
  Forall (fun r => defunct r = false) rows -> is_dict (index (tables_of rows)).
Proof.
  induction rows as [|x rows IH] using rev_ind; intros Hd.
  - constructor.
  - apply Forall_app in Hd as [Hd Hx]. inversion Hx as [|? ? Hxd _]; subst.
    rewrite tables_of_snoc by assumption. cbn [index].
    apply set_is_dict. now apply IH.
Qed.

(** *** Descendants *)

Lemma descendant_trans : forall rows a b c,
  descendant rows a b -> descendant rows b c -> descendant rows a c.
Proof.
  intros rows a b c Hab Hbc. induction Hbc as [|r pid Hd IH Hin Hp]; auto.
  eapply descendant_child; eauto.
Qed.

Lemma descendant_step : forall rows r,
  In r rows -> descendant rows (r_ppid r) (r_pid r).
Proof.
  intros rows r H. eapply descendant_child; [apply descendant_self | exact H |].
  reflexivity.
Qed.

Lemma descendant_first : forall rows p k,
  descendant rows p k ->
  k = p \/ exists r, In r rows /\ r_ppid r = p /\ descendant rows (r_pid r) k.
Proof.
  intros rows p k H. induction H as [|r pid Hd IH Hin Hp]; [now left|].
  right. destruct IH as [->|[r0 [Hin0 [Hp0 Hd0]]]].
  - exists r. repeat split; auto. apply descendant_self.
  - exists r0. repeat split; auto. eapply descendant_child; eauto.
Qed.

(** *** The walk of [add] *)

Lemma for_each_union : forall (A : Type) (idx : Dict.t row)
    (body : A -> Dict.t row -> pyres (Dict.t row)) (R : A -> string -> Prop),
  (forall a res res',
     (forall k v, Dict.get res k = Some v -> Dict.get idx k = Some v) ->
     body a res = Val res' ->
     forall k v, Dict.get res' k = Some v <->
                 Dict.get res k = Some v \/ (R a k /\ Dict.get idx k = Some v)) ->
  forall l res res',
    (forall k v, Dict.get res k = Some v -> Dict.get idx k = Some v) ->
    for_each body l res = Val res' ->
    forall k v, Dict.get res' k = Some v <->
                Dict.get res k = Some v
                \/ ((exists a, In a l /\ R a k) /\ Dict.get idx k = Some v).
Proof.
  intros A idx body R Hbody.
  induction l as [|a l IH]; intros res res' Hinv H k v; simpl in H.
  - injection H as <-. split; [now left|].
    intros [H|[[a [[] _]] _]]. exact H.
  - destruct (body a res) as [res1|e] eqn:Ea; simpl in H; [|discriminate].
    pose proof (Hbody a res res1 Hinv Ea) as H1.
    assert (Hinv1 : forall k v, Dict.get res1 k = Some v ->
                                Dict.get idx k = Some v).
    { intros k0 v0 H0. apply H1 in H0 as [H0|[_ H0]]; auto. }
    rewrite (IH res1 res' Hinv1 H k v), H1. split.
    + intros [[Hr|[Hr Hi]]|[[b [Hb Hr]] Hi]]; auto.
      * right. split; [|exact Hi]. exists a. split; [now left | exact Hr].
      * right. split; [|exact Hi]. exists b. split; [now right | exact Hr].
    + intros [Hr|[[b [[<-|Hb] Hr]] Hi]]; auto.
      right. split; [|exact Hi]. now exists b.
Qed.

Lemma for_each_keeps : forall (A S : Type) (P : S -> Prop)
    (body : A -> S -> pyres S),
  (forall a s s', P s -> body a s = Val s' -> P s') ->
  forall l s s', P s -> for_each body l s = Val s' -> P s'.
Proof.
  intros A S P body Hb. induction l as [|a l IH]; intros s s' Hs H; simpl in H.
  - now injection H as <-.
  - destruct (body a s) as [s1|e] eqn:Ea; simpl in H; [|discriminate].
    eapply IH; [|exact H]. eapply Hb; eauto.
Qed.

Lemma for_each_total : forall (A S : Type) (body : A -> S -> pyres S)
    (l : list A),
  (forall a, In a l -> forall s, exists s', body a s = Val s') ->
  forall s, exists s', for_each body l s = Val s'.
Proof.
  induction l as [|a l IH]; intros Hb s; simpl.
  - now exists s.
  - destruct (Hb a (or_introl eq_refl) s) as [s1 E]. rewrite E. simpl.
    apply IH. intros b Hin. apply Hb. now right.
Qed.

Section Walk.
Variable rows : list row.
Hypothesis rows_ok : Forall (fun r => defunct r = false) rows.

Lemma add_is_dict : forall limit pid res res',
  is_dict res -> add (tables_of rows) limit pid res = Val res' -> is_dict res'.
Proof.
  induction limit as [|limit IH]; intros pid res res' Hres H; simpl in H.
  - discriminate.
  - destruct (Dict.get (index (tables_of rows)) pid) as [r|]; [|discriminate].
    eapply for_each_keeps; [| |exact H].
    + intros a s s'. apply IH.
    + now apply set_is_dict.
Qed.

(** [add] puts into [results] the rows of [pid] and of its descendants. *)
Lemma add_collects : forall limit pid res res',
  (forall k v, Dict.get res k = Some v ->
               Dict.get (index (tables_of rows)) k = Some v) ->
  add (tables_of rows) limit pid res = Val res' ->
  forall k v, Dict.get res' k = Some v <->
              Dict.get res k = Some v
              \/ (descendant rows pid k
                  /\ Dict.get (index (tables_of rows)) k = Some v).
Proof.
  induction limit as [|limit IH]; intros pid res res' Hinv H k v; simpl in H.
  - discriminate.
  - destruct (Dict.get (index (tables_of rows)) pid) as [r|] eqn:Er;
      [|discriminate].
    assert (Hinv1 : forall k v, Dict.get (Dict.set res pid r) k = Some v ->
                                Dict.get (index (tables_of rows)) k = Some v).
    { intros k0 v0 H0. destruct (String.eqb pid k0) eqn:E.
      - apply String.eqb_eq in E. subst k0.
        rewrite get_set_same in H0. now rewrite <- H0.
      - apply String.eqb_neq in E.
        rewrite get_set_other in H0 by assumption. now apply Hinv. }
    rewrite (@for_each_union string (index (tables_of rows))
               (add (tables_of rows) limit)
               (fun c k => descendant rows c k)
               IH _ _ _ Hinv1 H k v).
    split.
    + intros [Hs|[[c [Hc Hd]] Hi]].
      * destruct (String.eqb pid k) eqn:E.
        -- apply String.eqb_eq in E. subst k. rewrite get_set_same in Hs.
           right. split; [apply descendant_self | now rewrite <- Hs].
        -- apply String.eqb_neq in E.
           rewrite get_set_other in Hs by assumption. now left.
      * right. split; [|exact Hi].
        apply children_of_rows in Hc as [r0 [Hin [<- <-]]]; [|assumption].
        eapply descendant_trans; [apply descendant_step; exact Hin | exact Hd].
    + intros [Hs|[Hd Hi]].
      * left. destruct (String.eqb pid k) eqn:E.
        -- apply String.eqb_eq in E. subst k. rewrite get_set_same.
           apply Hinv in Hs. rewrite Er in Hs. exact Hs.
        -- apply String.eqb_neq in E. now rewrite get_set_other.
      * apply descendant_first in Hd as [->|[r0 [Hin [Hp Hd]]]].
        -- left. rewrite get_set_same. now rewrite <- Er.
        -- right. split; [|exact Hi]. exists (r_pid r0). split; [|exact Hd].
           apply children_of_rows; [assumption|]. now exists r0.
Qed.

(** With enough stack for the depth of the tree below it, [add] returns:
    it is enough that the pids of a set [P] that holds [pid] and is closed
    under children can be ranked below their parents. *)
Lemma add_returns : forall (P : string -> Prop) (rank : string -> nat),
  (forall r, In r rows -> P (r_ppid r) -> P (r_pid r)) ->
  (forall r, In r rows -> P (r_ppid r) ->
             (rank (r_pid r) < rank (r_ppid r))%nat) ->
  forall limit pid res,
    P pid ->
    (rank pid < limit)%nat ->
    Dict.get (index (tables_of rows)) pid <> None ->
    exists res', add (tables_of rows) limit pid res = Val res'.
Proof.
  intros P rank Hclosed Hrank.
  induction limit as [|limit IH]; intros pid res HP Hlt Hidx; [lia|].
  simpl. destruct (Dict.get (index (tables_of rows)) pid) as [r|];
    [|now contradiction Hidx].
  apply for_each_total. intros c Hc s.
  apply children_of_rows in Hc as [r0 [Hin [<- <-]]]; [|assumption].
  apply IH.
  - now apply Hclosed.
  - specialize (Hrank r0 Hin HP). lia.
  - apply indexed_rows; [assumption|]. now exists r0.
Qed.

End Walk.

Lemma mem_true_iff : forall (V : Type) (d : Dict.t V) k,
  Dict.mem d k = true <-> Dict.get d k <> None.
Proof.
  intros V d k. unfold Dict.mem.
  destruct (Dict.get d k); split; intros H; congruence.
Qed.

(** The dictionary that the loop over [REGISTERED] fills. *)
Lemma walk_registered : forall rows limit registered results,
  Forall (fun r => defunct r = false) rows ->
  for_each (add_root (tables_of rows) limit) registered [] = Val results ->
  is_dict results
  /\ forall pid r,
       Dict.get results pid = Some r <->
       last_with_pid rows pid r /\ tracked rows registered pid.
Proof.
  intros rows limit registered results Hd H. split.
  - eapply for_each_keeps with (P := is_dict (V := row)); [| |exact H].
    + intros root s s' Hs E. unfold add_root in E.
      destruct (Dict.mem (index (tables_of rows)) (Py.str root)).
      * eapply add_is_dict; eauto.
      * now injection E as <-.
    + constructor.
  - intros pid r.
    rewrite (@for_each_union Z (index (tables_of rows))
               (add_root (tables_of rows) limit)
               (fun root k =>
                  Dict.mem (index (tables_of rows)) (Py.str root) = true
                  /\ descendant rows (Py.str root) k)
               ) with (l := registered) (res := []) (res' := results);
      [| |discriminate|exact H].
    + rewrite index_last_with_pid by assumption. unfold tracked. split.
      * intros [Hn|[[root [Hin [Hm Hdesc]]] Hi]]; [discriminate Hn|].
        split; [exact Hi|]. exists root. split; [exact Hin|].
        split; [|exact Hdesc].
        apply mem_true_iff, indexed_rows in Hm; assumption.
      * intros [Hi [root [Hin [Hrow Hdesc]]]]. right. split; [|exact Hi].
        exists root. split; [exact Hin|]. split; [|exact Hdesc].
        apply mem_true_iff, indexed_rows; assumption.
    + intros root res res' Hinv E k v. unfold add_root in E.
      destruct (Dict.mem (index (tables_of rows)) (Py.str root)) eqn:Em.
      * rewrite (@add_collects rows Hd limit (Py.str root) res res' Hinv E k v).
        split.
        -- intros [Hr|[Hdesc Hi]]; auto.
        -- intros [Hr|[[_ Hdesc] Hi]]; auto.
      * injection E as <-. split; [now left|].
        intros [Hr|[[Hf _] _]]; [exact Hr | discriminate Hf].
Qed.

Lemma walk_registered_returns : forall rows (rank : string -> nat) registered,
  Forall (fun r => defunct r = false) rows ->
  (forall r, In r rows -> tracked rows registered (r_ppid r) ->
             (rank (r_pid r) < rank (r_ppid r))%nat) ->
  exists limit0, forall limit, (limit0 <= limit)%nat ->
    exists results,
      for_each (add_root (tables_of rows) limit) registered [] = Val results.
Proof.
  intros rows rank registered Hd Hrank.
  exists (S (list_max (map (fun root => rank (Py.str root)) registered))).
  intros limit Hlimit. apply for_each_total. intros root Hin s.
  unfold add_root.
  destruct (Dict.mem (index (tables_of rows)) (Py.str root)) eqn:Em;
    [|now exists s].
  apply mem_true_iff in Em.
  apply (@add_returns rows Hd (tracked rows registered) rank).
  - intros r Hr [root0 [Hin0 [Hrow Hdesc]]]. exists root0.
    split; [exact Hin0|]. split; [exact Hrow|].
    eapply descendant_child; eauto.
  - exact Hrank.
  - exists root. split; [exact Hin|]. split; [|apply descendant_self].
    now apply indexed_rows in Em.
  - assert (Hle : Forall (fun k => (k <= list_max
                            (map (fun root => rank (Py.str root)) registered))%nat)
                         (map (fun root => rank (Py.str root)) registered))
      by (apply list_max_le; lia).
    rewrite Forall_forall in Hle.
    specialize (Hle (rank (Py.str root))
                    (in_map (fun root => rank (Py.str root)) _ _ Hin)).
    lia.
  - exact Em.
Qed.

Lemma last_with_pid_unique : forall rows pid r,
  NoDup (map r_pid rows) ->
  last_with_pid rows pid r <-> In r rows /\ r_pid r = pid.
Proof.
  intros rows pid r Hn. split.
  - intros [before [after [-> [Hp _]]]]. split; [|exact Hp].
    apply in_or_app. right. now left.
  - intros [Hin Hp]. apply in_split in Hin as [before [after ->]].
    exists before, after. repeat split; auto.
    rewrite map_app in Hn. simpl in Hn. apply NoDup_remove_2 in Hn.
    apply Forall_forall. intros r' Hr' E. apply Hn.
    apply in_or_app. right. rewrite Hp, <- E. now apply in_map.
Qed.

(** C6, as amended.  The rows of a [ps] output are those of the lines
    that match the regular expression and whose command is not wrapped in
    parentheses.  Whenever the poll produces its snapshot (the walk of
    [add] stays within the recursion limit), the snapshot is a dictionary
    that maps a pid to a row exactly when the row is the LAST such row
    with that pid and the pid is tracked: it is a registered pid (as a
    string) that has a row, or a transitive descendant of one through the
    ppid of the rows.  When the output lists every pid once, these are
    exactly the rows whose pid is tracked.  The snapshot is produced, for
    every large enough recursion limit, when no tracked row is its own
    ancestor (the pids of the rows with a tracked parent can be ranked
    below their parents). *)
Theorem snapshot_tracks_registered_trees :
  forall (registered : list Z) (output : string),
  (forall r, In r (valid_rows output) <->
             exists line, In line (Py.split_lines output)
                          /\ parse line = Some r /\ defunct r = false)
  /\ (forall limit results,
        snapshot limit registered output = Val results ->
        is_dict results
        /\ (forall pid r,
              Dict.get results pid = Some r <->
              last_with_pid (valid_rows output) pid r
              /\ tracked (valid_rows output) registered pid)
        /\ (NoDup (map r_pid (valid_rows output)) ->
            forall r,
              (exists pid, Dict.get results pid = Some r) <->
              In r (valid_rows output)
              /\ tracked (valid_rows output) registered (r_pid r)))
  /\ (forall rank : string -> nat,
        (forall r, In r (valid_rows output) ->
                   tracked (valid_rows output) registered (r_ppid r) ->
                   (rank (r_pid r) < rank (r_ppid r))%nat) ->
        exists limit0, forall limit, (limit0 <= limit)%nat ->
          exists results, snapshot limit registered output = Val results).
Proof.
  intros registered output.
  pose proof (valid_rows_not_defunct output) as Hd.
  split; [apply valid_rows_parsed|]. split.
  - intros limit results H. unfold snapshot in H.
    rewrite build_tables_valid_rows in H.
    destruct (@walk_registered _ limit registered results Hd H)
      as [Hdict Hget].
    split; [exact Hdict|]. split; [exact Hget|].
    intros Hn r. split.
    + intros [pid Hr]. apply Hget in Hr as [Hl Ht].
      apply last_with_pid_unique in Hl as [Hin <-]; auto.
    + intros [Hin Ht]. exists (r_pid r). apply Hget. split; [|exact Ht].
      apply last_with_pid_unique; auto.
  - intros rank Hrank.
    destruct (@walk_registered_returns _ rank registered Hd Hrank)
      as [limit0 H].
    exists limit0. intros limit Hl. unfold snapshot.
    rewrite build_tables_valid_rows. now apply H.
Qed.

(** C6 as stated fails on an output with two rows for one pid: the first
    row matches the regular expression, is not defunct and has the
    registered pid 1, yet the snapshot holds only the second. *)
Lemma snapshot_keeps_last_duplicate :
  let line1 := "1 0 S Mon Jan 1 00:00:00 2024 a" in
  let line2 := "1 0 R Mon Jan 1 00:00:00 2024 b" in
  let output := line1 ++ String Py.newline line2 in
  let r1 := Row "1" "0" "S" "Mon Jan 1 00:00:00 2024" "a" in
  let r2 := Row "1" "0" "R" "Mon Jan 1 00:00:00 2024" "b" in
  Py.split_lines output = [line1; line2]
  /\ parse line1 = Some r1
  /\ defunct r1 = false
  /\ In r1 (valid_rows output)
  /\ tracked (valid_rows output) [1] (r_pid r1)
  /\ snapshot 10 [1] output = Val [("1", r2)]
  /\ forall pid, Dict.get [("1", r2)] pid <> Some r1.
Proof.
  cbv zeta.
  assert (E : valid_rows ("1 0 S Mon Jan 1 00:00:00 2024 a"
                          ++ String Py.newline "1 0 R Mon Jan 1 00:00:00 2024 b")
              = [Row "1" "0" "S" "Mon Jan 1 00:00:00 2024" "a";
                 Row "1" "0" "R" "Mon Jan 1 00:00:00 2024" "b"])
    by (vm_compute; reflexivity).
  split; [vm_compute; reflexivity|].
  split; [vm_compute; reflexivity|].
  split; [vm_compute; reflexivity|].
  rewrite E.
  split; [now left|].
  split.
  { exists 1. split; [now left|]. split.
    - eexists. split; [now left | reflexivity].
    - apply descendant_self. }
  split; [vm_compute; reflexivity|].
  intros pid. unfold Dict.get.
  destruct (String.eqb "1" pid); intros H; inversion H.
Qed.

(** ** Worked examples *)

Example parse_ps_line :
  parse "  501  1234 Ss+  Tue Feb 13 10:20:30 2024 /bin/zsh -l"
  = Some (Row "501" "1234" "Ss+" "Tue Feb 13 10:20:30 2024" "/bin/zsh -l").
Proof. vm_compute. reflexivity. Qed.

Example parse_header_line :
  parse "  PID  PPID STAT                          STARTED COMMAND" = None.
Proof. vm_compute. reflexivity. Qed.

Example snapshot_of_a_tree :
  let output :=
    "    1     0 Ss   Mon Jan  1 00:00:00 2024 /sbin/init"
    ++ String Py.newline
    ("   12     1 S    Tue Feb 13 10:20:30 2024 bash -l"
     ++ String Py.newline
     ("   13    12 Z    Tue Feb 13 10:20:31 2024 (sh)"
      ++ String Py.newline
      "   14    12 R+   Tue Feb 13 10:20:32 2024 ps -eo pid")) in
  option_map (@Dict.keys row)
             (match snapshot 10 [12] output with
              | Val d => Some d
              | Exc _ => None
              end)
  = Some ["12"; "14"]
  /\ snapshot 1 [12] output = Exc RecursionError.
Proof. cbv zeta. split; vm_compute; reflexivity. Qed.

Example snapshot_of_a_cycle :
  snapshot 50 [0] "0 0 Ss Mon Jan 1 00:00:00 2024 kernel_task"
  = Exc RecursionError.
Proof. vm_compute. reflexivity. Qed.

Example run_echo :
  stdout (globals (run boot
    [(Request ["run"; "echo hi"],
      mkWorld 77 (Some 500) 0 "" None (fun _ => 0) (fun l => l) 100);
     (PumpRead 0 [Byte.x68; Byte.x69; Byte.x0a],
      mkWorld 78 None 0 "" None (fun _ => 0) (fun l => l) 100);
     (PumpRead 0 [],
      mkWorld 79 None 0 "" None (fun _ => 0) (fun l => l) 100)]))
  = ["begin 77"; "500"; "end 77 0";
     "%output 77 500 1"; "aGkK"; "%end 77";
     "%terminate 500 0"].
Proof. vm_compute. reflexivity. Qed.

(* ===================================================================== *)
(** * Further properties of the monitor *)
(* ===================================================================== *)

Lemma set_iter_nil : forall (set_iter : list string -> list string),
  (forall l, Permutation (set_iter l) l) -> set_iter [] = [].
Proof. intros set_iter H. apply Permutation_nil, Permutation_sym, H. Qed.

Lemma filter_none : forall (A : Type) (p : A -> bool) (l : list A),
  (forall a, In a l -> p a = false) -> filter p l = [].
Proof.
  induction l as [|a l IH]; intros H; simpl; [reflexivity|].
  rewrite H by now left. apply IH. intros b Hb. apply H. now right.
Qed.

Lemma filter_all : forall (A : Type) (p : A -> bool) (l : list A),
  (forall a, p a = true) -> filter p l = l.
Proof.
  induction l as [|a l IH]; intros H; simpl; [reflexivity|].
  rewrite H. now rewrite IH.
Qed.

Lemma concat_nils : forall (A B : Type) (l : list A),
  List.concat (map (fun _ => @nil B) l) = [].
Proof. induction l as [|a l IH]; simpl; auto. Qed.

Lemma row_eqb_refl : forall r, row_eqb r r = true.
Proof. intros r. now apply row_eqb_eq. Qed.

(** The diff of a snapshot against itself is empty. *)
Lemma diff_self : forall set_iter (d : Dict.t row),
  set_iter [] = [] -> Monitor.diff set_iter d d = Val [].
Proof.
  intros set_iter d Hnil. unfold Monitor.diff.
  rewrite filter_none.
  2:{ intros k Hk. apply in_keys_get, mem_true_iff in Hk. now rewrite Hk. }
  rewrite Hnil. cbn [map_exc pybind map].
  rewrite map_exc_total with (g := fun _ => @nil string).
  - cbn [pybind]. now rewrite concat_nils.
  - intros pid Hin. apply in_keys_get in Hin.
    unfold Dict.mem, subscript.
    destruct (Dict.get d pid) as [r|]; [|now contradiction Hin].
    simpl. now rewrite row_eqb_refl.
Qed.

(** The diff against the empty snapshot holds one addition per pid. *)
Lemma diff_from_empty : forall set_iter (d : Dict.t row),
  (forall l, Permutation (set_iter l) l) ->
  Monitor.diff set_iter d []
  = Val (map (row_line "+" d) (set_iter (Dict.keys d))).
Proof.
  intros set_iter d Hperm. unfold Monitor.diff.
  rewrite filter_all by reflexivity.
  rewrite map_exc_total with (g := row_line "+" d).
  2:{ intros pid Hin. apply (Permutation_in _ (Hperm _)) in Hin.
      apply in_keys_get in Hin. unfold subscript, row_line.
      destruct (Dict.get d pid); [reflexivity | now contradiction Hin]. }
  cbn [pybind Dict.keys map filter].
  rewrite (@set_iter_nil set_iter Hperm). cbn [map].
  rewrite map_exc_total with (g := fun _ => @nil string)
    by (intros; reflexivity).
  cbn [pybind]. now rewrite concat_nils, app_nil_r.
Qed.

(** X1: a poll that succeeds, repeated at once on the same [ps] output,
    returns the empty diff and leaves the state as the first poll left
    it. *)
Theorem second_poll_is_empty :
  forall (w : world) (output : string) (s : agent) (lines : list string),
  (forall l, Permutation (set_iter w l) l) ->
  fst (procmon_parse w output s) = Return lines ->
  procmon_parse w output (snd (procmon_parse w output s))
  = (Return [], snd (procmon_parse w output s)).
Proof.
  intros w output s lines Hperm H.
  unfold procmon_parse, bind, gets, modify in *. simpl in *.
  destruct (snapshot (depth w) (REGISTERED s) output) as [results|e] eqn:Es;
    simpl in *; [|discriminate].
  destruct (diff (set_iter w) results (LASTPS s)) as [ls|e]; simpl in *;
    [|discriminate].
  rewrite Es. simpl.
  rewrite diff_self by (now apply set_iter_nil). simpl.
  now destruct s.
Qed.

Lemma second_poll_is_empty_witness :
  let w := mkWorld 77 None 0 "1 0 S Mon Jan 1 00:00:00 2024 init" None
                   (fun _ => 0) (fun l => l) 100 in
  let s := with_REGISTERED [1] initial in
  procmon_parse w (ps_output w) (snd (procmon_parse w (ps_output w) s))
  = (Return [], snd (procmon_parse w (ps_output w) s)).
Proof.
  cbv zeta.
  apply (@second_poll_is_empty _ _ _
           ["+1 0 S Mon Jan 1 00:00:00 2024 init"]).
  - intros l. apply Permutation_refl.
  - vm_compute. reflexivity.
Defined.

(** X2: with no previous snapshot (as after [reset]), a poll that
    succeeds returns exactly one line [+pid ppid stat lstart command] for
    every pid of the new snapshot, no removal and no edit, and stores the
    snapshot in [LASTPS]. *)
Theorem poll_without_previous_snapshot :
  forall (w : world) (output : string) (s : agent) (results : Dict.t row),
  (forall l, Permutation (set_iter w l) l) ->
  LASTPS s = [] ->
  snapshot (depth w) (REGISTERED s) output = Val results ->
  exists lines,
    procmon_parse w output s = (Return lines, with_LASTPS results s)
    /\ Permutation lines (map (row_line "+" results) (Dict.keys results)).
Proof.
  intros w output s results Hperm Hlast Hsnap.
  exists (map (row_line "+" results) (set_iter w (Dict.keys results))).
  split.
  - unfold procmon_parse, bind, gets, modify. simpl.
    rewrite Hsnap. simpl. rewrite Hlast.
    now rewrite diff_from_empty.
  - apply Permutation_map, Hperm.
Qed.

Lemma poll_without_previous_snapshot_witness :
  let w := mkWorld 77 None 0 "1 0 S Mon Jan 1 00:00:00 2024 init" None
                   (fun _ => 0) (fun l => l) 100 in
  let s := with_REGISTERED [1] initial in
  let results := [("1", Row "1" "0" "S" "Mon Jan 1 00:00:00 2024" "init")] in
  exists lines,
    procmon_parse w (ps_output w) s = (Return lines, with_LASTPS results s)
    /\ Permutation lines (map (row_line "+" results) (Dict.keys results)).
Proof.
  cbv zeta. apply poll_without_previous_snapshot.
  - intros l. apply Permutation_refl.
  - reflexivity.
  - vm_compute. reflexivity.
Defined.

Lemma last_with_pid_in : forall rows pid r,
  last_with_pid rows pid r -> In r rows /\ r_pid r = pid.
Proof.
  intros rows pid r [before [after [-> [Hp _]]]]. split; [|exact Hp].
  apply in_or_app. right. now left.
Qed.

(** X3: every row of a snapshot is stored under its own pid, comes from a
    line of the [ps] output that matches the regular expression, and is
    not a defunct entry (its command is not wrapped in parentheses). *)
Theorem snapshot_rows_are_valid :
  forall (limit : nat) (registered : list Z) (output : string)
         (results : Dict.t row) (pid : string) (r : row),
  snapshot limit registered output = Val results ->
  Dict.get results pid = Some r ->
  r_pid r = pid
  /\ defunct r = false
  /\ exists line, In line (Py.split_lines output) /\ parse line = Some r.
Proof.
  intros limit registered output results pid r Hsnap Hget.
  unfold snapshot in Hsnap. rewrite build_tables_valid_rows in Hsnap.
  destruct (@walk_registered _ limit registered results
              (valid_rows_not_defunct output) Hsnap) as [_ H].
  apply H in Hget as [Hlast _].
  apply last_with_pid_in in Hlast as [Hin Hp].
  apply valid_rows_parsed in Hin as [line [Hl [Hparse Hd]]].
  repeat split; auto. now exists line.
Qed.

Lemma snapshot_rows_are_valid_witness :
  let r := Row "1" "0" "S" "Mon Jan 1 00:00:00 2024" "init" in
  r_pid r = "1"
  /\ defunct r = false
  /\ exists line,
       In line (Py.split_lines "1 0 S Mon Jan 1 00:00:00 2024 init")
       /\ parse line = Some r.
Proof.
  cbv zeta.
  apply (@snapshot_rows_are_valid 10 [1]
           "1 0 S Mon Jan 1 00:00:00 2024 init"
           [("1", Row "1" "0" "S" "Mon Jan 1 00:00:00 2024" "init")]).
  - vm_compute. reflexivity.
  - reflexivity.
Defined.

Lemma indexed_has_last : forall rows pid,
  Forall (fun r => defunct r = false) rows ->
  (exists r, In r rows /\ r_pid r = pid) ->
  exists r, last_with_pid rows pid r.
Proof.
  intros rows pid Hd H. apply indexed_rows in H; [|assumption].
  destruct (Dict.get (index (tables_of rows)) pid) as [r|] eqn:E;
    [|now contradiction H].
  exists r. now apply index_last_with_pid.
Qed.

(** X4: when a poll produces a snapshot, every registered pid for which
    the [ps] output has a valid row is in the snapshot, and so is every
    valid row whose parent is in the snapshot. *)
Theorem snapshot_holds_roots_and_children :
  forall (limit : nat) (registered : list Z) (output : string)
         (results : Dict.t row),
  snapshot limit registered output = Val results ->
  (forall root r,
     In root registered -> In r (valid_rows output) ->
     r_pid r = Py.str root ->
     in_snapshot results (Py.str root))
  /\ (forall r,
        In r (valid_rows output) -> in_snapshot results (r_ppid r) ->
        in_snapshot results (r_pid r)).
Proof.
  intros limit registered output results Hsnap.
  pose proof (valid_rows_not_defunct output) as Hd.
  unfold snapshot in Hsnap. rewrite build_tables_valid_rows in Hsnap.
  destruct (@walk_registered _ limit registered results Hd Hsnap) as [_ H].
  unfold in_snapshot. split.
  - intros root r Hin Hr Hp.
    destruct (@indexed_has_last _ (Py.str root) Hd) as [r' Hlast];
      [now exists r|].
    assert (E : Dict.get results (Py.str root) = Some r').
    { apply H. split; [exact Hlast|]. exists root. split; [exact Hin|].
      split; [now exists r | apply descendant_self]. }
    rewrite E. discriminate.
  - intros r Hr Hparent.
    destruct (Dict.get results (r_ppid r)) as [rp|] eqn:Ep;
      [|now contradiction Hparent].
    apply H in Ep as [_ [root [Hin [Hrow Hdesc]]]].
    destruct (@indexed_has_last _ (r_pid r) Hd) as [r' Hlast];
      [now exists r|].
    assert (E : Dict.get results (r_pid r) = Some r').
    { apply H. split; [exact Hlast|]. exists root. split; [exact Hin|].
      split; [exact Hrow|]. eapply descendant_child; eauto. }
    rewrite E. discriminate.
Qed.

Lemma snapshot_holds_roots_and_children_witness :
  in_snapshot [("1", Row "1" "0" "S" "Mon Jan 1 00:00:00 2024" "init")]
              (Py.str 1).
Proof.
  refine (proj1 (@snapshot_holds_roots_and_children 10 [1]
                   "1 0 S Mon Jan 1 00:00:00 2024 init"
                   [("1", Row "1" "0" "S" "Mon Jan 1 00:00:00 2024" "init")]
                   _)
                1 (Row "1" "0" "S" "Mon Jan 1 00:00:00 2024" "init")
                (or_introl eq_refl) _ eq_refl).
  - vm_compute. reflexivity.
  - vm_compute. left. reflexivity.
Defined.

(* ===================================================================== *)
(** * Invariants that depend on the globals the handlers update *)
(* ===================================================================== *)

(** The code of the agent, opened up to the monad's operations (the
    operations on [REGISTERED] and the process table stay closed). *)
Ltac open_code :=
  unfold handle_login, handle_run, handle_reset, handle_register,
    handle_deregister, handle_autopoll, handle_poll, handle_send,
    handle_kill, handle_quit, autopoll_resume, autopoll_body, pump_resume,
    monitor_process, print_output, handle_read, poll, procmon_parse,
    cancel, error, begin, end_, fail.

(** [keeps_by leaf]: a piece of code keeps an invariant when its [send]s
    and its updates of the state do, which [leaf] has to show. *)
Ltac keeps_by leaf :=
  repeat first
    [ apply preserves_ret
    | apply preserves_raise
    | apply preserves_sys_exit
    | apply preserves_gets
    | apply preserves_lift
    | solve [leaf]
    | apply preserves_for; intros ? _
    | apply preserves_try_except; [| intros ?]
    | apply preserves_bind; [| intros ?]
    | match goal with
      | |- preserves _ (match ?x with _ => _ end) => destruct x
      | |- preserves _ (let _ := _ in _) => cbv zeta
      end ].

Section Runs.
Variable I : agent -> Prop.
Hypothesis handlers_keep : forall w cmd f identifier args,
  HANDLERS w cmd = Some f -> preserves I (f identifier args).
Hypothesis send_keeps : forall text, preserves I (send text).
Hypothesis quitting_keeps : forall s, I s -> I (with_QUITTING true s).
Hypothesis cleanup_keeps_it : forall w, preserves I (cleanup w).
Hypothesis pump_keeps : forall w k value, preserves I (pump_resume w k value).
Hypothesis resume_keeps_it : forall w t, preserves I (autopoll_resume w t).

Lemma handle_keeps_it : forall w args, preserves I (handle w args).
Proof.
  intros w [|cmd args]; simpl; [apply preserves_ret|].
  destruct (HANDLERS w cmd) as [f|] eqn:Hf.
  - apply preserves_bind; [|intros q].
    + apply preserves_try_except; [|intros e; apply preserves_ret].
      apply preserves_bind; [eapply handlers_keep, Hf | intros q].
      apply preserves_bind; [|intros _; apply preserves_ret].
      destruct q; [now apply preserves_modify | apply preserves_ret].
    + apply preserves_bind; [apply cleanup_keeps_it | intros _].
      apply preserves_ret.
  - unfold fail. apply preserves_bind; [apply send_keeps | intros _].
    apply preserves_sys_exit.
Qed.

Lemma live_step_keeps_it : forall s e w, I s -> I (globals (live_step s e w)).
Proof.
  intros s e w Hs. destruct e as [args|k value|t]; simpl.
  - pose proof (@handle_keeps_it w args s Hs) as H.
    destruct (handle w args s) as [[[|]|e|c] s1]; exact H.
  - pose proof (@pump_keeps w k value s Hs) as H.
    destruct (pump_resume w k value s) as [[u|e|c] s1]; exact H.
  - pose proof (@resume_keeps_it w t s Hs) as H.
    destruct (autopoll_resume w t s) as [[u|e|c] s1]; exact H.
Qed.

Lemma run_keeps_it : forall trace m,
  I (globals m) -> I (globals (run m trace)).
Proof.
  induction trace as [|[e w] trace IH]; intros m H; simpl; [exact H|].
  apply IH. unfold step. destruct (exited m); [exact H|].
  now apply live_step_keeps_it.
Qed.

End Runs.

(** ** The registered list holds every pid once *)

Lemma list_mem_in : forall l k, list_mem l k = true <-> In k l.
Proof.
  intros l k. unfold list_mem. rewrite existsb_exists. split.
  - intros [x [Hx E]]. apply Z.eqb_eq in E. now subst.
  - intros H. exists k. split; [exact H | apply Z.eqb_refl].
Qed.

Lemma list_mem_not_in : forall l k, list_mem l k = false <-> ~ In k l.
Proof.
  intros l k. rewrite <- list_mem_in. now destruct (list_mem l k).
Qed.

Lemma list_remove_in : forall l k x,
  In x (list_remove l k) -> In x l.
Proof.
  induction l as [|y l IH]; intros k x H; simpl in *; [exact H|].
  destruct (Z.eqb y k); [now right|].
  destruct H as [H|H]; [now left | right; eapply IH, H].
Qed.

Lemma list_remove_unique : forall l k,
  NoDup l -> NoDup (list_remove l k) /\ ~ In k (list_remove l k).
Proof.
  induction l as [|y l IH]; intros k H; simpl.
  - split; [constructor | intros []].
  - inversion H as [|? ? Hy Hl]; subst.
    destruct (Z.eqb y k) eqn:E.
    + apply Z.eqb_eq in E. subst y. now split.
    + apply Z.eqb_neq in E. destruct (IH k Hl) as [Hn Hk]. split.
      * constructor; [|exact Hn]. intros Hin. apply Hy.
        eapply list_remove_in, Hin.
      * intros [Hin|Hin]; [contradiction | now apply Hk].
Qed.

Lemma list_remove_other : forall l k x,
  x <> k -> (In x (list_remove l k) <-> In x l).
Proof.
  induction l as [|y l IH]; intros k x Hx; simpl; [tauto|].
  destruct (Z.eqb y k) eqn:E.
  - apply Z.eqb_eq in E. subst y. split; [now right|].
    intros [H|H]; [now contradiction Hx | exact H].
  - simpl. now rewrite IH.
Qed.

Lemma register_keeps_unique : forall pid,
  preserves registered_unique (register pid).
Proof.
  intros pid s H. unfold register, bind, gets, modify, ret. simpl.
  destruct (list_mem (REGISTERED s) pid) eqn:E; simpl; [exact H|].
  unfold registered_unique in *. destruct s; simpl in *.
  apply list_mem_not_in in E.
  apply NoDup_app; [assumption | repeat constructor; intros [] |].
  intros x Hx [<-|[]]. contradiction.
Qed.

Lemma deregister_keeps_unique : forall pid,
  preserves registered_unique (deregister pid).
Proof.
  intros pid s H. unfold deregister, bind, gets, modify, ret. simpl.
  destruct (list_mem (REGISTERED s) pid); simpl; [|exact H].
  unfold registered_unique in *. destruct s; simpl in *.
  now apply list_remove_unique.
Qed.

Ltac registered_leaf :=
  first
    [ apply register_keeps_unique
    | apply deregister_keeps_unique
    | apply send_keeps_stdout_free;
      let s := fresh "s" in let H := fresh "H" in
      intros ? s H; destruct s; exact H
    | apply preserves_modify;
      let s := fresh "s" in let H := fresh "H" in
      intros s H; destruct s; first [exact H | constructor] ].

Lemma handlers_keep_registered_unique : forall w cmd f identifier args,
  HANDLERS w cmd = Some f -> preserves registered_unique (f identifier args).
Proof.
  intros w cmd f identifier args H. unfold HANDLERS in H.
  repeat match type of H with
         | (if ?b then _ else _) = _ => destruct b
         end;
    try discriminate; injection H as <-; open_code;
    keeps_by registered_leaf.
Qed.

Lemma reachable_registered_unique : forall trace,
  registered_unique (globals (run boot trace)).
Proof.
  intros trace. apply run_keeps_it.
  - apply handlers_keep_registered_unique.
  - intros text. registered_leaf.
  - intros s H. destruct s; exact H.
  - intros w. unfold cleanup. keeps_by registered_leaf.
  - intros w k value. open_code. unfold cleanup. keeps_by registered_leaf.
  - intros w t. open_code. keeps_by registered_leaf.
  - constructor.
Qed.

(** X5: in every state the agent can reach, no pid is registered twice;
    so the single [REGISTERED.remove(pid)] of [deregister] leaves the pid
    unregistered, and it changes the registration of no other pid. *)
Theorem deregister_forgets_the_pid :
  forall (trace : list (event * world)) (pid : Z),
  let s := globals (run boot trace) in
  let s' := snd (deregister pid s) in
  NoDup (REGISTERED s)
  /\ list_mem (REGISTERED s') pid = false
  /\ (forall q, q <> pid ->
                list_mem (REGISTERED s') q = list_mem (REGISTERED s) q).
Proof.
  intros trace pid s s'.
  pose proof (reachable_registered_unique trace) as H.
  fold s in H. unfold registered_unique in H.
  split; [exact H|]. subst s'. revert H. generalize s. clear s.
  intros s H. unfold deregister, bind, gets, modify, ret. simpl.
  destruct (list_mem (REGISTERED s) pid) eqn:E; simpl.
  - destruct s; simpl in *. split.
    + apply list_mem_not_in. now apply list_remove_unique.
    + intros q Hq.
      destruct (list_mem REGISTERED0 q) eqn:Eq.
      * apply list_mem_in. apply list_remove_other; [exact Hq|].
        now apply list_mem_in.
      * apply list_mem_not_in. intros Hin. apply list_mem_not_in in Eq.
        apply Eq. eapply list_remove_in, Hin.
  - split; [exact E | reflexivity].
Qed.

(** ** Exit codes *)

Section Exits.
Variable ok : Z -> Prop.

Lemma exits_ret : forall (A : Type) (a : A), exits_with ok (ret a).
Proof. intros A a s c H. discriminate. Qed.

Lemma exits_raise : forall (A : Type) (e : exn), exits_with ok (@raise A e).
Proof. intros A e s c H. discriminate. Qed.

Lemma exits_gets : forall (A : Type) (f : agent -> A), exits_with ok (gets f).
Proof. intros A f s c H. discriminate. Qed.

Lemma exits_modify : forall f, exits_with ok (modify f).
Proof. intros f s c H. discriminate. Qed.

Lemma exits_lift : forall (A : Type) (r : pyres A), exits_with ok (lift r).
Proof. intros A [a|e] s c H; discriminate. Qed.

Lemma exits_send : forall text, exits_with ok (send text).
Proof. intros text s c H. rewrite send_returns in H. discriminate. Qed.

Lemma exits_sys_exit : forall (A : Type) c, ok c -> exits_with ok (@sys_exit A c).
Proof. intros A c Hc s c' H. injection H as <-. exact Hc. Qed.

Lemma exits_bind : forall (A B : Type) (m : M A) (f : A -> M B),
  exits_with ok m -> (forall a, exits_with ok (f a)) ->
  exits_with ok (bind m f).
Proof.
  intros A B m f Hm Hf s c H. unfold bind in H.
  pose proof (Hm s) as Hm'.
  destruct (m s) as [[a|e|c'] s1]; simpl in *.
  - eapply Hf, H.
  - discriminate.
  - injection H as <-. now apply Hm'.
Qed.

Lemma exits_try_except : forall (A : Type) (m : M A) (h : exn -> M A),
  exits_with ok m -> (forall e, exits_with ok (h e)) ->
  exits_with ok (try_except m h).
Proof.
  intros A m h Hm Hh s c H. unfold try_except in H.
  pose proof (Hm s) as Hm'.
  destruct (m s) as [[a|e|c'] s1]; simpl in *.
  - discriminate.
  - eapply Hh, H.
  - injection H as <-. now apply Hm'.
Qed.

Lemma exits_for : forall (A : Type) (l : list A) (body : A -> M unit),
  (forall a, exits_with ok (body a)) -> exits_with ok (for_ l body).
Proof.
  induction l as [|a l IH]; intros body Hb; simpl.
  - apply exits_ret.
  - apply exits_bind; [apply Hb | intros _; now apply IH].
Qed.

End Exits.

(** [exits_by leaf]: the exit codes of a piece of code are those of its
    [sys.exit]s, which [leaf] has to accept. *)
Ltac exits_by leaf :=
  repeat first
    [ apply exits_ret
    | apply exits_raise
    | apply exits_gets
    | apply exits_modify
    | apply exits_lift
    | apply exits_send
    | apply exits_sys_exit; solve [leaf]
    | apply exits_for; intros ?
    | apply exits_try_except; [| intros ?]
    | apply exits_bind; [| intros ?]
    | match goal with
      | |- exits_with _ (match ?x with _ => _ end) => destruct x
      | |- exits_with _ (let _ := _ in _) => cbv zeta
      end ].

Lemma cleanup_never_exits : forall w, exits_with (fun _ => False) (cleanup w).
Proof. intros w. unfold cleanup. exits_by ltac:(idtac). Qed.

Lemma pump_resume_never_exits : forall w k value,
  exits_with (fun _ => False) (pump_resume w k value).
Proof. intros. open_code. unfold cleanup. exits_by ltac:(idtac). Qed.

Lemma autopoll_resume_never_exits : forall w t,
  exits_with (fun _ => False) (autopoll_resume w t).
Proof. intros. open_code. exits_by ltac:(idtac). Qed.

Lemma handlers_exit_minus_1 : forall w cmd f identifier args,
  HANDLERS w cmd = Some f ->
  exits_with (fun c => c = -1) (f identifier args).
Proof.
  intros w cmd f identifier args H. unfold HANDLERS in H.
  repeat match type of H with
         | (if ?b then _ else _) = _ => destruct b
         end;
    try discriminate; injection H as <-; open_code;
    unfold register, deregister; exits_by ltac:(reflexivity).
Qed.

Lemma handle_exits_minus_1 : forall w args,
  exits_with (fun c => c = -1) (handle w args).
Proof.
  intros w [|cmd args]; simpl; [apply exits_ret|].
  destruct (HANDLERS w cmd) as [f|] eqn:Hf.
  - apply exits_bind; [|intros q].
    + apply exits_try_except; [|intros e; apply exits_ret].
      apply exits_bind; [eapply handlers_exit_minus_1, Hf | intros q].
      exits_by ltac:(reflexivity).
    + apply exits_bind; [|intros _; apply exits_ret].
      intros s c H. destruct (@cleanup_never_exits w s c H).
  - unfold fail. exits_by ltac:(reflexivity).
Qed.

Lemma handle_catches_all : forall w args, catches_all (handle w args).
Proof.
  intros w [|cmd args] s e; simpl; [discriminate|].
  destruct (HANDLERS w cmd) as [f|]; [|unfold fail, bind, sys_exit;
    destruct (send _ s) as [[u|e'|c] s1] eqn:E;
    [simpl; discriminate
    | pose proof (send_returns ("abort " ++ "unrecognized command") s) as R;
      rewrite E in R; discriminate
    | simpl; discriminate]].
  unfold bind at 1. unfold try_except.
  destruct (bind (f (randint w) args) _ s) as [[q|e'|c] s1]; simpl;
    try discriminate.
  - unfold bind. pose proof (cleanup_returns w s1) as R.
    destruct (cleanup w s1) as [[u|e''|c] s2]; simpl in *; discriminate.
  - unfold bind. pose proof (cleanup_returns w s1) as R.
    destruct (cleanup w s1) as [[u|e''|c] s2]; simpl in *; discriminate.
Qed.

Lemma run_exited : forall trace m c,
  exited m = Some c -> run m trace = m.
Proof.
  induction trace as [|ew trace IH]; intros m c H; simpl; [reflexivity|].
  unfold step at 1. rewrite H. eapply IH, H.
Qed.

Lemma live_step_exit_codes : forall s e w c,
  exited (live_step s e w) = Some c -> c = 0 \/ c = -1.
Proof.
  intros s e w c H. destruct e as [args|k value|t]; simpl in H.
  - pose proof (@handle_exits_minus_1 w args s) as Hx.
    pose proof (@handle_catches_all w args s) as Hr.
    destruct (handle w args s) as [[[|]|e|c'] s1]; simpl in *.
    + injection H as <-. now left.
    + discriminate.
    + now destruct (Hr e).
    + injection H as <-. right. now apply Hx.
  - pose proof (@pump_resume_never_exits w k value s) as Hx.
    destruct (pump_resume w k value s) as [[u|e|c'] s1]; simpl in *;
      try discriminate.
    destruct (Hx c' eq_refl).
  - pose proof (@autopoll_resume_never_exits w t s) as Hx.
    destruct (autopoll_resume w t s) as [[u|e|c'] s1]; simpl in *;
      try discriminate.
    destruct (Hx c' eq_refl).
Qed.

(** X6: the agent ends with exit code 0 or -1 and no other: no exception
    leaves [handle] (which would end the process with code 1), every
    [sys.exit] of a handler is the [sys.exit(-1)] of [fail], and the read
    pumps and the autopoll coroutine never end the process. *)
Theorem agent_exits_with_0_or_minus_1 :
  forall (m : machine) (trace : list (event * world)) (c : Z),
  exited m = None ->
  exited (run m trace) = Some c ->
  c = 0 \/ c = -1.
Proof.
  intros m trace. revert m.
  induction trace as [|[e w] trace IH]; intros m c Hm H; simpl in H.
  - rewrite Hm in H. discriminate.
  - unfold step at 1 in H. rewrite Hm in H. simpl in H.
    destruct (exited (live_step (globals m) e w)) as [c'|] eqn:E.
    + rewrite (run_exited trace _ E) in H. rewrite E in H.
      injection H as <-. eapply live_step_exit_codes, E.
    + eapply IH; [exact E | exact H].
Qed.

Lemma agent_exits_with_0_or_minus_1_witness :
  exited (run boot
            [(Request ["frobnicate"],
              mkWorld 7 None 0 "" None (fun _ => 0) (fun l => l) 10)])
  = Some (-1)
  /\ (-1 = 0 \/ -1 = -1).
Proof.
  split; [vm_compute; reflexivity|].
  apply (@agent_exits_with_0_or_minus_1 boot
           [(Request ["frobnicate"],
             mkWorld 7 None 0 "" None (fun _ => 0) (fun l => l) 10)]
           (-1)).
  - reflexivity.
  - vm_compute. reflexivity.
Defined.

(** ** What [quit] leaves behind *)

Section NeverTrue.

Lemma never_true_ret : never_true (ret false).
Proof. intros s. discriminate. Qed.

Lemma never_true_raise : forall e, never_true (raise e).
Proof. intros e s. discriminate. Qed.

Lemma never_true_sys_exit : forall c, never_true (sys_exit c).
Proof. intros c s. discriminate. Qed.

Lemma never_true_bind : forall (A : Type) (m : M A) (f : A -> M bool),
  (forall a, never_true (f a)) -> never_true (bind m f).
Proof.
  intros A m f Hf s. unfold bind.
  destruct (m s) as [[a|e|c] s1]; simpl; try discriminate. apply Hf.
Qed.

End NeverTrue.

Ltac never_true_tac :=
  repeat first
    [ apply never_true_ret
    | apply never_true_raise
    | apply never_true_sys_exit
    | apply never_true_bind; intros ?
    | match goal with
      | |- never_true (match ?x with _ => _ end) => destruct x
      end ].

Lemma only_quit_returns_true : forall w cmd f identifier args s,
  HANDLERS w cmd = Some f ->
  fst (f identifier args s) = Return true ->
  f = handle_quit.
Proof.
  intros w cmd f identifier args s H. unfold HANDLERS in H.
  repeat match type of H with
         | (if ?b then _ else _) = _ => destruct b
         end;
    try discriminate; injection H as <-; try reflexivity;
    match goal with
    | |- fst (?m s) = _ -> _ =>
        intros R; exfalso; revert R; refine ((_ : never_true m) s)
    end;
    open_code; never_true_tac.
Qed.

Lemma one_task_none_all_finished : forall s,
  one_task s -> AUTOPOLL_TASK s = None -> all_finished s.
Proof.
  intros s H Hn. apply Forall_forall. intros st Hin.
  apply In_nth_error in Hin as [t Ht].
  destruct st; try reflexivity;
    (assert (L : live_task s t) by (eexists; split; [exact Ht | discriminate]);
     apply H in L; rewrite Hn in L; discriminate).
Qed.

Lemma handle_quit_finishes : forall identifier args,
  hoare one_task (handle_quit identifier args)
        (fun _ s' => AUTOPOLL_TASK s' = None /\ all_finished s').
Proof.
  intros identifier args s Hs.
  pose proof (one_task_none_all_finished Hs) as Hnone.
  pose proof (@one_task_finished_after s) as Hsome.
  destruct s as [procs completed quitting registered lastps armed task out ts ps].
  unfold all_finished in *.
  unfold handle_quit, begin, end_, send, bind, gets, cancel, modify, ret.
  simpl in *. destruct quitting; simpl; destruct task as [t|]; simpl;
    split; auto.
Qed.

Ltac stdout_leaf :=
  first
    [ apply send_keeps_stdout_free;
      let s := fresh "s" in let H := fresh "H" in
      intros ? s H; destruct s; exact H
    | apply preserves_modify;
      let s := fresh "s" in let H := fresh "H" in
      intros s H; destruct s; exact H ].

Lemma cleanup_keeps_has_quit : forall w, preserves has_quit (cleanup w).
Proof. intros w. unfold cleanup. keeps_by stdout_leaf. Qed.

Lemma handle_true_has_quit : forall w args s,
  one_task s ->
  fst (handle w args s) = Return true ->
  has_quit (snd (handle w args s)).
Proof.
  intros w [|cmd args] s Hs; [discriminate|].
  unfold handle. destruct (HANDLERS w cmd) as [f|] eqn:Hf.
  2:{ unfold fail, bind, sys_exit.
      destruct (send _ s) as [[u|e|c] s1]; simpl; discriminate. }
  cbv zeta. unfold bind, try_except.
  destruct (f (randint w) args s) as [[q|e|c] s1] eqn:E.
  - destruct q.
    + assert (Hq : f = handle_quit).
      { eapply only_quit_returns_true; [exact Hf|]. rewrite E. reflexivity. }
      subst f. pose proof (@handle_quit_finishes (randint w) args s Hs) as Hh.
      rewrite E in Hh. simpl in Hh.
      assert (Hs1 : has_quit (with_QUITTING true s1)).
      { destruct s1; simpl in *. unfold has_quit, all_finished in *. simpl.
        destruct Hh. auto. }
      pose proof (@cleanup_keeps_has_quit w _ Hs1) as Hc.
      unfold modify, ret.
      destruct (cleanup w (with_QUITTING true s1)) as [[u|e|c] s2];
        simpl in *; intros; auto; discriminate.
    + unfold ret.
      destruct (cleanup w s1) as [[u|e|c] s2]; simpl; discriminate.
  - unfold ret.
    destruct (cleanup w s1) as [[u|e'|c] s2]; simpl; discriminate.
  - discriminate.
Qed.

Lemma live_step_has_quit : forall s e w,
  one_task s ->
  exited (live_step s e w) = Some 0 ->
  has_quit (globals (live_step s e w)).
Proof.
  intros s e w Hs H. destruct e as [args|k value|t]; simpl in *.
  - pose proof (@handle_true_has_quit w args s Hs) as Hq.
    pose proof (@handle_exits_minus_1 w args s) as Hx.
    pose proof (@handle_catches_all w args s) as Hr.
    destruct (handle w args s) as [[[|]|e|c'] s1]; simpl in *.
    + now apply Hq.
    + discriminate.
    + now destruct (Hr e).
    + injection H as ->. specialize (Hx 0 eq_refl). discriminate.
  - pose proof (@pump_resume_never_exits w k value s) as Hx.
    destruct (pump_resume w k value s) as [[u|e|c'] s1]; simpl in *;
      try discriminate.
    destruct (Hx c' eq_refl).
  - pose proof (@autopoll_resume_never_exits w t s) as Hx.
    destruct (autopoll_resume w t s) as [[u|e|c'] s1]; simpl in *;
      try discriminate.
    destruct (Hx c' eq_refl).
Qed.

Lemma run_app : forall m t1 t2, run m (t1 ++ t2) = run (run m t1) t2.
Proof. intros. unfold run. apply fold_left_app. Qed.

(** X7: when the agent has ended with exit code 0 (the return of
    [mainloop] after a [quit] request), [QUITTING] is set, [AUTOPOLL_TASK]
    is [None], and every autopoll coroutine that was ever created has
    returned: [quit] cancels the only one there can be. *)
Theorem exit_0_leaves_no_autopoll_task :
  forall (trace : list (event * world)),
  exited (run boot trace) = Some 0 ->
  has_quit (globals (run boot trace)).
Proof.
  intros trace. induction trace as [|ew trace IH] using rev_ind; intros H.
  - discriminate.
  - rewrite run_app in *. simpl in *. unfold step in *.
    destruct (exited (run boot trace)) as [c|] eqn:E.
    + apply IH. rewrite <- E. exact H.
    + apply live_step_has_quit; [apply reachable_one_task | exact H].
Qed.

Lemma exit_0_leaves_no_autopoll_task_witness :
  has_quit
    (globals
       (run boot
          [(Request ["autopoll"],
            mkWorld 7 None 0 "" None (fun _ => 0) (fun l => l) 10);
           (Request ["quit"],
            mkWorld 8 None 0 "" None (fun _ => 0) (fun l => l) 10)])).
Proof.
  apply exit_0_leaves_no_autopoll_task. vm_compute. reflexivity.
Defined.

(* ===================================================================== *)
(** * The main loop *)
(* ===================================================================== *)

Lemma last_char_app : forall a b,
  b <> EmptyString -> Py.last_char (a ++ b) = Py.last_char b.
Proof.
  induction a as [|c a IH]; intros b Hb; [reflexivity|].
  change (String c a ++ b)%string with (String c (a ++ b)).
  cbn [Py.last_char]. rewrite (IH b Hb).
  destruct (a ++ b)%string eqn:E; [|reflexivity].
  destruct a; [simpl in E; contradiction | discriminate].
Qed.

Lemma endswith_char_app : forall a b c,
  b <> EmptyString -> Py.endswith_char (a ++ b) c = Py.endswith_char b c.
Proof. intros. unfold Py.endswith_char. now rewrite last_char_app. Qed.

Lemma length_snoc : forall a c,
  (Py.len (a ++ String c EmptyString) - 1 = String.length a)%nat.
Proof.
  intros a c. unfold Py.len.
  induction a as [|d a IH]; [reflexivity|].
  change (String d a ++ String c EmptyString)%string
    with (String d (a ++ String c EmptyString)).
  cbn [String.length]. rewrite Nat.sub_1_r in *. cbn [Nat.pred].
  destruct (String.length (a ++ String c EmptyString)) eqn:E.
  - destruct a; discriminate.
  - simpl in IH. now rewrite IH.
Qed.

Lemma slice_drops_last : forall a c,
  Py.slice (a ++ String c EmptyString) 0
           (Py.len (a ++ String c EmptyString) - 1) = a.
Proof.
  intros a c. unfold Py.slice. rewrite Nat.sub_0_r, length_snoc.
  cbn [skipn]. induction a as [|d a IH]; [reflexivity|].
  change (String d a ++ String c EmptyString)%string
    with (String d (a ++ String c EmptyString)).
  cbn [list_ascii_of_string String.length firstn string_of_list_ascii].
  now rewrite IH.
Qed.

Lemma string_app_assoc : forall a b c : string,
  ((a ++ b) ++ c = a ++ (b ++ c))%string.
Proof.
  induction a as [|d a IH]; intros b c; simpl; [reflexivity | now rewrite IH].
Qed.

Lemma string_app_empty : forall a : string, (a ++ EmptyString)%string = a.
Proof. induction a as [|d a IH]; simpl; [reflexivity | now rewrite IH]. Qed.

Lemma concat_cons : forall p ps,
  String.concat "" (p :: ps) = (p ++ String.concat "" ps)%string.
Proof.
  intros p [|q ps]; simpl; [now rewrite string_app_empty | reflexivity].
Qed.

Lemma app_not_empty : forall a b : string,
  b <> EmptyString -> (a ++ b)%string <> EmptyString.
Proof. intros [|c a] b Hb; simpl; [exact Hb | discriminate]. Qed.

Lemma append_line_complete : forall args line,
  complete args -> append_line args line = (args ++ [line])%list.
Proof. intros args line H. unfold append_line. unfold complete in H. now rewrite H. Qed.

Lemma append_line_broken : forall args a line,
  append_line (args ++ [(a ++ String backslash EmptyString)%string]) line
  = (args ++ [(a ++ line)%string])%list.
Proof.
  intros args a line. unfold append_line.
  rewrite last_last, removelast_last, length_app, slice_drops_last.
  rewrite endswith_char_app by discriminate.
  replace (0 <? List.length args + List.length [(a ++ String backslash EmptyString)%string])%nat
    with true by (symmetry; apply Nat.ltb_lt; simpl; lia).
  reflexivity.
Qed.

Lemma complete_snoc : forall args a,
  unbroken a -> complete (args ++ [a])%list.
Proof.
  intros args a [_ Ha]. unfold complete.
  rewrite last_last, Ha, length_app. apply andb_false_r.
Qed.

Lemma mainloop_line : forall line w rest args,
  line <> EmptyString ->
  mainloop ((Some line, w) :: rest) args = mainloop rest (append_line args line).
Proof.
  intros line w rest args H. cbn [mainloop].
  destruct line; [contradiction | reflexivity].
Qed.

Lemma mainloop_rest_of_broken_line : forall pieces final input rest args a,
  final <> EmptyString ->
  map fst input = map Some (continued pieces final) ->
  mainloop (input ++ rest) (args ++ [(a ++ String backslash EmptyString)%string])
  = mainloop rest (args ++ [(a ++ joined pieces final)%string]).
Proof.
  induction pieces as [|p pieces IH]; intros final input rest args a Hf Hi.
  - destruct input as [|[l w] [|? ?]]; try discriminate.
    injection Hi as ->. cbn [app].
    rewrite mainloop_line by exact Hf. now rewrite append_line_broken.
  - destruct input as [|[l w] input]; try discriminate.
    cbn [continued map app fst] in Hi. injection Hi as -> Hi. cbn [app].
    rewrite mainloop_line by (apply app_not_empty; discriminate).
    rewrite append_line_broken, <- string_app_assoc.
    rewrite (IH final input rest args (a ++ p)%string Hf Hi).
    unfold joined. now rewrite concat_cons, !string_app_assoc.
Qed.

Lemma mainloop_argument : forall pieces final input rest args,
  unbroken final ->
  (args = [] \/ complete args) ->
  map fst input = map Some (continued pieces final) ->
  mainloop (input ++ rest) args
  = mainloop rest (args ++ [joined pieces final]).
Proof.
  intros pieces final input rest args [Hf He] Ha Hi.
  assert (Happ : forall line, append_line args line = (args ++ [line])%list).
  { intros line. destruct Ha as [->|Ha]; [reflexivity|].
    now apply append_line_complete. }
  destruct pieces as [|p pieces].
  - destruct input as [|[l w] [|? ?]]; try discriminate.
    injection Hi as ->. cbn [app].
    rewrite mainloop_line by exact Hf. now rewrite Happ.
  - destruct input as [|[l w] input]; try discriminate.
    cbn [continued map app fst] in Hi. injection Hi as -> Hi. cbn [app].
    rewrite mainloop_line by (apply app_not_empty; discriminate).
    rewrite Happ.
    rewrite (mainloop_rest_of_broken_line pieces input rest args p Hf Hi).
    unfold joined. now rewrite concat_cons, string_app_assoc.
Qed.

Lemma unbroken_joined : forall pieces final,
  unbroken final -> unbroken (joined pieces final).
Proof.
  intros pieces final [Hf He]. unfold joined. split.
  - now apply app_not_empty.
  - now rewrite endswith_char_app.
Qed.

Lemma mainloop_arguments : forall request input rest args,
  Forall (fun g => unbroken (snd g)) request ->
  (args = [] \/ complete args) ->
  map fst input
  = map Some (List.concat (map (fun g => continued (fst g) (snd g)) request)) ->
  mainloop (input ++ rest) args
  = mainloop rest (args ++ map (fun g => joined (fst g) (snd g)) request).
Proof.
  induction request as [|[pieces final] request IH];
    intros input rest args Hr Ha Hi.
  - destruct input; [|discriminate]. simpl. now rewrite app_nil_r.
  - inversion Hr as [|? ? Hg Hr']; subst. simpl in Hg.
    cbn [map List.concat fst snd] in Hi. rewrite map_app in Hi.
    apply map_eq_app in Hi as Hsplit.
    destruct Hsplit as [i1 [i2 [-> [H1 H2]]]].
    rewrite <- app_assoc.
    rewrite (@mainloop_argument pieces final i1 (i2 ++ rest) args Hg Ha H1).
    rewrite (IH i2 rest _ Hr'); [| right; apply complete_snoc;
                                   now apply unbroken_joined | exact H2].
    cbn [map fst snd]. now rewrite <- app_assoc.
Qed.

(** X8: an argument may be sent on several lines, each but the last
    followed by a backslash: when the last part is not empty and ends in
    no backslash, [mainloop] passes the parts put end to end, without the
    backslashes, as one argument; the empty line that follows the
    arguments calls [handle] on them, and [mainloop] returns 0 when
    [handle] returns a true value and starts the next request with no
    argument otherwise. *)
Theorem mainloop_joins_continued_lines :
  forall (request : list (list string * string))
         (input : list (option string * world)) (w : world)
         (rest : list (option string * world)) (s : agent),
  Forall (fun g => unbroken (snd g)) request ->
  map fst input
  = map Some (List.concat (map (fun g => continued (fst g) (snd g)) request)) ->
  mainloop (input ++ (Some EmptyString, w) :: rest) [] s
  = (quit <- handle w (map (fun g => joined (fst g) (snd g)) request) ;;
     if quit : bool then ret (Some 0) else mainloop rest []) s.
Proof.
  intros request input w rest s Hr Hi.
  rewrite (@mainloop_arguments request input _ [] Hr (or_introl eq_refl) Hi).
  reflexivity.
Qed.

Lemma mainloop_joins_continued_lines_witness :
  let w := mkWorld 7 (Some 42) 0 "" None (fun _ => 0) (fun l => l) 10 in
  mainloop
    (map (fun l => (Some l, w)) (continued ["ru"] "n" ++ continued [] "ls")
     ++ (Some EmptyString, w) :: [])
    [] initial
  = (quit <- handle w [joined ["ru"] "n"; joined [] "ls"] ;;
     if quit : bool then ret (Some 0) else mainloop [] []) initial.
Proof.
  intros w.
  apply (@mainloop_joins_continued_lines
           [(["ru"], "n"); ([], "ls")]
           (map (fun l => (Some l, w)) (continued ["ru"] "n" ++ continued [] "ls"))
           w [] initial).
  - repeat constructor; simpl; discriminate.
  - reflexivity.
Defined.

(* ===================================================================== *)
(** * The process table *)
(* ===================================================================== *)

Lemma procs_set_keys : forall d k v,
  map fst (procs_set d k v)
  = if procs_mem d k then map fst d else (map fst d ++ [k])%list.
Proof.
  unfold procs_mem.
  induction d as [|[k' v'] d IH]; intros k v; simpl; [reflexivity|].
  destruct (Z.eqb k' k) eqn:E; simpl; [reflexivity|].
  rewrite IH. now destruct (procs_get d k).
Qed.

Lemma procs_get_in : forall d k v,
  procs_get d k = Some v -> In (k, v) d.
Proof.
  induction d as [|[k' v'] d IH]; intros k v H; simpl in *; [discriminate|].
  destruct (Z.eqb k' k) eqn:E.
  - apply Z.eqb_eq in E. injection H as ->. subst. now left.
  - right. now apply IH.
Qed.

Lemma procs_get_none : forall d k,
  procs_get d k = None -> ~ In k (map fst d).
Proof.
  induction d as [|[k' v'] d IH]; intros k H; simpl in *; [tauto|].
  destruct (Z.eqb k' k) eqn:E; [discriminate|].
  apply Z.eqb_neq in E. intros [Hk|Hk]; [contradiction | now apply (IH k)].
Qed.

Lemma procs_set_well_keyed : forall d k v,
  well_keyed d -> proc_pid v = k -> return_code v = None ->
  well_keyed (procs_set d k v).
Proof.
  intros d k v [Hn Hf] Hk Hr. split.
  - rewrite procs_set_keys. unfold procs_mem.
    destruct (procs_get d k) eqn:E; [exact Hn|].
    apply NoDup_app; [exact Hn | repeat constructor; intros [] |].
    intros x Hx [<-|[]]. now apply (procs_get_none _ _ E).
  - clear Hn. induction d as [|[k' v'] d IH]; simpl.
    + repeat constructor; assumption.
    + pose proof (Forall_inv Hf) as H1. pose proof (Forall_inv_tail Hf) as H2.
      destruct (Z.eqb k' k) eqn:E.
      * apply Z.eqb_eq in E. subst k'. constructor; [now split | exact H2].
      * constructor; [exact H1 | now apply IH].
Qed.

Lemma procs_del_in : forall d k x,
  In x (procs_del d k) -> In x d.
Proof.
  induction d as [|[k' v'] d IH]; intros k x H; simpl in *; [exact H|].
  destruct (Z.eqb k' k); [now right|].
  destruct H as [H|H]; [now left | right; eapply IH, H].
Qed.

Lemma procs_del_well_keyed : forall d k,
  well_keyed d -> well_keyed (procs_del d k).
Proof.
  intros d k [Hn Hf]. split.
  - induction d as [|[k' v'] d IH]; simpl; [constructor|].
    inversion Hn as [|? ? H1 H2]; subst.
    pose proof (Forall_inv_tail Hf) as H3.
    destruct (Z.eqb k' k); [exact H2|]. simpl. constructor; [|now apply IH].
    intros Hin. apply H1. apply in_map_iff in Hin as [x [Hx Hin]].
    apply in_map_iff. exists x. split; [exact Hx | eapply procs_del_in, Hin].
  - apply Forall_forall. intros x Hx. apply procs_del_in in Hx.
    now apply (proj1 (Forall_forall _ _) Hf).
Qed.

Lemma procs_del_forgets : forall d k,
  NoDup (map fst d) -> procs_get (procs_del d k) k = None.
Proof.
  induction d as [|[k' v'] d IH]; intros k Hn; simpl; [reflexivity|].
  inversion Hn as [|? ? H1 H2]; subst.
  destruct (Z.eqb k' k) eqn:E.
  - apply Z.eqb_eq in E. subst k'.
    destruct (procs_get d k) eqn:G; [|reflexivity].
    apply procs_get_in in G. exfalso. apply H1.
    apply in_map_iff. now exists (k, p).
  - simpl. rewrite E. now apply IH.
Qed.

Lemma procs_get_well_keyed : forall d k v,
  well_keyed d -> procs_get d k = Some v ->
  proc_pid v = k /\ return_code v = None.
Proof.
  intros d k v [_ Hf] H. apply procs_get_in in H.
  exact (proj1 (Forall_forall _ _) Hf _ H).
Qed.

(** ** [PROCESSES] stays well keyed *)

Lemma spawn_keeps_well_keyed : forall pid,
  preserves well_keyed_processes
    (modify (fun s => with_PROCESSES
                        (procs_set (PROCESSES s) pid (new_process pid)) s)).
Proof.
  intros pid. apply preserves_modify. intros s H. destruct s; simpl in *.
  unfold well_keyed_processes in *. simpl in *.
  now apply procs_set_well_keyed.
Qed.

Ltac well_keyed_leaf :=
  first
    [ apply spawn_keeps_well_keyed
    | apply send_keeps_stdout_free;
      let s := fresh "s" in let H := fresh "H" in
      intros ? s H; destruct s; exact H
    | apply preserves_modify;
      let s := fresh "s" in let H := fresh "H" in
      intros s H; destruct s; exact H ].

Lemma handle_send_keeps_well_keyed : forall w identifier args,
  preserves well_keyed_processes (handle_send w identifier args).
Proof.
  intros w identifier args. unfold handle_send.
  destruct args as [|a0 [|a1 args]];
    try solve [open_code; keeps_by well_keyed_leaf].
  destruct (Py.int a0) as [pid|];
    [|solve [open_code; keeps_by well_keyed_leaf]].
  destruct (decoded w) as [data|];
    [|solve [open_code; keeps_by well_keyed_leaf]].
  intros s H. unfold bind at 1. unfold gets. cbn beta iota.
  destruct (procs_get (PROCESSES s) pid) as [proc|] eqn:E.
  - destruct (procs_get_well_keyed _ H E) as [Hp Hr].
    assert (K : preserves well_keyed_processes
                  (begin identifier ;; end_ identifier 0 ;; ret false))
      by (open_code; keeps_by well_keyed_leaf).
    unfold bind at 1. unfold modify at 1. cbn beta iota. apply K.
    destruct s; unfold well_keyed_processes in *; simpl in *.
    now apply procs_set_well_keyed.
  - revert s H E. 
    assert (K : preserves well_keyed_processes
                  (begin identifier ;; end_ identifier 1 ;; ret false))
      by (open_code; keeps_by well_keyed_leaf).
    intros s H _. now apply K.
Qed.

Lemma handle_kill_keeps_well_keyed : forall identifier args,
  preserves well_keyed_processes (handle_kill identifier args).
Proof.
  intros identifier args. unfold handle_kill.
  destruct (option_map Py.int (hd_error args)) as [[pid|]|];
    try solve [open_code; keeps_by well_keyed_leaf].
  intros s H. unfold bind at 1. unfold gets. cbn beta iota.
  destruct (procs_get (PROCESSES s) pid) as [proc|] eqn:E.
  - destruct (procs_get_well_keyed _ H E) as [Hp Hr].
    assert (K : preserves well_keyed_processes
                  (begin identifier ;; end_ identifier 0 ;; ret false))
      by (open_code; keeps_by well_keyed_leaf).
    unfold bind at 1. unfold modify at 1. cbn beta iota. apply K.
    destruct s; unfold well_keyed_processes in *; simpl in *.
    now apply procs_set_well_keyed.
  - assert (K : preserves well_keyed_processes
                  (begin identifier ;; error identifier 1 ;; ret false))
      by (open_code; keeps_by well_keyed_leaf).
    now apply K.
Qed.

Lemma cleanup_keeps_well_keyed : forall w,
  preserves well_keyed_processes (cleanup w).
Proof.
  intros w. unfold cleanup.
  apply preserves_bind; [apply preserves_gets | intros completed].
  apply preserves_bind; [well_keyed_leaf | intros _].
  apply preserves_for. intros pid _ s H.
  unfold bind at 1. unfold gets. cbn beta iota.
  destruct (procs_get (PROCESSES s) pid) as [proc|]; [|exact H].
  unfold bind, modify. cbn beta iota.
  assert (K : forall text, preserves well_keyed_processes (send text))
    by (intros text; well_keyed_leaf).
  apply K. destruct s; unfold well_keyed_processes in *; simpl in *.
  now apply procs_del_well_keyed.
Qed.

Ltac well_keyed_leaf' :=
  first [ apply cleanup_keeps_well_keyed
        | apply handle_send_keeps_well_keyed
        | apply handle_kill_keeps_well_keyed
        | well_keyed_leaf ].

Lemma handlers_keep_well_keyed : forall w cmd f identifier args,
  HANDLERS w cmd = Some f ->
  preserves well_keyed_processes (f identifier args).
Proof.
  intros w cmd f identifier args H. unfold HANDLERS in H.
  repeat match type of H with
         | (if ?b then _ else _) = _ => destruct b
         end;
    try discriminate; injection H as <-;
    try apply handle_send_keeps_well_keyed;
    try apply handle_kill_keeps_well_keyed;
    open_code; unfold register, deregister; keeps_by well_keyed_leaf.
Qed.

Lemma reachable_well_keyed : forall trace,
  well_keyed_processes (globals (run boot trace)).
Proof.
  intros trace. apply run_keeps_it.
  - apply handlers_keep_well_keyed.
  - intros text. well_keyed_leaf.
  - intros s H. destruct s; exact H.
  - apply cleanup_keeps_well_keyed.
  - intros w k value. unfold pump_resume, monitor_process, print_output.
    keeps_by well_keyed_leaf'.
  - intros w t. open_code. keeps_by well_keyed_leaf.
  - split; constructor.
Qed.

(** ** [COMPLETED] is empty between two events *)

Lemma cleanup_empties : forall w (I : agent -> Prop),
  hoare I (cleanup w) (fun _ => completed_empty).
Proof.
  intros w I s _. unfold cleanup. unfold bind at 1. unfold gets.
  cbn beta iota. unfold bind at 1. unfold modify at 1. cbn beta iota.
  assert (K : preserves completed_empty
                (for_ (COMPLETED s) (fun pid =>
                   procs <- gets PROCESSES ;;
                   match procs_get procs pid with
                   | None => ret tt
                   | Some proc =>
                       modify (with_PROCESSES (procs_del procs pid)) ;;
                       let proc' := Process_cleanup w proc in
                       send ("%terminate " ++ Py.str (proc_pid proc') ++ " "
                             ++ str_return_code proc')
                   end)))
    by keeps_by stdout_leaf.
  apply K. now destruct s.
Qed.

Lemma cleanup_keeps_completed_empty : forall w,
  preserves completed_empty (cleanup w).
Proof. intros w. apply cleanup_empties. Qed.

Lemma reachable_completed_empty : forall trace,
  completed_empty (globals (run boot trace)).
Proof.
  intros trace. apply run_keeps_it.
  - intros w cmd f identifier args H. unfold HANDLERS in H.
    repeat match type of H with
           | (if ?b then _ else _) = _ => destruct b
           end;
      try discriminate; injection H as <-;
      open_code; unfold register, deregister; keeps_by stdout_leaf.
  - intros text. stdout_leaf.
  - intros s H. destruct s; exact H.
  - apply cleanup_keeps_completed_empty.
  - intros w k value. unfold pump_resume, monitor_process, print_output.
    apply preserves_bind; [apply preserves_gets | intros ps].
    destruct (nth_error ps k) as [p|]; [|apply preserves_ret].
    destruct (pump_running p); [|apply preserves_ret].
    apply preserves_bind; [|intros _; keeps_by stdout_leaf].
    destruct (List.length value =? 0)%nat; [|keeps_by stdout_leaf].
    intros s _. unfold bind, modify. cbn beta iota.
    now apply (@cleanup_empties w (fun _ => True)).
  - intros w t. open_code. keeps_by stdout_leaf.
  - reflexivity.
Qed.

(** ** The end of a child's output *)

Lemma nth_error_list_adjust_eq : forall (A : Type) (f : A -> A) l k x,
  nth_error l k = Some x -> nth_error (list_adjust f l k) k = Some (f x).
Proof.
  induction l as [|y l IH]; intros [|k] x H; simpl in *; try discriminate.
  - now injection H as ->.
  - now apply IH.
Qed.

(** X9: in a state the agent can reach and in which it is not quitting,
    when the read pump of a child reads the end of its output, the child
    is removed from [PROCESSES], killed and waited for, and exactly one
    line [%terminate pid status] is printed, with the pid of the child and
    the exit status that [wait] returned; nothing is printed when the pid
    is no longer in [PROCESSES].  [COMPLETED] is empty again afterwards,
    and the pump has stopped: it does nothing when it is resumed again. *)
Theorem end_of_output_terminates_the_child :
  forall (trace : list (event * world)) (w : world) (k : nat) (p : pump),
  let s := globals (run boot trace) in
  let s' := snd (pump_resume w k [] s) in
  let pid := pump_pid p in
  QUITTING s = false ->
  nth_error (pumps s) k = Some p ->
  pump_running p = true ->
  fst (pump_resume w k [] s) = Return tt
  /\ stdout s'
     = (stdout s
        ++ (if procs_mem (PROCESSES s) pid
            then [("%terminate " ++ Py.str pid ++ " "
                   ++ Py.str (exit_status w pid))%string]
            else []))%list
  /\ PROCESSES s' = procs_del (PROCESSES s) pid
  /\ procs_mem (PROCESSES s') pid = false
  /\ COMPLETED s' = []
  /\ (forall w' value, pump_resume w' k value s' = (Return tt, s')).
Proof.
  intros trace w k p s s' pid Hq Hn Hr.
  pose proof (reachable_well_keyed trace) as Hk.
  pose proof (reachable_completed_empty trace) as Hc.
  fold s in Hk, Hc. subst s'. revert Hk Hc Hq Hn. generalize s. clear s.
  intros s Hk Hc Hq Hn.
  destruct s as [procs completed quitting registered lastps armed task out ts ps].
  unfold well_keyed_processes, completed_empty in *. simpl in *. subst.
  assert (Hstop : forall s2 w' value,
            pumps s2 = list_adjust pump_stopped ps k ->
            pump_resume w' k value s2 = (Return tt, s2)).
  { intros s2 w' value E. unfold pump_resume, bind, gets. cbn beta iota.
    rewrite E, (nth_error_list_adjust_eq pump_stopped _ _ Hn). reflexivity. }
  assert (Hd : procs_get procs pid = None -> procs_del procs pid = procs).
  { clear. induction procs as [|[k' v'] d IH]; simpl; [reflexivity|].
    destruct (Z.eqb k' pid); [discriminate|]. intros E. now rewrite IH. }
  assert (Heq : pump_resume w k []
                  (mkAgent procs [] false registered lastps armed task out ts ps)
                = (Return tt,
                   mkAgent (procs_del procs pid) [] false registered lastps
                     armed task
                     (out ++ (if procs_mem procs pid
                              then [("%terminate " ++ Py.str pid ++ " "
                                     ++ Py.str (exit_status w pid))%string]
                              else []))%list
                     ts (list_adjust pump_stopped ps k))).
  { unfold pump_resume, bind, gets. simpl. rewrite Hn, Hr.
    unfold monitor_process. simpl.
    unfold cleanup, bind, gets, modify. simpl. unfold procs_mem. fold pid.
    unfold bind, gets, ret. simpl.
    destruct (procs_get procs pid) as [proc|] eqn:E; simpl.
    - destruct (procs_get_well_keyed _ Hk E) as [Hp Hrc].
      unfold Process_cleanup, str_return_code, send. rewrite Hrc. simpl.
      now rewrite Hp.
    - now rewrite app_nil_r, (Hd eq_refl). }
  rewrite Heq. cbn [fst snd PROCESSES COMPLETED stdout].
  repeat split.
  - unfold procs_mem. now rewrite (@procs_del_forgets procs pid (proj1 Hk)).
  - intros w' value. now apply Hstop.
Qed.

Lemma end_of_output_terminates_the_child_witness :
  let trace :=
    [(Request ["run"; "ls"],
      mkWorld 7 (Some 42) 0 "" None (fun _ => 0) (fun l => l) 10)] in
  let w := mkWorld 8 None 0 "" None (fun _ => 3) (fun l => l) 10 in
  stdout (snd (pump_resume w 0 [] (globals (run boot trace))))
  = ["begin 7"; "42"; "end 7 0"; "%terminate 42 3"].
Proof.
  intros trace w.
  assert (Hq : QUITTING (globals (run boot trace)) = false)
    by (vm_compute; reflexivity).
  assert (Hn : nth_error (pumps (globals (run boot trace))) 0
               = Some (mkPump 7 42 false 1 true))
    by (vm_compute; reflexivity).
  destruct (@end_of_output_terminates_the_child
              trace w 0%nat (mkPump 7 42 false 1 true) Hq Hn eq_refl)
    as [_ [H _]].
  rewrite H. vm_compute. reflexivity.
Defined.

(* ===================================================================== *)
(** * Pids across the protocol: [str] and [int] *)
(* ===================================================================== *)

Lemma digits_of_uint_acc : forall u (acc : positive),
  Py.digits (Z.pos acc) true (list_ascii_of_string (NilEmpty.string_of_uint u))
  = Some (Z.pos (Pos.of_uint_acc u acc)).
Proof.
  induction u as [|u IH|u IH|u IH|u IH|u IH|u IH|u IH|u IH|u IH|u IH];
    intros acc;
    cbn [NilEmpty.string_of_uint list_ascii_of_string Py.digits Pos.of_uint_acc];
    [reflexivity|..];
    match goal with
    | |- context [Py.isdigit ?c] => change (Py.isdigit c) with true
    end; cbv iota; rewrite <- IH;
    apply (f_equal (fun a => Py.digits a true _));
    match goal with
    | |- context [Py.digit_value ?c] =>
        let v := eval vm_compute in (Py.digit_value c) in
        change (Py.digit_value c) with v
    end; lia.
Qed.

Lemma digits_of_uint : forall u b,
  Py.digits 0 b (list_ascii_of_string (NilEmpty.string_of_uint u))
  = match u with
    | Decimal.Nil => if b then Some 0 else None
    | _ => Some (Z.of_N (Pos.of_uint u))
    end.
Proof.
  induction u as [|u IH|u IH|u IH|u IH|u IH|u IH|u IH|u IH|u IH|u IH];
    intros b;
    cbn [NilEmpty.string_of_uint list_ascii_of_string Py.digits Pos.of_uint];
    [reflexivity|..];
    match goal with
    | |- context [Py.isdigit ?c] => change (Py.isdigit c) with true
    end; cbv iota;
    match goal with
    | |- context [Py.digit_value ?c] =>
        let v := eval vm_compute in (Py.digit_value c) in
        change (Py.digit_value c) with v
    end;
    [ change (10 * 0 + 0) with 0; rewrite IH; destruct u; reflexivity
    | apply digits_of_uint_acc .. ].
Qed.

Lemma string_of_uint_digits : forall u,
  forallb Py.isdigit (list_ascii_of_string (NilEmpty.string_of_uint u)) = true.
Proof. induction u; simpl; auto. Qed.

Lemma lstrip_nonspace : forall c l,
  Py.isspace c = false -> Py.lstrip (c :: l) = c :: l.
Proof. intros c l H. simpl. now rewrite H. Qed.

Lemma digit_not_space : forall c, Py.isdigit c = true -> Py.isspace c = false.
Proof.
  intros c. destruct c as [[] [] [] [] [] [] [] []]; vm_compute; congruence.
Qed.

Lemma strip_digits : forall c l,
  Py.isspace c = false ->
  forallb Py.isdigit l = true -> l <> [] ->
  Py.strip (c :: l) = c :: l.
Proof.
  intros c l Hc Hl Hn. unfold Py.strip. rewrite lstrip_nonspace by exact Hc.
  destruct (@exists_last _ l Hn) as [l' [d ->]].
  rewrite app_comm_cons, rev_app_distr. cbn [rev app].
  rewrite forallb_app in Hl. apply andb_prop in Hl as [_ Hd].
  simpl in Hd. rewrite andb_true_r in Hd.
  rewrite lstrip_nonspace by now apply digit_not_space.
  cbn [rev]. now rewrite rev_app_distr, rev_involutive.
Qed.


Lemma digit_head : forall (c : ascii) (l : list ascii),
  Py.isdigit c = true ->
  match (c :: l)%list with
  | "-"%char :: rest => option_map Z.opp (Py.digits 0 false rest)
  | "+"%char :: rest => Py.digits 0 false rest
  | rest => Py.digits 0 false rest
  end = Py.digits 0 false (c :: l).
Proof.
  intros c l. destruct c as [[] [] [] [] [] [] [] []]; intros H;
    try reflexivity; vm_compute in H; discriminate.
Qed.

Lemma uint_chars : forall u, u <> Decimal.Nil ->
  exists c l, list_ascii_of_string (NilEmpty.string_of_uint u) = (c :: l)%list
              /\ Py.isdigit c = true /\ forallb Py.isdigit l = true.
Proof.
  intros u Hu. pose proof (string_of_uint_digits u) as H.
  destruct u; try contradiction; simpl in *; eexists; eexists;
    (split; [reflexivity | split; [reflexivity | exact H]]).
Qed.

Lemma int_of_uint : forall u, u <> Decimal.Nil ->
  Py.int (NilEmpty.string_of_uint u) = Some (Z.of_N (Pos.of_uint u)).
Proof.
  intros u Hu. unfold Py.int.
  destruct (@uint_chars u Hu) as [c [l [E [Hc Hl]]]].
  assert (Hs : Py.strip (list_ascii_of_string (NilEmpty.string_of_uint u))
               = list_ascii_of_string (NilEmpty.string_of_uint u)).
  { rewrite E. destruct l as [|d l].
    - unfold Py.strip. rewrite lstrip_nonspace by now apply digit_not_space.
      cbn [rev app]. rewrite lstrip_nonspace by now apply digit_not_space.
      reflexivity.
    - apply strip_digits; [now apply digit_not_space | exact Hl | discriminate]. }
  rewrite Hs, E, digit_head by exact Hc. rewrite <- E, digits_of_uint.
  destruct u; try reflexivity. contradiction.
Qed.

Lemma int_of_minus_uint : forall u, u <> Decimal.Nil ->
  Py.int (String "-" (NilEmpty.string_of_uint u))
  = Some (- Z.of_N (Pos.of_uint u)).
Proof.
  intros u Hu. unfold Py.int.
  destruct (@uint_chars u Hu) as [c [l [E [Hc Hl]]]].
  cbn [list_ascii_of_string]. rewrite E.
  rewrite strip_digits;
    [| reflexivity | simpl; now rewrite Hc, Hl | discriminate].
  rewrite <- E, digits_of_uint. destruct u; try reflexivity. contradiction.
Qed.

Lemma int_str : forall z : Z, Py.int (Py.str z) = Some z.
Proof.
  intros z. unfold Py.str. rewrite <- (DecimalZ.of_to z) at 2.
  destruct z as [|p|p]; cbn [Z.to_int].
  - reflexivity.
  - unfold NilZero.string_of_int, NilZero.string_of_uint.
    pose proof (DecimalPos.Unsigned.to_uint_nonnil p) as Hn.
    destruct (Pos.to_uint p) eqn:E; try contradiction;
      rewrite <- E in *; cbn [NilEmpty.string_of_int]; rewrite <- ?E;
      now rewrite int_of_uint.
  - unfold NilZero.string_of_int, NilZero.string_of_uint.
    pose proof (DecimalPos.Unsigned.to_uint_nonnil p) as Hn.
    destruct (Pos.to_uint p) eqn:E; try contradiction;
      rewrite <- E in *; cbn [NilEmpty.string_of_int]; rewrite <- ?E;
      now rewrite int_of_minus_uint.
Qed.

(** ** From the pid line of [run] to [kill] *)

Lemma procs_get_set_same : forall d k v,
  procs_get (procs_set d k v) k = Some v.
Proof.
  induction d as [|[k' v'] d IH]; intros k v; simpl.
  - now rewrite Z.eqb_refl.
  - destruct (Z.eqb k' k) eqn:E; simpl; rewrite E; [reflexivity | apply IH].
Qed.

Lemma procs_get_set_other : forall d k k' v,
  k' <> k -> procs_get (procs_set d k v) k' = procs_get d k'.
Proof.
  induction d as [|[k0 v0] d IH]; intros k k' v Hne; simpl.
  - destruct (Z.eqb k k') eqn:E; [|reflexivity].
    apply Z.eqb_eq in E. congruence.
  - destruct (Z.eqb k0 k) eqn:E; simpl.
    + apply Z.eqb_eq in E. subst k0.
      destruct (Z.eqb k k') eqn:E'; [|reflexivity].
      apply Z.eqb_eq in E'. congruence.
    + destruct (Z.eqb k0 k'); [reflexivity | now apply IH].
Qed.

Lemma cleanup_idle : forall w s, COMPLETED s = [] -> cleanup w s = (Return tt, s).
Proof.
  intros w s H. unfold cleanup, bind, gets, modify. cbn beta iota.
  rewrite H. cbn [for_]. unfold ret. destruct s; simpl in *. now subst.
Qed.

Lemma handle_returns_false : forall w cmd f args s s1,
  HANDLERS w cmd = Some f ->
  f (randint w) args s = (Return false, s1) ->
  COMPLETED s1 = [] ->
  handle w (cmd :: args) s = (Return false, s1).
Proof.
  intros w cmd f args s s1 Hf E Hc. unfold handle. rewrite Hf. cbv zeta.
  unfold bind, try_except. rewrite E. unfold ret.
  now rewrite (@cleanup_idle w s1 Hc).
Qed.





(* ===================================================================== *)
(** * The rows that [parse] returns *)
(* ===================================================================== *)

Lemma take_while_firstn : forall cls n s,
  (n <= Regex.take_while cls s)%nat ->
  forallb cls (firstn n s) = true /\ List.length (firstn n s) = n.
Proof.
  intros cls n. induction n as [|n IH]; intros s H; [now split|].
  destruct s as [|c s]; simpl in H; [lia|].
  destruct (cls c) eqn:E; [|lia].
  destruct (IH s) as [H1 H2]; [lia|]. simpl. now rewrite E, H1, H2.
Qed.

Lemma take_while_next : forall cls n s c rest,
  (n <= Regex.take_while cls s)%nat ->
  skipn n s = c :: rest -> cls c = true ->
  (S n <= Regex.take_while cls s)%nat.
Proof.
  intros cls n. induction n as [|n IH]; intros s c rest H Hs Hc.
  - simpl in Hs. subst s. simpl. rewrite Hc. lia.
  - destruct s as [|d s]; [discriminate|]. simpl in *.
    destruct (cls d); [|lia]. apply le_n_S. eapply IH; eauto. lia.
Qed.

Lemma skipn_next : forall (A : Type) n (s : list A) c rest,
  skipn n s = c :: rest ->
  skipn (S n) s = rest /\ firstn (S n) s = (firstn n s ++ [c])%list.
Proof.
  intros A n. induction n as [|n IH]; intros s c rest H.
  - simpl in H. subst s. now split.
  - destruct s as [|d s]; [discriminate|].
    destruct (IH s c rest H) as [H1 H2]. split; [exact H1|].
    change (firstn (S (S n)) (d :: s)) with (d :: firstn (S n) s).
    now rewrite H2.
Qed.

Lemma exec_rep : forall lo cls rest s cur caps out,
  Regex.exec (Regex.Rep lo cls :: rest) s cur caps = Some out ->
  exists n : nat,
    (lo <= n <= Regex.take_while cls s)%nat
    /\ (forall m, (n < m <= Regex.take_while cls s)%nat ->
                  Regex.exec rest (skipn m s) (cur ++ firstn m s) caps = None)
    /\ Regex.exec rest (skipn n s) (cur ++ firstn n s) caps = Some out.
Proof.
  intros lo cls rest s cur caps out H. cbn [Regex.exec] in H.
  revert H. generalize (Regex.take_while cls s).
  intros k. induction k as [|k IHk]; intros H.
  - destruct (0 <? lo)%nat eqn:E; [discriminate|].
    apply Nat.ltb_ge in E.
    destruct (Regex.exec rest (skipn 0 s) (cur ++ firstn 0 s) caps)
      as [r|] eqn:Er; [|discriminate].
    injection H as <-. exists 0%nat. split; [lia|]. split; [intros; lia|].
    exact Er.
  - destruct (S k <? lo)%nat eqn:E; [discriminate|].
    apply Nat.ltb_ge in E.
    destruct (Regex.exec rest (skipn (S k) s) (cur ++ firstn (S k) s) caps)
      as [r|] eqn:Er.
    + injection H as <-. exists (S k). split; [lia|]. split; [intros; lia|].
      exact Er.
    + destruct (IHk H) as [n [Hn [Hmax Hacc]]].
      exists n. split; [lia|]. split; [|exact Hacc].
      intros m Hm. destruct (Nat.eq_dec m (S k)) as [->|Hne];
        [exact Er | apply Hmax; lia].
Qed.

Lemma exec_accepts : forall items s cur caps out,
  Regex.exec items s cur caps = Some out -> accepts items s cur caps out.
Proof.
  induction items as [|[lo cls|c| |] rest IH]; intros s cur caps out H.
  - simpl in *. now injection H as <-.
  - apply exec_rep in H as [n [[Hlo Hn] [Hmax Hrest]]]. cbn [accepts].
    destruct (@take_while_firstn cls n s Hn) as [Hcls Hlen].
    exists (firstn n s), (skipn n s).
    split; [now rewrite firstn_skipn|]. split; [now rewrite Hlen|].
    split; [exact Hcls|]. split; [|now apply IH].
    intros c y' Hy Hc.
    destruct (@skipn_next _ n s c y' Hy) as [H1 H2].
    rewrite <- H1, <- H2. apply Hmax. split; [lia|].
    eapply take_while_next; eauto.
  - cbn [Regex.exec] in H. cbn [accepts].
    destruct s as [|x s']; [discriminate|].
    destruct (Ascii.eqb x c) eqn:E; [|discriminate].
    apply Ascii.eqb_eq in E. subst x. exists s'. split; [reflexivity|].
    now apply IH.
  - cbn [Regex.exec accepts] in *. now apply IH.
  - cbn [Regex.exec accepts] in *. now apply IH.
Qed.

Lemma exec_last_group : forall cls s cur caps,
  Regex.exec [Regex.GroupOpen; Regex.Rep 0 cls; Regex.GroupClose] s cur caps
  <> None.
Proof.
  intros cls s cur caps. cbn [Regex.exec].
  destruct (Regex.take_while cls s); simpl; discriminate.
Qed.

Lemma list_of_string_of_list : forall l,
  list_ascii_of_string (string_of_list_ascii l) = l.
Proof. induction l as [|c l IH]; simpl; [reflexivity | now rewrite IH]. Qed.

Lemma run_of_list : forall cls x,
  (1 <= List.length x)%nat -> forallb cls x = true ->
  run_of cls (string_of_list_ascii x).
Proof.
  intros cls x Hl Hc. split.
  - intros E. apply (f_equal String.length) in E.
    rewrite string_of_list_length in E. simpl in E. lia.
  - now rewrite list_of_string_of_list.
Qed.

Ltac open_accepts H :=
  repeat match type of H with
         | exists x y : list ascii, _ =>
             let x := fresh "x" in
             let y := fresh "y" in
             let Hs := fresh "Hs" in
             let Hl := fresh "Hl" in
             let Hc := fresh "Hc" in
             let Hm := fresh "Hm" in
             destruct H as [x [y [Hs [Hl [Hc [Hm H]]]]]]
         | exists s' : list ascii, _ =>
             let s' := fresh "s" in
             let Hs := fresh "Hs" in
             destruct H as [s' [Hs H]]
         end.

Lemma pattern_accepts_rows : forall s out,
  accepts pattern s [] [] out ->
  exists r, out = row_fields r /\ well_formed r.
Proof.
  intros s out E.
  cbn [accepts pattern whitespace number nonspace letters anything] in E.
  open_accepts E.
  repeat match goal with
         | Hm : forall c y', _ -> _ -> Regex.exec (_ :: _ :: _ :: _ :: _) _ _ _ = None |- _ => clear Hm
         end.
  subst out. cbn [app].
  eexists (Row _ _ _ _ _). split; [reflexivity|].
  unfold well_formed. cbn [r_pid r_ppid r_stat r_lstart r_command app].
  split; [now apply run_of_list|]. split; [now apply run_of_list|].
  split; [now apply run_of_list|]. split.
  - exists (string_of_list_ascii x7), (string_of_list_ascii x8),
      (string_of_list_ascii x9), (string_of_list_ascii x10),
      (string_of_list_ascii x11), (string_of_list_ascii x12),
      (string_of_list_ascii x13), (string_of_list_ascii x14),
      (string_of_list_ascii x15), (string_of_list_ascii x16),
      (string_of_list_ascii x17).
    split.
    + rewrite !string_of_list_app. cbn [string_of_list_ascii].
      rewrite !string_app_assoc. reflexivity.
    + repeat match goal with |- _ /\ _ => split end;
        apply run_of_list; assumption.
  - split.
    + unfold all_of. now rewrite list_of_string_of_list.
    + destruct x19 as [|c x19]; [exact I|]. cbn [string_of_list_ascii].
      destruct (Py.isspace c) eqn:Ec; [|reflexivity].
      exfalso. cbn [app] in Hs20.
      pose proof (Hm17 c _ Hs20 Ec) as Hx. unfold anything in Hx.
      match type of Hx with
      | Regex.exec _ ?s ?cur ?caps = None =>
          exact (@exec_last_group _ s cur caps Hx)
      end.
Qed.

Lemma parse_eq : forall line,
  parse line
  = match Regex.search pattern line with
    | Some [g1; g2; g3; g4; g5] => Some (Row g1 g2 g3 g4 g5)
    | _ => None
    end.
Proof. intros line. reflexivity. Qed.

Lemma search_eq : forall items line,
  Regex.search items line
  = Regex.exec items (list_ascii_of_string line) [] [].
Proof. reflexivity. Qed.

Lemma fields_of_groups : forall (res : option (list string)) r,
  match res with
  | Some [g1; g2; g3; g4; g5] => Some (Row g1 g2 g3 g4 g5)
  | _ => None
  end = Some r ->
  res = Some (row_fields r).
Proof.
  intros res r H.
  destruct res as [[|g1 [|g2 [|g3 [|g4 [|g5 [|g6 out]]]]]]|]; try discriminate.
  now injection H as <-.
Qed.

Lemma parse_accepts : forall line r,
  parse line = Some r ->
  accepts pattern (list_ascii_of_string line) [] [] (row_fields r).
Proof.
  intros line r H. rewrite parse_eq in H.
  pose proof (@fields_of_groups (Regex.search pattern line) r H) as E.
  rewrite search_eq in E.
  exact (@exec_accepts pattern (list_ascii_of_string line) [] [] _ E).
Qed.

Lemma row_fields_inj : forall r r', row_fields r = row_fields r' -> r = r'.
Proof.
  intros [a b c d e] [a' b' c' d' e'] E. unfold row_fields in E. cbn in E.
  now injection E as -> -> -> -> ->.
Qed.

Lemma parse_gives_well_formed : forall line r,
  parse line = Some r -> well_formed r.
Proof.
  intros line r H. apply parse_accepts in H.
  apply pattern_accepts_rows in H as [r' [E H]].
  now rewrite (row_fields_inj E).
Qed.

(** X11: every row that [parse] returns has the shape that the regular
    expression describes: pid and ppid are non-empty runs of digits, stat
    is a non-empty run of characters that are not whitespace, lstart is a
    day of week, a month, a day, [hh:mm:ss] and a year separated by
    whitespace, and the command holds no newline and, the whitespace
    before it being matched greedily, does not start with whitespace. *)
Theorem parse_well_formed : forall (line : string) (r : row),
  parse line = Some r -> well_formed r.
Proof.
  intros line r H. exact (@parse_gives_well_formed line r H).
Qed.

Lemma parse_well_formed_witness :
  well_formed (Row "1" "0" "S" "Mon Jan 1 00:00:00 2024" "init").
Proof.
  apply (@parse_well_formed "1 0 S Mon Jan 1 00:00:00 2024 init").
  vm_compute. reflexivity.
Defined.

(** ** A row printed by [diff] parses to itself *)

Lemma take_while_run : forall cls x y,
  forallb cls x = true -> stops cls y ->
  Regex.take_while cls (x ++ y) = List.length x.
Proof.
  intros cls x y Hx Hy. induction x as [|c x IH]; simpl in *.
  - destruct y as [|d y]; [reflexivity|]. unfold stops in Hy.
    cbn [Regex.take_while]. now rewrite Hy.
  - apply andb_prop in Hx as [Hc Hx]. rewrite Hc. now rewrite IH.
Qed.

Lemma exec_rep_at : forall lo rest s cur caps out k,
  (lo <= k)%nat ->
  Regex.exec rest (skipn k s) (cur ++ firstn k s) caps = Some out ->
  (fix give_back (n : nat) : option (list string) :=
     if (n <? lo)%nat then None
     else match Regex.exec rest (skipn n s) (cur ++ firstn n s) caps with
          | Some r => Some r
          | None => match n with
                    | O => None
                    | S n' => give_back n'
                    end
          end) k = Some out.
Proof.
  intros lo rest s cur caps out k Hk H.
  assert (E : (k <? lo)%nat = false) by (apply Nat.ltb_ge; exact Hk).
  destruct k; rewrite E, H; reflexivity.
Qed.

Lemma exec_rep_run : forall lo cls rest x y cur caps out,
  forallb cls x = true ->
  (lo <= List.length x)%nat ->
  stops cls y ->
  Regex.exec rest y (cur ++ x) caps = Some out ->
  Regex.exec (Regex.Rep lo cls :: rest) (x ++ y) cur caps = Some out.
Proof.
  intros lo cls rest x y cur caps out Hx Hl Hy H.
  cbn [Regex.exec]. rewrite (@take_while_run cls x y Hx Hy).
  apply (@exec_rep_at lo rest (x ++ y)%list cur caps out _ Hl).
  now rewrite skipn_app, skipn_all, Nat.sub_diag, firstn_app, firstn_all,
    Nat.sub_diag, app_nil_r.
Qed.

Lemma exec_group_open : forall rest s cur caps,
  Regex.exec (Regex.GroupOpen :: rest) s cur caps = Regex.exec rest s [] caps.
Proof. reflexivity. Qed.

Lemma exec_group_close : forall rest s cur caps,
  Regex.exec (Regex.GroupClose :: rest) s cur caps
  = Regex.exec rest s [] (caps ++ [string_of_list_ascii cur]).
Proof. reflexivity. Qed.

Lemma exec_lit : forall c rest s cur caps,
  Regex.exec (Regex.Lit c :: rest) (c :: s) cur caps
  = Regex.exec rest s (cur ++ [c]) caps.
Proof. intros. cbn [Regex.exec]. now rewrite Ascii.eqb_refl. Qed.

Lemma stops_run : forall cls cls' x y,
  (forall c, cls' c = true -> cls c = false) ->
  (1 <= List.length x)%nat -> forallb cls' x = true ->
  stops cls (x ++ y).
Proof.
  intros cls cls' [|c x] y H Hl Hx; simpl in *; [lia|].
  apply andb_prop in Hx as [Hc _]. now apply H.
Qed.

Lemma letter_not_space : forall c, Py.isletter c = true -> Py.isspace c = false.
Proof.
  intros c. destruct c as [[] [] [] [] [] [] [] []]; vm_compute; congruence.
Qed.

Lemma space_not_digit : forall c, Py.isspace c = true -> Py.isdigit c = false.
Proof.
  intros c. destruct c as [[] [] [] [] [] [] [] []]; vm_compute; congruence.
Qed.

Lemma space_not_letter : forall c, Py.isspace c = true -> Py.isletter c = false.
Proof.
  intros c. destruct c as [[] [] [] [] [] [] [] []]; vm_compute; congruence.
Qed.

Lemma nonspace_not_space : forall c,
  negb (Py.isspace c) = true -> Py.isspace c = false.
Proof. intros c H. now apply negb_true_iff. Qed.

Lemma space_not_nonspace : forall c,
  Py.isspace c = true -> negb (Py.isspace c) = false.
Proof. intros c H. now rewrite H. Qed.

Lemma exec_rep_none : forall cls rest y cur caps out,
  stops cls y ->
  Regex.exec rest y cur caps = Some out ->
  Regex.exec (Regex.Rep 0 cls :: rest) y cur caps = Some out.
Proof.
  intros cls rest y cur caps out Hy H.
  apply (@exec_rep_run 0 cls rest [] y cur caps out);
    [reflexivity | simpl; lia | exact Hy | now rewrite app_nil_r].
Qed.

Lemma exec_rep_one : forall lo cls rest c y cur caps out,
  cls c = true -> (lo <= 1)%nat -> stops cls y ->
  Regex.exec rest y (cur ++ [c]) caps = Some out ->
  Regex.exec (Regex.Rep lo cls :: rest) (c :: y) cur caps = Some out.
Proof.
  intros lo cls rest c y cur caps out Hc Hl Hy H.
  apply (@exec_rep_run lo cls rest [c] y cur caps out);
    [simpl; now rewrite Hc | simpl; lia | exact Hy | exact H].
Qed.

Section Canonical.
Variables pid ppid stat dow g1 mon g2 day g3 hh mm ss g4 year cmd : list ascii.
Hypothesis pid_digits : forallb Py.isdigit pid = true.
Hypothesis pid_length : (1 <= List.length pid)%nat.
Hypothesis ppid_digits : forallb Py.isdigit ppid = true.
Hypothesis ppid_length : (1 <= List.length ppid)%nat.
Hypothesis stat_nonspace : forallb (fun c => negb (Py.isspace c)) stat = true.
Hypothesis stat_length : (1 <= List.length stat)%nat.
Hypothesis dow_letters : forallb Py.isletter dow = true.
Hypothesis dow_length : (1 <= List.length dow)%nat.
Hypothesis g1_spaces : forallb Py.isspace g1 = true.
Hypothesis g1_length : (1 <= List.length g1)%nat.
Hypothesis mon_letters : forallb Py.isletter mon = true.
Hypothesis mon_length : (1 <= List.length mon)%nat.
Hypothesis g2_spaces : forallb Py.isspace g2 = true.
Hypothesis g2_length : (1 <= List.length g2)%nat.
Hypothesis day_digits : forallb Py.isdigit day = true.
Hypothesis day_length : (1 <= List.length day)%nat.
Hypothesis g3_spaces : forallb Py.isspace g3 = true.
Hypothesis g3_length : (1 <= List.length g3)%nat.
Hypothesis hh_digits : forallb Py.isdigit hh = true.
Hypothesis hh_length : (1 <= List.length hh)%nat.
Hypothesis mm_digits : forallb Py.isdigit mm = true.
Hypothesis mm_length : (1 <= List.length mm)%nat.
Hypothesis ss_digits : forallb Py.isdigit ss = true.
Hypothesis ss_length : (1 <= List.length ss)%nat.
Hypothesis g4_spaces : forallb Py.isspace g4 = true.
Hypothesis g4_length : (1 <= List.length g4)%nat.
Hypothesis year_digits : forallb Py.isdigit year = true.
Hypothesis year_length : (1 <= List.length year)%nat.
Hypothesis cmd_line : forallb (fun c => negb (Ascii.eqb c Py.newline)) cmd = true.
Hypothesis cmd_start : stops Py.isspace cmd.

Let sp : ascii := " "%char.
Let colon : ascii := ":"%char.

Lemma exec_canonical :
  Regex.exec pattern
    (pid ++ sp :: ppid ++ sp :: stat ++ sp ::
     dow ++ g1 ++ mon ++ g2 ++ day ++ g3 ++ hh ++ colon :: mm ++ colon :: ss
     ++ g4 ++ year ++ sp :: cmd ++ [])%list [] []
  = Some [string_of_list_ascii pid; string_of_list_ascii ppid;
          string_of_list_ascii stat;
          string_of_list_ascii
            (dow ++ g1 ++ mon ++ g2 ++ day ++ g3 ++ hh ++ colon :: mm
             ++ colon :: ss ++ g4 ++ year)%list;
          string_of_list_ascii cmd].
Proof.
  unfold pattern, whitespace, number, nonspace, letters, anything.
  (* \s* *)
  apply exec_rep_none; [|].
  { eapply stops_run; [exact digit_not_space | assumption | assumption]. }
  rewrite exec_group_open.
  apply exec_rep_run; [assumption | assumption | reflexivity |].
  rewrite exec_group_close.
  apply exec_rep_one; [reflexivity | lia | |].
  { eapply stops_run; [exact digit_not_space | assumption | assumption]. }
  rewrite exec_group_open.
  apply exec_rep_run; [assumption | assumption | reflexivity |].
  rewrite exec_group_close.
  apply exec_rep_one; [reflexivity | lia | |].
  { eapply stops_run; [exact nonspace_not_space | assumption | assumption]. }
  rewrite exec_group_open.
  apply exec_rep_run; [assumption | assumption | reflexivity |].
  rewrite exec_group_close.
  apply exec_rep_one; [reflexivity | lia | |].
  { eapply stops_run; [exact letter_not_space | assumption | assumption]. }
  rewrite exec_group_open.
  apply exec_rep_run; [assumption | assumption | |].
  { eapply stops_run; [exact space_not_letter | assumption | assumption]. }
  apply exec_rep_run; [assumption | assumption | |].
  { eapply stops_run; [exact letter_not_space | assumption | assumption]. }
  apply exec_rep_run; [assumption | assumption | |].
  { eapply stops_run; [exact space_not_letter | assumption | assumption]. }
  apply exec_rep_run; [assumption | assumption | |].
  { eapply stops_run; [exact digit_not_space | assumption | assumption]. }
  apply exec_rep_run; [assumption | assumption | |].
  { eapply stops_run; [exact space_not_digit | assumption | assumption]. }
  apply exec_rep_run; [assumption | assumption | |].
  { eapply stops_run; [exact digit_not_space | assumption | assumption]. }
  apply exec_rep_run; [assumption | assumption | reflexivity |].
  rewrite exec_lit.
  apply exec_rep_run; [assumption | assumption | reflexivity |].
  rewrite exec_lit.
  apply exec_rep_run; [assumption | assumption | |].
  { eapply stops_run; [exact space_not_digit | assumption | assumption]. }
  apply exec_rep_run; [assumption | assumption | |].
  { eapply stops_run; [exact digit_not_space | assumption | assumption]. }
  apply exec_rep_run; [assumption | assumption | reflexivity |].
  rewrite exec_group_close.
  apply exec_rep_one; [reflexivity | lia | |].
  { destruct cmd; [exact I | exact cmd_start]. }
  rewrite exec_group_open.
  apply exec_rep_run; [assumption | lia | exact I |].
  rewrite exec_group_close. cbn [Regex.exec app].
  repeat rewrite <- app_assoc. reflexivity.
Qed.

End Canonical.

Lemma list_of_string_app : forall a b : string,
  list_ascii_of_string (a ++ b)
  = (list_ascii_of_string a ++ list_ascii_of_string b)%list.
Proof.
  induction a as [|c a IH]; intros b; simpl; [reflexivity | now rewrite IH].
Qed.

Lemma run_of_chars : forall cls s,
  run_of cls s ->
  forallb cls (list_ascii_of_string s) = true
  /\ (1 <= List.length (list_ascii_of_string s))%nat.
Proof.
  intros cls s [Hn Hc]. split; [exact Hc|].
  destruct s; [contradiction | simpl; lia].
Qed.

Lemma well_formed_parses : forall r,
  well_formed r -> parse (Py.join " " (row_fields r)) = Some r.
Proof.
  intros [pid ppid stat lstart cmd] H. unfold well_formed in H.
  cbn [r_pid r_ppid r_stat r_lstart r_command] in H.
  destruct H as [Hpid [Hppid [Hstat [Hts [Hcmd Hstart]]]]].
  destruct Hts as [dow [g1 [mon [g2 [day [g3 [hh [mm [ss [g4 [year
    [-> [Hdow [Hg1 [Hmon [Hg2 [Hday [Hg3 [Hhh [Hmm [Hss [Hg4 Hyear]]]]]]]]]]]]]]]]]]]]]].
  apply run_of_chars in Hpid as [? ?], Hppid as [? ?], Hstat as [? ?],
    Hdow as [? ?], Hg1 as [? ?], Hmon as [? ?], Hg2 as [? ?], Hday as [? ?],
    Hg3 as [? ?], Hhh as [? ?], Hmm as [? ?], Hss as [? ?], Hg4 as [? ?],
    Hyear as [? ?].
  assert (Hstop : stops Py.isspace (list_ascii_of_string cmd))
    by (destruct cmd; [exact I | exact Hstart]).
  pose proof (@exec_canonical
                (list_ascii_of_string pid) (list_ascii_of_string ppid)
                (list_ascii_of_string stat) (list_ascii_of_string dow)
                (list_ascii_of_string g1) (list_ascii_of_string mon)
                (list_ascii_of_string g2) (list_ascii_of_string day)
                (list_ascii_of_string g3) (list_ascii_of_string hh)
                (list_ascii_of_string mm) (list_ascii_of_string ss)
                (list_ascii_of_string g4) (list_ascii_of_string year)
                (list_ascii_of_string cmd)) as E.
  repeat match type of E with
         | _ -> _ => let L := fresh in
                     assert (L : _) by eassumption; specialize (E L); clear L
         | ?A -> _ => let L := fresh in
                     assert (L : A) by assumption; specialize (E L); clear L
         end.
  rewrite app_nil_r in E.
  rewrite parse_eq, search_eq.
  unfold Py.join, row_fields.
  cbn [r_pid r_ppid r_stat r_lstart r_command String.concat].
  rewrite !list_of_string_app. cbn [list_ascii_of_string app].
  repeat (rewrite <- app_assoc || rewrite <- app_comm_cons).
  rewrite E.
  repeat (first [rewrite string_of_list_app | progress (cbn [string_of_list_ascii])]).
  rewrite !string_of_list_ascii_of_string. reflexivity.
Qed.

(** X12: a row that [parse] returns is recovered from the line that
    [diff] prints for it: the fields joined by single spaces, which is
    the text of a [+] or [~] line after its marker, parse to the same
    row. *)
Theorem printed_row_parses_to_itself : forall (line : string) (r : row),
  parse line = Some r ->
  parse (Py.join " " (row_fields r)) = Some r.
Proof.
  intros line r H. apply well_formed_parses.
  exact (@parse_gives_well_formed line r H).
Qed.

Lemma printed_row_parses_to_itself_witness :
  parse (Py.join " "
           (row_fields (Row "12" "1" "Ss+" "Mon  Jan  1 00:00:00 2024" "a b")))
  = Some (Row "12" "1" "Ss+" "Mon  Jan  1 00:00:00 2024" "a b").
Proof.
  apply (@printed_row_parses_to_itself
           "  12   1 Ss+   Mon  Jan  1 00:00:00 2024   a b").
  vm_compute. reflexivity.
Defined.

(* ===================================================================== *)
(** * Every request and its answer *)
(* ===================================================================== *)

Lemma str_payload_line : forall z, payload_line (Py.str z) = true.
Proof.
  intros [|p|p]; unfold Py.str, Z.to_int; simpl; try reflexivity;
    destruct (Pos.to_uint p); reflexivity.
Qed.

Lemma diff_payload_lines : forall set_iter results last lines,
  Monitor.diff set_iter results last = Val lines ->
  forallb payload_line lines = true.
Proof.
  intros set_iter results last lines H. unfold Monitor.diff in H.
  match type of H with
  | pybind (map_exc ?f ?l) _ = _ =>
      destruct (map_exc f l) as [additions|e] eqn:Ea; simpl in H; [|discriminate]
  end.
  match type of H with
  | pybind (map_exc ?f ?l) _ = _ =>
      destruct (map_exc f l) as [edits|e] eqn:Ee; simpl in H; [|discriminate]
  end.
  injection H as <-.
  rewrite !forallb_app. repeat (apply andb_true_iff; split).
  - apply forallb_forall. apply Forall_forall.
    eapply map_exc_forall; [|exact Ea].
    intros a b _ Hb. simpl in Hb.
    destruct (subscript results a); simpl in Hb; [|discriminate].
    injection Hb as <-. reflexivity.
  - apply forallb_forall. intros x Hx. apply in_map_iff in Hx as [k [<- _]].
    reflexivity.
  - apply forallb_concat. eapply map_exc_forall; [|exact Ee].
    intros a b _ Hb. simpl in Hb.
    destruct (Dict.mem last a); [|injection Hb as <-; reflexivity].
    destruct (subscript results a); simpl in Hb; [|discriminate].
    destruct (subscript last a); simpl in Hb; [|discriminate].
    destruct (negb (row_eqb a0 a1)); injection Hb as <-; reflexivity.
Qed.

Ltac answer_none :=
  exists []; split;
  [ split; [cbn; now rewrite app_nil_r | split; reflexivity]
  | left; split; [reflexivity | eexists; reflexivity] ].

Ltac answer_abort :=
  eexists; split;
  [ split; [cbn; reflexivity | split; reflexivity]
  | right; left; eexists; split; reflexivity ].

Ltac answer_framed payload status :=
  eexists; split;
  [ split; [cbn; rewrite <- ?app_assoc; reflexivity | split; reflexivity]
  | right; right; left; exists payload, status; eexists;
    split; [reflexivity |
    split; [first [left; reflexivity | right; reflexivity] |
    split; [|reflexivity]]] ].

Lemma handle_run_answers : forall w identifier args s,
  QUITTING s = false ->
  exists added,
    leaves s added (snd (handle_run w identifier args s))
    /\ answer identifier "run" (fst (handle_run w identifier args s)) added.
Proof.
  intros w identifier args s Hq.
  destruct s as [procs completed quitting registered lastps armed task out ts ps].
  simpl in Hq. subst quitting. unfold leaves, handle_run.
  destruct args as [|a args]; [answer_none|].
  destruct (spawned w) as [pid|]; [|answer_none].
  unfold bind, modify, begin, end_, send, handle_read, ret. cbn.
  answer_framed [Py.str pid] 0.
  cbn. now rewrite str_payload_line.
Qed.

Lemma handle_login_answers : forall w identifier args s,
  QUITTING s = false ->
  exists added,
    leaves s added (snd (handle_login w identifier args s))
    /\ answer identifier "login" (fst (handle_login w identifier args s)) added.
Proof.
  intros w identifier args s Hq.
  destruct s as [procs completed quitting registered lastps armed task out ts ps].
  simpl in Hq. subst quitting. unfold leaves, handle_login.
  destruct args as [|a args]; [answer_none|].
  destruct (spawned w) as [pid|]; [|answer_none].
  unfold bind, modify, begin, end_, send, handle_read, ret. cbn.
  answer_framed [Py.str pid] 0.
  cbn. now rewrite str_payload_line.
Qed.

Lemma handle_reset_answers : forall identifier args s,
  QUITTING s = false ->
  exists added,
    leaves s added (snd (handle_reset identifier args s))
    /\ answer identifier "reset" (fst (handle_reset identifier args s)) added.
Proof.
  intros identifier args s Hq.
  destruct s as [procs completed quitting registered lastps armed task out ts ps].
  simpl in Hq. subst quitting. unfold leaves, handle_reset.
  unfold bind, modify, begin, end_, send, ret. cbn.
  answer_framed (@nil string) 0. reflexivity.
Qed.

Lemma handle_register_answers : forall identifier args s,
  QUITTING s = false ->
  exists added,
    leaves s added (snd (handle_register identifier args s))
    /\ answer identifier "register"
              (fst (handle_register identifier args s)) added.
Proof.
  intros identifier args s Hq.
  destruct s as [procs completed quitting registered lastps armed task out ts ps].
  simpl in Hq. subst quitting. unfold leaves, handle_register, fail.
  destruct args as [|a args];
    [unfold bind, send, sys_exit; cbn; answer_abort|].
  destruct (Py.int a) as [pid|];
    [|unfold bind, send, sys_exit; cbn; answer_abort].
  unfold register, bind, gets, modify, begin, end_, send, ret. cbn.
  match goal with
  | |- context [existsb ?f ?l] => destruct (existsb f l)
  end; cbn; answer_framed (@nil string) 0; reflexivity.
Qed.

Lemma handle_deregister_answers : forall identifier args s,
  QUITTING s = false ->
  exists added,
    leaves s added (snd (handle_deregister identifier args s))
    /\ answer identifier "deregister"
              (fst (handle_deregister identifier args s)) added.
Proof.
  intros identifier args s Hq.
  destruct s as [procs completed quitting registered lastps armed task out ts ps].
  simpl in Hq. subst quitting. unfold leaves, handle_deregister, fail.
  destruct args as [|a args];
    [unfold bind, send, sys_exit; cbn; answer_abort|].
  destruct (Py.int a) as [pid|];
    [|unfold bind, send, sys_exit; cbn; answer_abort].
  unfold deregister, bind, gets, modify, begin, end_, send, ret. cbn.
  match goal with
  | |- context [existsb ?f ?l] => destruct (existsb f l)
  end; cbn; answer_framed (@nil string) 0; reflexivity.
Qed.

Lemma handle_autopoll_answers : forall identifier args s,
  QUITTING s = false ->
  exists added,
    leaves s added (snd (handle_autopoll identifier args s))
    /\ answer identifier "autopoll"
              (fst (handle_autopoll identifier args s)) added.
Proof.
  intros identifier args s Hq.
  destruct s as [procs completed quitting registered lastps armed task out ts ps].
  simpl in Hq. subst quitting. unfold leaves, handle_autopoll.
  unfold bind, gets, modify, begin, end_, send, ret. cbn.
  destruct armed; cbn; [answer_framed (@nil string) 0; reflexivity|].
  destruct task; cbn; answer_framed (@nil string) 0; reflexivity.
Qed.

Lemma handle_quit_answers : forall identifier args s,
  QUITTING s = false ->
  exists added,
    leaves s added (snd (handle_quit identifier args s))
    /\ answer identifier "quit" (fst (handle_quit identifier args s)) added.
Proof.
  intros identifier args s Hq.
  destruct s as [procs completed quitting registered lastps armed task out ts ps].
  simpl in Hq. subst quitting. unfold leaves, handle_quit.
  unfold bind, gets, modify, cancel, begin, end_, send, ret. cbn.
  destruct task; cbn; answer_framed (@nil string) 0; reflexivity.
Qed.

Lemma handle_send_answers : forall w identifier args s,
  QUITTING s = false ->
  exists added,
    leaves s added (snd (handle_send w identifier args s))
    /\ answer identifier "send" (fst (handle_send w identifier args s)) added.
Proof.
  intros w identifier args s Hq.
  destruct s as [procs completed quitting registered lastps armed task out ts ps].
  simpl in Hq. subst quitting. unfold leaves, handle_send, fail.
  destruct args as [|a0 [|a1 args]];
    try (unfold bind, send, sys_exit; cbn; answer_abort).
  destruct (Py.int a0) as [pid|];
    [|unfold bind, send, sys_exit; cbn; answer_abort].
  destruct (decoded w) as [data|];
    [|unfold bind, send, sys_exit; cbn; answer_abort].
  unfold bind, gets, modify, begin, end_, send, ret. cbn.
  destruct (procs_get procs pid); cbn;
    [answer_framed (@nil string) 0 | answer_framed (@nil string) 1];
    reflexivity.
Qed.

Lemma handle_kill_answers : forall identifier args s,
  QUITTING s = false ->
  exists added,
    leaves s added (snd (handle_kill identifier args s))
    /\ answer identifier "kill" (fst (handle_kill identifier args s)) added.
Proof.
  intros identifier args s Hq.
  destruct s as [procs completed quitting registered lastps armed task out ts ps].
  simpl in Hq. subst quitting. unfold leaves, handle_kill, fail.
  destruct (option_map Py.int (hd_error args)) as [[pid|]|];
    try (unfold bind, send, sys_exit; cbn; answer_abort).
  unfold bind, gets, modify, begin, end_, send, error, raise, ret. cbn.
  destruct (procs_get procs pid); cbn.
  - answer_framed (@nil string) 0. reflexivity.
  - eexists; split;
      [ split; [cbn; reflexivity | split; reflexivity]
      | right; right; right; repeat split ].
Qed.

Lemma handle_poll_answers : forall w identifier args s,
  QUITTING s = false ->
  exists added,
    leaves s added (snd (handle_poll w identifier args s))
    /\ answer identifier "poll" (fst (handle_poll w identifier args s)) added.
Proof.
  intros w identifier args s Hq.
  destruct s as [procs completed quitting registered lastps armed task out ts ps].
  simpl in Hq. subst quitting. unfold leaves, handle_poll, poll.
  destruct (ps_returncode w =? 0);
    [|unfold bind, raise, ret; cbn; answer_none].
  unfold procmon_parse, bind, gets, modify.
  cbn [REGISTERED LASTPS QUITTING stdout fst snd with_LASTPS with_stdout].
  destruct (snapshot (depth w) registered (ps_output w)) as [results|e];
    cbn [lift ret raise LASTPS with_LASTPS]; [|answer_none].
  destruct (diff (set_iter w) results lastps) as [lines|e] eqn:Ed;
    cbn [lift ret raise]; [|answer_none].
  unfold bind, begin, end_, ret.
  rewrite send_loud by reflexivity. cbn.
  rewrite (@send_each_loud string (fun x => x)) by reflexivity. cbn.
  rewrite map_id.
  answer_framed lines 0.
  exact (@diff_payload_lines _ _ _ _ Ed).
Qed.

Lemma handler_answers : forall w cmd f identifier args s,
  HANDLERS w cmd = Some f ->
  QUITTING s = false ->
  exists added,
    leaves s added (snd (f identifier args s))
    /\ answer identifier cmd (fst (f identifier args s)) added.
Proof.
  intros w cmd f identifier args s H Hq. unfold HANDLERS in H.
  repeat match type of H with
         | (if String.eqb cmd ?c then _ else _) = _ =>
             let E := fresh "E" in
             destruct (String.eqb cmd c) eqn:E;
             [apply String.eqb_eq in E; subst cmd; injection H as <- | clear E]
         end; try discriminate.
  - now apply handle_run_answers.
  - now apply handle_login_answers.
  - now apply handle_send_answers.
  - now apply handle_kill_answers.
  - now apply handle_quit_answers.
  - now apply handle_register_answers.
  - now apply handle_deregister_answers.
  - now apply handle_poll_answers.
  - now apply handle_reset_answers.
  - now apply handle_autopoll_answers.
Qed.

(** X13: what a request prints.  In a state that the agent can reach and
    in which it is not quitting, [handle] called with a command adds to
    stdout either nothing (the handler raised an exception before it
    printed), or one [abort] line, the process then ending with the exit
    code -1, or [begin id], payload lines and [end id status], where [id]
    is the identifier drawn for the request, the status is 0 or 1 and no
    payload line starts with [begin ], [end ], [abort ] or [%]; or, for
    [kill] only, a [begin id] that no [end] closes. *)
Theorem every_request_has_one_answer :
  forall (trace : list (event * world)) (w : world) (cmd : string)
         (args : list string),
  let s := globals (run boot trace) in
  let r := handle w (cmd :: args) s in
  QUITTING s = false ->
  exists added,
    stdout (snd r) = (stdout s ++ added)%list
    /\ handled (randint w) cmd (fst r) added.
Proof.
  intros trace w cmd args s r Hq.
  pose proof (reachable_completed_empty trace) as Hc. fold s in Hc.
  unfold completed_empty in Hc. subst r. revert Hq Hc. generalize s. clear s.
  intros s Hq Hc. unfold handle.
  destruct (HANDLERS w cmd) as [f|] eqn:Hf.
  - destruct (@handler_answers w cmd f (randint w) args s Hf Hq)
      as [added [[Hout [Hq1 Hc1]] Ha]].
    cbv zeta. unfold bind, try_except.
    destruct (f (randint w) args s) as [[q|e|c] s1]; cbn [fst snd] in *.
    + assert (Hidle : forall s2, COMPLETED s2 = [] ->
                cleanup w s2 = (Return tt, s2))
        by (intros s2 H2; now apply cleanup_idle).
      exists added. destruct q; unfold modify, ret.
      * rewrite Hidle by (destruct s1; simpl in *; congruence).
        cbn [fst snd]. split; [now destruct s1|].
        destruct Ha as [[_ [e He]]|[[reason [_ He]]|[Hfr|[_ [_ He]]]]];
          try discriminate.
        right; right; left. exact Hfr.
      * rewrite Hidle by congruence. cbn [fst snd]. split; [exact Hout|].
        destruct Ha as [[_ [e He]]|[[reason [_ He]]|[Hfr|[_ [_ He]]]]];
          try discriminate.
        right; right; left. exact Hfr.
    + unfold ret. rewrite (@cleanup_idle w s1) by congruence.
      cbn [fst snd]. exists added. split; [exact Hout|].
      destruct Ha as [[Hn _]|[[reason [_ He]]|[[p [st [q [_ [_ [_ He]]]]]]|[Hb [Hk _]]]]];
        try discriminate.
      * left. now split.
      * right; right; right. now repeat split.
    + cbn [fst snd]. exists added. split; [exact Hout|].
      destruct Ha as [[_ [e He]]|[[reason [Hr He]]|[[p [st [q [_ [_ [_ He]]]]]]|[_ [_ He]]]]];
        try discriminate.
      right; left. exists reason. now split.
  - unfold fail, bind, sys_exit. rewrite send_loud by exact Hq.
    cbn [fst snd]. eexists. split; [now destruct s|].
    right; left. eexists. split; reflexivity.
Qed.

Lemma every_request_has_one_answer_witness :
  let w := mkWorld 7 None 0 "" None (fun _ => 0) (fun l => l) 10 in
  exists added,
    stdout (snd (handle w ["register"; "12"] initial)) = ([] ++ added)%list
    /\ handled 7 "register" (fst (handle w ["register"; "12"] initial)) added.
Proof.
  intros w.
  exact (@every_request_has_one_answer [] w "register" ["12"] eq_refl).
Defined.

(* ===================================================================== *)
(** * One autopoll frame for each [autopoll] request *)
(* ===================================================================== *)

Lemma autopoll_headers_app : forall a b,
  autopoll_headers (a ++ b) = (autopoll_headers a + autopoll_headers b)%nat.
Proof. intros. unfold autopoll_headers. now rewrite filter_app, length_app. Qed.

Lemma autopoll_headers_none : forall lines,
  forallb not_autopoll_header lines = true -> autopoll_headers lines = 0%nat.
Proof.
  intros lines H. unfold autopoll_headers.
  induction lines as [|l lines IH]; [reflexivity|]. simpl in *.
  apply andb_prop in H as [Hl H]. rewrite Hl. simpl. now apply IH.
Qed.

Lemma headers_are_framed : forall h, framed (headers_are h).
Proof.
  intros h. split;
    try (intros; match goal with
                 | H : headers_are _ ?s |- _ => destruct s; exact H
                 end).
  intros text Ht s H. unfold send. destruct (QUITTING s); [exact H|].
  unfold headers_are in *. destruct s; simpl in *.
  rewrite autopoll_headers_app, H.
  rewrite (@autopoll_headers_none [text]); [lia|]. simpl. now rewrite Ht.
Qed.

Lemma handle_autopoll_keeps_headers : forall h identifier args,
  preserves (headers_are h) (handle_autopoll identifier args).
Proof.
  intros h identifier args.
  pose proof (headers_are_framed h) as F.
  unfold handle_autopoll.
  apply preserves_bind; [now apply begin_keeps | intros _].
  apply preserves_bind; [now apply end_keeps | intros _].
  keeps_by ltac:(apply preserves_modify;
                 let s := fresh "s" in let H := fresh "H" in
                 intros s H; destruct s; exact H).
Qed.

Lemma handle_quit_keeps_headers : forall h identifier args,
  preserves (headers_are h) (handle_quit identifier args).
Proof.
  intros h identifier args.
  pose proof (headers_are_framed h) as F.
  unfold handle_quit, cancel.
  apply preserves_bind; [now apply begin_keeps | intros _].
  apply preserves_bind; [now apply end_keeps | intros _].
  keeps_by ltac:(apply preserves_modify;
                 let s := fresh "s" in let H := fresh "H" in
                 intros s H; destruct s; exact H).
Qed.

Lemma handle_keeps_headers : forall h w args,
  preserves (headers_are h) (handle w args).
Proof.
  intros h w args s H.
  exact (proj1 (@handle_gives (headers_are h) (headers_are h)
                  (headers_are_framed h) (headers_are_framed h)
                  (fun _ H => H)
                  (@handle_autopoll_keeps_headers h)
                  (@handle_quit_keeps_headers h) w args s H)).
Qed.

Lemma nth_error_list_update_same : forall (A : Type) (l : list A) i v,
  nth_error (list_update l i v) i
  = match nth_error l i with Some _ => Some v | None => None end.
Proof.
  induction l as [|x l IH]; intros [|i] v; simpl; try reflexivity. apply IH.
Qed.

Lemma pending_le_1 : forall s, (pending s <= 1)%nat.
Proof.
  intros s. unfold pending. destruct (AUTOPOLL_TASK s) as [t|]; [|lia].
  destruct (nth_error (tasks s) t) as [[| |]|]; try lia.
  destruct (AUTOPOLL s); lia.
Qed.

Lemma pending_cancel : forall t s,
  (pending (with_tasks (list_update (tasks s) t Finished) s) <= pending s)%nat.
Proof.
  intros t s. destruct s as [procs completed quitting registered lastps armed task out ts ps].
  unfold pending. simpl. destruct task as [t'|]; [|lia].
  destruct (Nat.eq_dec t t') as [->|Hne].
  - rewrite nth_error_list_update_same.
    destruct (nth_error ts t') as [[| |]|]; try destruct armed; lia.
  - rewrite nth_error_list_update_neq by assumption. lia.
Qed.

Lemma pending_disarm : forall s,
  (pending (with_AUTOPOLL false s) <= pending s)%nat.
Proof.
  intros s. destruct s as [procs completed quitting registered lastps armed task out ts ps].
  unfold pending. simpl. destruct task as [t|]; [|lia].
  destruct (nth_error ts t) as [[| |]|]; try destruct armed; lia.
Qed.

Ltac pending_leaf :=
  first
    [ apply send_keeps_stdout_free;
      let s := fresh "s" in let H := fresh "H" in
      intros ? s H; destruct s; exact H
    | apply preserves_modify;
      let s := fresh "s" in let H := fresh "H" in
      intros s H; unfold pending_le in *;
      first [ destruct s; exact H
            | eapply Nat.le_trans; [apply pending_cancel | exact H]
            | eapply Nat.le_trans; [apply pending_disarm | exact H]
            | destruct s; cbn; lia ] ].

Lemma handlers_keep_pending : forall k w cmd f identifier args,
  HANDLERS w cmd = Some f ->
  String.eqb cmd "autopoll" = false ->
  preserves (pending_le k) (f identifier args).
Proof.
  intros k w cmd f identifier args H Hc. unfold HANDLERS in H.
  rewrite Hc in H.
  repeat match type of H with
         | (if ?b then _ else _) = _ => destruct b
         end;
    try discriminate; injection H as <-; open_code;
    unfold register, deregister; keeps_by pending_leaf.
Qed.

Lemma cleanup_keeps_pending : forall k w, preserves (pending_le k) (cleanup w).
Proof. intros k w. unfold cleanup. keeps_by pending_leaf. Qed.

Lemma handle_keeps_pending : forall k w cmd args,
  String.eqb cmd "autopoll" = false ->
  preserves (pending_le k) (handle w (cmd :: args)).
Proof.
  intros k w cmd args Hc. unfold handle.
  destruct (HANDLERS w cmd) as [f|] eqn:Hf.
  - cbv zeta. apply preserves_bind; [|intros q].
    + apply preserves_try_except; [|intros e; apply preserves_ret].
      apply preserves_bind;
        [eapply handlers_keep_pending; eassumption | intros q].
      apply preserves_bind; [|intros _; apply preserves_ret].
      destruct q; [pending_leaf | apply preserves_ret].
    + apply preserves_bind; [apply cleanup_keeps_pending | intros _].
      apply preserves_ret.
  - unfold fail. keeps_by pending_leaf.
Qed.

Lemma pump_resume_keeps_pending : forall k w i value,
  preserves (pending_le k) (pump_resume w i value).
Proof.
  intros k w i value. unfold pump_resume, monitor_process, print_output, cleanup.
  keeps_by pending_leaf.
Qed.

Lemma send_quiet : forall text s,
  QUITTING s = true -> send text s = (Return tt, s).
Proof. intros text s H. unfold send. now rewrite H. Qed.

Lemma for_send_quiet : forall lines s,
  QUITTING s = true -> for_ lines send s = (Return tt, s).
Proof.
  induction lines as [|l lines IH]; intros s H; simpl; [reflexivity|].
  unfold bind, send at 1. rewrite H. now apply IH.
Qed.

Lemma autopoll_headers_header : forall x,
  autopoll_headers [("%autopoll " ++ x)%string] = 1%nat.
Proof. intros [|c x]; reflexivity. Qed.

Lemma autopoll_headers_end : forall x,
  autopoll_headers [("%end " ++ x)%string] = 0%nat.
Proof. intros x. reflexivity. Qed.

Lemma autopoll_body_effect : forall w s,
  tasks (snd (autopoll_body w s)) = tasks s
  /\ AUTOPOLL_TASK (snd (autopoll_body w s)) = AUTOPOLL_TASK s
  /\ match fst (autopoll_body w s) with
     | Return Disarmed =>
         AUTOPOLL (snd (autopoll_body w s)) = false
         /\ (autopoll_headers (stdout (snd (autopoll_body w s)))
             <= autopoll_headers (stdout s) + 1)%nat
     | _ =>
         AUTOPOLL (snd (autopoll_body w s)) = AUTOPOLL s
         /\ autopoll_headers (stdout (snd (autopoll_body w s)))
            = autopoll_headers (stdout s)
     end.
Proof.
  intros w s.
  destruct s as [procs completed quitting registered lastps armed task out ts ps].
  unfold autopoll_body, poll.
  destruct (ps_returncode w =? 0); [|cbn; auto].
  unfold procmon_parse, bind, gets, modify.
  cbn [REGISTERED LASTPS QUITTING stdout fst snd with_LASTPS with_stdout].
  destruct (snapshot (depth w) registered (ps_output w)) as [results|e];
    cbn [lift ret raise LASTPS with_LASTPS]; [|cbn; auto].
  destruct (diff (set_iter w) results lastps) as [lines|e] eqn:Ed;
    cbn [lift ret raise]; [|cbn; auto].
  destruct lines as [|l lines]; [cbn; auto|].
  destruct quitting.
  - rewrite send_quiet by reflexivity. cbv beta iota.
    rewrite for_send_quiet by reflexivity. cbv beta iota.
    rewrite send_quiet by reflexivity. cbn -[autopoll_headers Nat.add].
    repeat split; auto. lia.
  - rewrite send_loud by reflexivity. cbv beta iota.
    rewrite (@send_each_loud string (fun x => x)) by reflexivity.
    cbv beta iota.
    rewrite send_loud by reflexivity. cbn -[autopoll_headers Nat.add].
    rewrite map_id.
    repeat split; auto.
    rewrite !autopoll_headers_app.
    pose proof (@autopoll_headers_none _ (@diff_not_autopoll_header _ _ _ _ Ed)) as Hl.
    rewrite Hl.
    pose proof (autopoll_headers_header (Py.str (randint w))) as Hh.
    pose proof (autopoll_headers_end (Py.str (randint w))) as He.
    cbn [String.append] in Hh, He. rewrite Hh, He. lia.
Qed.

Lemma autopoll_resume_balance : forall w t s,
  one_task s ->
  (autopoll_headers (stdout (snd (autopoll_resume w t s)))
   + pending (snd (autopoll_resume w t s))
   <= autopoll_headers (stdout s) + pending s)%nat.
Proof.
  intros w t s Hs.
  remember (autopoll_resume w t s) as r eqn:Er.
  unfold autopoll_resume, bind at 1, gets at 1 in Er. cbn beta iota in Er.
  destruct (nth_error (tasks s) t) as [[| |]|] eqn:Hn;
    try (subst r; unfold ret; cbn [snd]; lia).
  - assert (Ht : AUTOPOLL_TASK s = Some t)
      by (apply Hs; exists Polling; split; [exact Hn | discriminate]).
    assert (Hp : pending s = 1%nat) by (unfold pending; now rewrite Ht, Hn).
    unfold bind, try_except, modify in Er.
    destruct (@autopoll_body_effect w s) as [Hts [Hta He]].
    destruct (autopoll_body w s) as [[next|e|c] s1]; cbn [fst snd] in *.
    + assert (Hnext : nth_error (list_update (tasks s1) t next) t = Some next)
        by (rewrite nth_error_list_update_same, Hts, Hn; reflexivity).
      subst r. cbn [snd].
      destruct s1 as [procs completed quitting registered lastps armed task out ts ps].
      cbn [tasks AUTOPOLL_TASK AUTOPOLL stdout with_tasks] in *.
      subst task. unfold pending at 1.
      cbn [tasks AUTOPOLL_TASK AUTOPOLL with_tasks]. rewrite Ht, Hnext.
      destruct next; destruct He as [Ha Hh]; subst; lia.
    + unfold ret in Er.
      assert (Hnext : nth_error (list_update (tasks s1) t Finished) t
                      = Some Finished)
        by (rewrite nth_error_list_update_same, Hts, Hn; reflexivity).
      subst r. cbn [snd].
      destruct s1 as [procs completed quitting registered lastps armed task out ts ps].
      cbn [tasks AUTOPOLL_TASK AUTOPOLL stdout with_tasks] in *.
      subst task. unfold pending at 1.
      cbn [tasks AUTOPOLL_TASK AUTOPOLL with_tasks]. rewrite Ht, Hnext.
      destruct He as [Ha Hh]. lia.
    + subst r. cbn [snd]. destruct He as [Ha Hh].
      pose proof (pending_le_1 s1). lia.
  - unfold bind, gets, modify in Er. cbn beta iota in Er.
    assert (Ht : AUTOPOLL_TASK s = Some t)
      by (apply Hs; exists Disarmed; split; [exact Hn | discriminate]).
    destruct (AUTOPOLL s) eqn:Ea; subst r; unfold ret; cbn [snd]; [|lia].
    pose proof (pending_le_1
                  (with_tasks (list_update (tasks s) t Polling) s)) as H1.
    assert (Hp : pending s = 1%nat) by (unfold pending; now rewrite Ht, Hn, Ea).
    destruct s as [procs completed quitting registered lastps armed task out ts ps].
    cbn [stdout with_tasks] in *. lia.
Qed.

Lemma live_step_globals : forall s e w,
  globals (live_step s e w)
  = match e with
    | Request args => snd (handle w args s)
    | PumpRead k value => snd (pump_resume w k value s)
    | AutopollResume t => snd (autopoll_resume w t s)
    end.
Proof.
  intros s [args|k value|t] w; cbn [live_step].
  - destruct (handle w args s) as [[[|]|e|c] s1]; reflexivity.
  - destruct (pump_resume w k value s) as [[u|e|c] s1]; reflexivity.
  - destruct (autopoll_resume w t s) as [[u|e|c] s1]; reflexivity.
Qed.

Lemma live_step_balance : forall s e w n,
  one_task s ->
  (autopoll_headers (stdout s) + pending s <= n)%nat ->
  (autopoll_headers (stdout (globals (live_step s e w)))
   + pending (globals (live_step s e w))
   <= n + if is_autopoll_request (e, w) then 1 else 0)%nat.
Proof.
  intros s e w n Hs Hn. rewrite live_step_globals.
  destruct e as [args|k value|t]; unfold is_autopoll_request; cbn [fst].
  - pose proof (@handle_keeps_headers _ w args s eq_refl) as Hh.
    unfold headers_are in Hh. cbn beta in Hh. rewrite Hh.
    destruct args as [|cmd args]; [cbn; lia|].
    destruct (String.eqb cmd "autopoll") eqn:Ec.
    + pose proof (pending_le_1 (snd (handle w (cmd :: args) s))). lia.
    + pose proof (@handle_keeps_pending (pending s) w cmd args Ec s
                    (Nat.le_refl _)) as Hp.
      unfold pending_le in Hp. cbn beta in Hp. lia.
  - pose proof (@pump_resume_keeps _ (headers_are_framed _) w k value s
                  eq_refl) as Hh.
    unfold headers_are in Hh. cbn beta in Hh. rewrite Hh.
    pose proof (@pump_resume_keeps_pending (pending s) w k value s
                  (Nat.le_refl _)) as Hp.
    unfold pending_le in Hp. cbn beta in Hp. lia.
  - pose proof (@autopoll_resume_balance w t s Hs). lia.
Qed.

Lemma autopoll_balance : forall trace,
  (autopoll_headers (stdout (globals (run boot trace)))
   + pending (globals (run boot trace))
   <= autopoll_requests trace)%nat.
Proof.
  intros trace. induction trace as [|[e w] trace IH] using rev_ind.
  - cbn. lia.
  - rewrite run_app. unfold autopoll_requests in *.
    rewrite filter_app, length_app. cbn [run fold_left filter].
    unfold step. cbn [fst snd].
    destruct (exited (run boot trace)); [lia|].
    pose proof (@live_step_balance _ e w _ (reachable_one_task trace) IH) as H.
    destruct (is_autopoll_request (e, w)); cbn [List.length]; lia.
Qed.

(** X14: autopoll is one-shot.  However the requests, the reads of the
    pumps and the wake-ups of the autopoll coroutine are interleaved, the
    number of [%autopoll] headers on stdout never exceeds the number of
    [autopoll] requests received: after a frame the coroutine waits until
    an [autopoll] request sets [AUTOPOLL] again, and no other command
    does. *)
Theorem one_autopoll_frame_per_request :
  forall (trace : list (event * world)),
  (autopoll_headers (stdout (globals (run boot trace)))
   <= autopoll_requests trace)%nat.
Proof.
  intros trace. pose proof (autopoll_balance trace). lia.
Qed.

(* ===================================================================== *)
(** * The main loop runs the machine *)
(* ===================================================================== *)

Lemma mainloop_request : forall args w rest s,
  Forall unbroken args ->
  mainloop (request_lines (args, w) ++ rest) [] s
  = (quit <- handle w args ;;
     if quit : bool then ret (Some 0) else mainloop rest []) s.
Proof.
  intros args w rest s Ha. unfold request_lines. cbn [fst snd].
  rewrite <- app_assoc.
  rewrite (@mainloop_arguments (map (fun a => ([], a)) args)
             (map (fun a => (Some a, w)) args) _ []).
  - cbn [app mainloop]. rewrite map_map. cbn [fst snd joined String.concat].
    cbn [String.append]. now rewrite map_id.
  - apply Forall_map. cbn [snd]. exact Ha.
  - now left.
  - rewrite !map_map. cbn [fst snd].
    induction args as [|a args IH]; [reflexivity|].
    inversion Ha; subst. cbn. now rewrite IH.
Qed.

(** X15: [mainloop] feeds the machine.  When the requests arrive on
    stdin one argument a line (no argument empty or ending in a
    backslash), each followed by an empty line, [mainloop] started in the
    state [s] passes them to [handle] one after the other, as the machine
    does with the events [Request args]: both come to the same globals;
    [mainloop] returns 0 exactly when the machine ends with exit code 0,
    ends the process through [sys.exit] with the machine's exit code, and
    waits for the next line while the machine still runs. *)
Theorem mainloop_runs_the_requests :
  forall (requests : list (list string * world)) (s : agent),
  Forall (fun rw => Forall unbroken (fst rw)) requests ->
  agrees (mainloop (List.concat (map request_lines requests)) [] s)
         (run (mkMachine s None)
              (map (fun rw => (Request (fst rw), snd rw)) requests)).
Proof.
  induction requests as [|[args w] requests IH]; intros s Hr.
  - split; reflexivity.
  - inversion Hr as [|? ? Ha Hr']; subst. cbn [fst] in Ha.
    cbn [map List.concat]. rewrite (@mainloop_request args w _ s Ha).
    change (run ?m (?ew :: ?t)) with (run (step m ew) t).
    unfold step at 1. cbn [exited globals fst snd live_step]. unfold bind.
    pose proof (@handle_catches_all w args s) as Hc.
    destruct (handle w args s) as [[[|]|e|c] s1]; cbn [fst snd] in *.
    + rewrite (@run_exited _ (mkMachine s1 (Some 0)) 0 eq_refl).
      split; reflexivity.
    + apply IH. exact Hr'.
    + now destruct (Hc e).
    + rewrite (@run_exited _ (mkMachine s1 (Some c)) c eq_refl).
      split; reflexivity.
Qed.

Lemma mainloop_runs_the_requests_witness :
  let w1 := mkWorld 7 None 0 "" None (fun _ => 0) (fun l => l) 10 in
  let w2 := mkWorld 8 None 0 "" None (fun _ => 0) (fun l => l) 10 in
  agrees (mainloop (List.concat (map request_lines
                                   [(["register"; "12"], w1); (["quit"], w2)]))
                   [] initial)
         (run (mkMachine initial None)
              [(Request ["register"; "12"], w1); (Request ["quit"], w2)]).
Proof.
  intros w1 w2.
  apply (@mainloop_runs_the_requests
           [(["register"; "12"], w1); (["quit"], w2)] initial).
  repeat constructor; cbn; discriminate.
Defined.

(* ===================================================================== *)
(** * [reset], then [poll] *)
(* ===================================================================== *)





(* ===================================================================== *)
(** * What [send] writes to a child *)
(* ===================================================================== *)

Lemma handle_send_known : forall w identifier pid payload proc data s,
  procs_get (PROCESSES s) pid = Some proc ->
  decoded w = Some data ->
  exists s1,
    handle_send w identifier [Py.str pid; payload] s = (Return false, s1)
    /\ PROCESSES s1
       = procs_set (PROCESSES s) pid
           (mkProcess (proc_pid proc) (return_code proc) (signals proc)
                      (written proc ++ [data]))
    /\ COMPLETED s1 = COMPLETED s.
Proof.
  intros w identifier pid payload proc data s Hp Hd.
  destruct s as [procs completed quitting registered lastps armed task out ts ps].
  cbn [PROCESSES] in Hp.
  unfold handle_send. rewrite int_str, Hd.
  unfold bind, gets, modify, begin, end_, send, ret.
  cbn [QUITTING PROCESSES stdout with_PROCESSES with_stdout].
  rewrite Hp.
  cbn [QUITTING PROCESSES stdout with_PROCESSES with_stdout].
  destruct quitting; eexists; split; try reflexivity; split; reflexivity.
Qed.

Lemma sends_accumulate : forall pid requests s proc,
  COMPLETED s = [] ->
  procs_get (PROCESSES s) pid = Some proc ->
  Forall (fun pw => decoded (snd pw) <> None) requests ->
  let m := run (mkMachine s None) (map (send_request pid) requests) in
  exited m = None
  /\ COMPLETED (globals m) = []
  /\ procs_get (PROCESSES (globals m)) pid
     = Some (mkProcess (proc_pid proc) (return_code proc) (signals proc)
                       (written proc ++ map sent_data requests))
  /\ (forall other, other <> pid ->
        procs_get (PROCESSES (globals m)) other
        = procs_get (PROCESSES s) other).
Proof.
  intros pid requests. induction requests as [|[payload w] requests IH];
    intros s proc Hc Hp Hd m.
  - subst m. cbn. rewrite app_nil_r. destruct proc. now repeat split.
  - inversion Hd as [|? ? Hw Hd']; subst. cbn [snd] in Hw.
    destruct (decoded w) as [data|] eqn:Ew; [|now contradiction Hw].
    destruct (@handle_send_known w (randint w) pid payload proc data s Hp Ew)
      as [s1 [H1 [Hp1 Hc1]]].
    assert (Hh : handle w ["send"; Py.str pid; payload] s = (Return false, s1)).
    { apply (@handle_returns_false w "send" (handle_send w));
        [reflexivity | exact H1 | congruence]. }
    assert (Hrun : run (mkMachine s None)
                       (map (send_request pid) ((payload, w) :: requests))
                   = run (mkMachine s1 None) (map (send_request pid) requests)).
    { cbn [map]. change (run ?x (?a :: ?t)) with (run (step x a) t).
      f_equal. unfold step, send_request.
      cbn [exited globals fst snd live_step]. now rewrite Hh. }
    subst m. rewrite Hrun.
    assert (Hp1' : procs_get (PROCESSES s1) pid
                   = Some (mkProcess (proc_pid proc) (return_code proc)
                             (signals proc) (written proc ++ [data])))
      by (rewrite Hp1; apply procs_get_set_same).
    assert (Hc1' : COMPLETED s1 = []) by congruence.
    destruct (IH s1 _ Hc1' Hp1' Hd') as [He [Hc' [Hp' Ho]]].
    split; [exact He|]. split; [exact Hc'|]. split.
    + rewrite Hp'. cbn [proc_pid return_code signals written map].
      unfold sent_data at 2. cbn [snd]. rewrite Ew.
      now rewrite <- app_assoc.
    + intros other Hne. rewrite (Ho other Hne), Hp1.
      now apply procs_get_set_other.
Qed.

(** X17: what [send] requests write.  In a state that the agent can
    reach and in which it runs, [send] requests for a pid that is in
    [PROCESSES], each with an argument that decodes, write their data to
    that child in the order of the requests, once each, and to no other
    process; the agent keeps running. *)
Theorem sends_are_written_in_order :
  forall (trace : list (event * world)) (pid : Z) (proc : Process)
         (requests : list (string * world)),
  let m := run boot trace in
  let m' := run boot (trace ++ map (send_request pid) requests) in
  exited m = None ->
  procs_get (PROCESSES (globals m)) pid = Some proc ->
  Forall (fun pw => decoded (snd pw) <> None) requests ->
  exited m' = None
  /\ procs_get (PROCESSES (globals m')) pid
     = Some (mkProcess (proc_pid proc) (return_code proc) (signals proc)
                       (written proc ++ map sent_data requests))
  /\ (forall other, other <> pid ->
        procs_get (PROCESSES (globals m')) other
        = procs_get (PROCESSES (globals m)) other).
Proof.
  intros trace pid proc requests m m' Hm Hp Hd.
  pose proof (reachable_completed_empty trace) as Hc. fold m in Hc.
  unfold completed_empty in Hc. subst m'. rewrite run_app. fold m.
  destruct m as [s ex]. cbn [exited globals] in *. subst ex.
  destruct (@sends_accumulate pid requests s proc Hc Hp Hd)
    as [He [_ [Hw Ho]]].
  now repeat split.
Qed.

Lemma sends_are_written_in_order_witness :
  let w0 := mkWorld 7 (Some 42) 0 "" None (fun _ => 0) (fun l => l) 10 in
  let w1 := mkWorld 8 None 0 "" (Some [x61%byte]) (fun _ => 0) (fun l => l) 10 in
  let w2 := mkWorld 9 None 0 "" (Some [x62%byte]) (fun _ => 0) (fun l => l) 10 in
  procs_get
    (PROCESSES
       (globals (run boot ([(Request ["run"; "cat"], w0)]
                           ++ map (send_request 42)
                                  [("YQ==", w1); ("Yg==", w2)]))))
    42
  = Some (mkProcess 42 None [] [[x61%byte]; [x62%byte]]).
Proof.
  intros w0 w1 w2.
  destruct (@sends_are_written_in_order
              [(Request ["run"; "cat"], w0)] 42 (new_process 42)
              [("YQ==", w1); ("Yg==", w2)] eq_refl eq_refl
              ltac:(repeat constructor; cbn; discriminate))
    as [_ [H _]].
  exact H.
Defined.

(* ===================================================================== *)
(** * The text of a parsed line *)
(* ===================================================================== *)

(** ** The fields of a row are the text of its line *)

Lemma exec_group_close_total : forall s cur caps,
  Regex.exec [Regex.GroupClose] s cur caps <> None.
Proof. intros. cbn [Regex.exec]. discriminate. Qed.

Lemma pattern_accepts_text : forall s out,
  accepts pattern s [] [] out ->
  exists r indent g1 g2 g3 g4 tail,
    out = row_fields r
    /\ laid_out (string_of_list_ascii s) r indent g1 g2 g3 g4 tail.
Proof.
  intros s out E.
  cbn [accepts pattern whitespace number nonspace letters anything] in E.
  open_accepts E.
  repeat match goal with
         | Hm : forall c y', _ -> _ -> Regex.exec (_ :: _ :: _) _ _ _ = None |- _ => clear Hm
         end.
  subst out. cbn [app].
  eexists (Row _ _ _ _ _), (string_of_list_ascii x0),
    (string_of_list_ascii x2), (string_of_list_ascii x4),
    (string_of_list_ascii x6), (string_of_list_ascii x18),
    (string_of_list_ascii y19).
  split; [reflexivity|].
  unfold laid_out. cbn [r_pid r_ppid r_stat r_lstart r_command].
  split.
  - subst.
    repeat (first [rewrite string_of_list_app
                  | progress (cbn [string_of_list_ascii])]).
    rewrite !string_app_assoc. reflexivity.
  - split; [unfold all_of; now rewrite list_of_string_of_list|].
    repeat match goal with |- _ /\ _ => split end;
      try (apply run_of_list; assumption).
    destruct y19 as [|c y']; [exact I|]. cbn [string_of_list_ascii].
    destruct (Ascii.eqb c Py.newline) eqn:Ec; [now apply Ascii.eqb_eq|].
    exfalso.
    assert (Hn : negb (Ascii.eqb c Py.newline) = true) by now rewrite Ec.
    pose proof (Hm18 c y' eq_refl Hn) as Hx.
    match type of Hx with
    | Regex.exec _ ?s ?cur ?caps = None =>
        exact (@exec_group_close_total s cur caps Hx)
    end.
Qed.

(** X18: the fields of a row are the text of the line it was parsed
    from, in order: the line is some whitespace, the pid, the ppid, the
    stat, the lstart and the command with non-empty whitespace between
    them, and what follows the command, if anything, starts at a newline
    (nothing follows in a line of [output.split]). *)
Theorem parsed_row_is_laid_out : forall (line : string) (r : row),
  parse line = Some r ->
  exists indent g1 g2 g3 g4 tail, laid_out line r indent g1 g2 g3 g4 tail.
Proof.
  intros line r H. apply parse_accepts in H.
  apply pattern_accepts_text in H
    as [r' [indent [g1 [g2 [g3 [g4 [tail [E H]]]]]]]].
  rewrite string_of_list_ascii_of_string in H.
  rewrite <- (row_fields_inj E) in H.
  now exists indent, g1, g2, g3, g4, tail.
Qed.

Lemma parsed_row_is_laid_out_witness :
  exists indent g1 g2 g3 g4 tail,
    laid_out "  12   1 Ss+   Mon  Jan  1 00:00:00 2024   a b"
             (Row "12" "1" "Ss+" "Mon  Jan  1 00:00:00 2024" "a b")
             indent g1 g2 g3 g4 tail.
Proof.
  apply parsed_row_is_laid_out. vm_compute. reflexivity.
Defined.
